(** * Metronome & recorder: the beat scheduler of [App.tsx]

    A shallow embedding of the React component [App] of
    [src/src/App.tsx] (and, in [Module RootApp], of the copy at the
    repository root, [src/App.tsx]) together with the slice of the browser it talks to:
    the timer table behind [setTimeout]/[setInterval], the audio clock
    and the oscillators started on it.

    Modelling conventions.
    - JavaScript numbers that carry time, tempo or volume are exact
      rationals ([Q]); comparisons of such numbers are [Qeq]/[Qlt].
      Beat indices and visual indices are integers ([Z]).
    - [context.currentTime] is an input of every transition (the clock
      reading when the handler, effect or timer callback runs); it is
      taken as constant during one synchronous run.
    - A [useState] setter called with a value that [Object.is] the
      current one leaves the component untouched (React bails out).
    - Arrays are heap objects: a pattern carries the address it was
      allocated at, and dependency arrays compare addresses. *)

From Stdlib Require Import ZArith QArith Qround Lqa Lia Ascii String.
From stdpp Require Import base gmap list strings.

#[local] Set Warnings "-clear-no-such-hyp".

Local Open Scope Z_scope.

(** ** Data *)

(** A [boolean[]] living on the heap. *)
Record PatternRef := mkPattern {
  pat_addr : nat;
  pat_items : list bool
}.

(** [Array(n).fill(chunk).flat()] *)
Definition fill_flat (n : nat) (chunk : list bool) : list bool :=
  concat (replicate n chunk).

Definition PRESET_standard : PatternRef := mkPattern 0 (replicate 16 true).
Definition PRESET_backbeat : PatternRef :=
  mkPattern 1 (fill_flat 4 [false; true; false; true]).
Definition PRESET_gallop : PatternRef :=
  mkPattern 2 (fill_flat 4 [true; true; false; true]).
Definition PRESET_tresillo : PatternRef :=
  mkPattern 3 (fill_flat 2 [true; false; false; true; false; true; false; false]).
Definition PRESET_sonClave : PatternRef :=
  mkPattern 4 [true; false; false; true; false; true; false; false;
               false; true; true; false; false; true; false; false].

(** [PRESET_PATTERNS[key]], [None] when [!(key in PRESET_PATTERNS)]. *)
Definition PRESET_PATTERNS (key : string) : option PatternRef :=
  if String.eqb key "standard" then Some PRESET_standard
  else if String.eqb key "backbeat" then Some PRESET_backbeat
  else if String.eqb key "gallop" then Some PRESET_gallop
  else if String.eqb key "tresillo" then Some PRESET_tresillo
  else if String.eqb key "sonClave" then Some PRESET_sonClave
  else None.

(** First heap address free for arrays made by [[...clickPattern]]. *)
Definition first_free_addr : nat := 5.

(** What the [scheduler] closure captured from the render it was
    created in: [tempo], [clickPattern] and, through [playClick], [volume]. *)
Record Closure := mkClosure {
  cl_tempo : Q;
  cl_pattern : list bool;
  cl_volume : Q
}.

(** Callbacks handed to [setTimeout]. *)
Inductive Callback :=
| CbEndCountIn                                  (* () => setIsCountingIn(false) *)
| CbVisual (visualBeat : Z) (timeoutId : nat).  (* setCurrentBeat(visualBeat); ids.delete(timeoutId) *)

(** An entry of the browser's table of active timers.  Timeouts and
    intervals share one pool of handles. *)
Inductive Timer :=
| OneShot (delay : Q) (cb : Callback)
| Repeating (period : Q) (cl : Closure).

(** One oscillator started by [playClick]. *)
Record Click := mkClick {
  click_freq : Z;
  click_time : Q;
  click_gain : Q
}.

(** One pass through the body of the scheduler's [while] loop. *)
Record Beat := mkBeat {
  b_cursor : Z;     (* [beat] *)
  b_time : Q;       (* [time] *)
  b_click : bool;   (* was [playClick] called *)
  b_visual : Z      (* [visualBeat] *)
}.

(** The dependency array [[isPlaying, tempo, clickPattern, playClick]];
    [playClick] is re-created exactly when [volume] changes. *)
Record Deps := mkDeps {
  d_isPlaying : bool;
  d_tempo : Q;
  d_clickPattern : nat;
  d_playClick : Q
}.

(** [useState] cells. *)
Record Hooks := mkHooks {
  isPlaying : bool;
  isCountingIn : bool;
  tempo : Q;
  volume : Q;
  currentPreset : string;
  clickPattern : PatternRef;
  currentBeat : Z
}.

(** [useRef] cells. *)
Record Refs := mkRefs {
  audioContextRef : bool;               (* has the AudioContext been created *)
  schedulerIntervalRef : option nat;
  nextNoteTimeRef : Q;
  currentBeatRef : Z;
  visualTimeoutIdsRef : gset nat;
  isCountingInRef : bool;
  previousRef : option bool             (* the ref inside [usePrevious(isPlaying)] *)
}.

(** React's bookkeeping for the scheduler effect, and the browser. *)
Record Runtime := mkRuntime {
  effectDeps : option Deps;   (* dependencies of the last run, [None] before mount *)
  effectCleanup : bool;       (* did the last run return a cleanup function *)
  nextAddr : nat;             (* heap allocation pointer *)
  timers : gmap nat Timer;
  nextHandle : nat;
  oscillators : list Click
}.

Record App := mkApp {
  hooks : Hooks;
  refs : Refs;
  rt : Runtime;
  beats : list Beat;        (* every beat the scheduler has processed, oldest first *)
  highlights : list Z       (* every [setCurrentBeat(visualBeat)] run by a timer *)
}.

(** ** Field updates *)

Definition upd_hooks (f : Hooks -> Hooks) (s : App) : App :=
  mkApp (f (hooks s)) (refs s) (rt s) (beats s) (highlights s).
Definition upd_refs (f : Refs -> Refs) (s : App) : App :=
  mkApp (hooks s) (f (refs s)) (rt s) (beats s) (highlights s).
Definition upd_rt (f : Runtime -> Runtime) (s : App) : App :=
  mkApp (hooks s) (refs s) (f (rt s)) (beats s) (highlights s).
Definition log_beat (b : Beat) (s : App) : App :=
  mkApp (hooks s) (refs s) (rt s) (beats s ++ [b]) (highlights s).
Definition log_highlight (v : Z) (s : App) : App :=
  mkApp (hooks s) (refs s) (rt s) (beats s) (highlights s ++ [v]).

Definition set_isPlaying (v : bool) (h : Hooks) : Hooks :=
  mkHooks v (isCountingIn h) (tempo h) (volume h) (currentPreset h) (clickPattern h) (currentBeat h).
Definition set_isCountingIn (v : bool) (h : Hooks) : Hooks :=
  mkHooks (isPlaying h) v (tempo h) (volume h) (currentPreset h) (clickPattern h) (currentBeat h).
Definition set_tempo (v : Q) (h : Hooks) : Hooks :=
  mkHooks (isPlaying h) (isCountingIn h) v (volume h) (currentPreset h) (clickPattern h) (currentBeat h).
Definition set_volume (v : Q) (h : Hooks) : Hooks :=
  mkHooks (isPlaying h) (isCountingIn h) (tempo h) v (currentPreset h) (clickPattern h) (currentBeat h).
Definition set_currentPreset (v : string) (h : Hooks) : Hooks :=
  mkHooks (isPlaying h) (isCountingIn h) (tempo h) (volume h) v (clickPattern h) (currentBeat h).
Definition set_clickPattern (v : PatternRef) (h : Hooks) : Hooks :=
  mkHooks (isPlaying h) (isCountingIn h) (tempo h) (volume h) (currentPreset h) v (currentBeat h).
Definition set_currentBeat (v : Z) (h : Hooks) : Hooks :=
  mkHooks (isPlaying h) (isCountingIn h) (tempo h) (volume h) (currentPreset h) (clickPattern h) v.

Definition set_audioContextRef (v : bool) (r : Refs) : Refs :=
  mkRefs v (schedulerIntervalRef r) (nextNoteTimeRef r) (currentBeatRef r)
         (visualTimeoutIdsRef r) (isCountingInRef r) (previousRef r).
Definition set_schedulerIntervalRef (v : option nat) (r : Refs) : Refs :=
  mkRefs (audioContextRef r) v (nextNoteTimeRef r) (currentBeatRef r)
         (visualTimeoutIdsRef r) (isCountingInRef r) (previousRef r).
Definition set_nextNoteTimeRef (v : Q) (r : Refs) : Refs :=
  mkRefs (audioContextRef r) (schedulerIntervalRef r) v (currentBeatRef r)
         (visualTimeoutIdsRef r) (isCountingInRef r) (previousRef r).
Definition set_currentBeatRef (v : Z) (r : Refs) : Refs :=
  mkRefs (audioContextRef r) (schedulerIntervalRef r) (nextNoteTimeRef r) v
         (visualTimeoutIdsRef r) (isCountingInRef r) (previousRef r).
Definition set_visualTimeoutIdsRef (v : gset nat) (r : Refs) : Refs :=
  mkRefs (audioContextRef r) (schedulerIntervalRef r) (nextNoteTimeRef r) (currentBeatRef r)
         v (isCountingInRef r) (previousRef r).
Definition set_isCountingInRef (v : bool) (r : Refs) : Refs :=
  mkRefs (audioContextRef r) (schedulerIntervalRef r) (nextNoteTimeRef r) (currentBeatRef r)
         (visualTimeoutIdsRef r) v (previousRef r).
Definition set_previousRef (v : option bool) (r : Refs) : Refs :=
  mkRefs (audioContextRef r) (schedulerIntervalRef r) (nextNoteTimeRef r) (currentBeatRef r)
         (visualTimeoutIdsRef r) (isCountingInRef r) v.

Definition set_effect (d : option Deps) (c : bool) (r : Runtime) : Runtime :=
  mkRuntime d c (nextAddr r) (timers r) (nextHandle r) (oscillators r).
Definition set_nextAddr (v : nat) (r : Runtime) : Runtime :=
  mkRuntime (effectDeps r) (effectCleanup r) v (timers r) (nextHandle r) (oscillators r).
Definition set_timers (v : gmap nat Timer) (r : Runtime) : Runtime :=
  mkRuntime (effectDeps r) (effectCleanup r) (nextAddr r) v (nextHandle r) (oscillators r).
Definition set_nextHandle (v : nat) (r : Runtime) : Runtime :=
  mkRuntime (effectDeps r) (effectCleanup r) (nextAddr r) (timers r) v (oscillators r).
Definition set_oscillators (v : list Click) (r : Runtime) : Runtime :=
  mkRuntime (effectDeps r) (effectCleanup r) (nextAddr r) (timers r) (nextHandle r) v.

(** ** The browser: timers *)

(** [setTimeout]/[setInterval]: register under a fresh handle. *)
Definition addTimer (t : Timer) (s : App) : nat * App :=
  let id := nextHandle (rt s) in
  (id, upd_rt (fun r => set_nextHandle (S id) (set_timers (<[id := t]> (timers r)) r)) s).

(** [clearTimeout(id)] and [clearInterval(id)] (interchangeable). *)
Definition clearTimer (id : nat) (s : App) : App :=
  upd_rt (fun r => set_timers (delete id (timers r)) r) s.

(** ** The click synthesizer, [playClick] (src/src/App.tsx 60-83) *)

Definition playClick (vol : Q) (beat : Z) (time : Q) (s : App) : App :=
  if negb (audioContextRef (refs s)) then s
  else
    let freq := if Z.rem beat 4 =? 0 then 880 else 660 in
    upd_rt (fun r => set_oscillators (oscillators r ++ [mkClick freq time vol]) r) s.

(** ** The scheduler (src/src/App.tsx 119-157) *)

Definition scheduleAheadTime : Q := 1 # 10.
Definition schedulerLookahead : Q := 25.

(** [delay > 0 ? delay : 0] *)
Definition clamp_delay (delay : Q) : Q :=
  if Qle_bool delay 0 then 0%Q else delay.

(** The guard of the [while] loop. *)
Definition due (now : Q) (s : App) : bool :=
  negb (Qle_bool (now + scheduleAheadTime) (nextNoteTimeRef (refs s))).

(** [clickPattern[beat]] for a non-negative [beat]; [undefined] is falsy. *)
Definition pattern_at (p : list bool) (beat : Z) : bool :=
  match p !! Z.to_nat beat with
  | Some b => b
  | None => false
  end.

(** The body of the [while] loop. *)
Definition schedule_beat (cl : Closure) (now : Q) (s : App) : App :=
  let beat := currentBeatRef (refs s) in
  let time := nextNoteTimeRef (refs s) in
  let isCountInBeat := beat <? 0 in
  let visualBeat := if isCountInBeat then beat + 4 else beat in
  let delay := ((time - now) * 1000)%Q in
  let s :=
    if isCountInBeat then playClick (cl_volume cl) visualBeat time s
    else
      let s :=
        if (beat =? 0) && isCountingInRef (refs s)
        then snd (addTimer (OneShot (clamp_delay delay) CbEndCountIn) s)
        else s in
      if pattern_at (cl_pattern cl) beat
      then playClick (cl_volume cl) beat time s
      else s in
  let timeoutId := nextHandle (rt s) in
  let s := snd (addTimer (OneShot (clamp_delay delay) (CbVisual visualBeat timeoutId)) s) in
  let s := upd_refs (fun r =>
             set_visualTimeoutIdsRef ({[timeoutId]} ∪ visualTimeoutIdsRef r) r) s in
  let secondsPerBeat := (60 / cl_tempo cl)%Q in
  let s := upd_refs (fun r =>
             set_nextNoteTimeRef (nextNoteTimeRef r + secondsPerBeat)%Q r) s in
  let s := upd_refs (fun r => set_currentBeatRef (currentBeatRef r + 1) r) s in
  let s := if 16 <=? currentBeatRef (refs s)
           then upd_refs (set_currentBeatRef 0) s else s in
  log_beat (mkBeat beat time
                   (if isCountInBeat then true else pattern_at (cl_pattern cl) beat)
                   visualBeat) s.

(** The [while] loop, unrolled at most [fuel] times. *)
Fixpoint scheduler_loop (fuel : nat) (cl : Closure) (now : Q) (s : App) : App :=
  match fuel with
  | O => s
  | S fuel' =>
      if due now s then scheduler_loop fuel' cl now (schedule_beat cl now s)
      else s
  end.

(** Number of passes the loop makes for a positive tempo: the least [n]
    with [next + n * (60 / tempo) >= now + scheduleAheadTime].  The
    tempo slider keeps [tempo] within 40..240; for such a tempo the
    loop below stops because its guard fails ([scheduler_exits]) and
    more fuel changes nothing ([scheduler_loop_enough]). *)
Definition scheduler_fuel (cl : Closure) (now : Q) (s : App) : nat :=
  Z.to_nat (Qceiling ((now + scheduleAheadTime - nextNoteTimeRef (refs s))
                      / (60 / cl_tempo cl))).

Definition scheduler (cl : Closure) (now : Q) (s : App) : App :=
  scheduler_loop (scheduler_fuel cl now s) cl now s.

(** ** The scheduler effect (src/src/App.tsx 85-167) *)

Definition clearVisualTimeouts (s : App) : App :=
  let s := foldr clearTimer s (elements (visualTimeoutIdsRef (refs s))) in
  upd_refs (set_visualTimeoutIdsRef ∅) s.

(** [if (schedulerIntervalRef.current) clearInterval(schedulerIntervalRef.current)];
    handles are positive, hence truthy. *)
Definition clearSchedulerInterval (s : App) : App :=
  match schedulerIntervalRef (refs s) with
  | Some h => clearTimer h s
  | None => s
  end.

(** The function the effect returns while playing. *)
Definition effect_cleanup (s : App) : App :=
  clearVisualTimeouts (clearSchedulerInterval s).

Definition closure_of (h : Hooks) : Closure :=
  mkClosure (tempo h) (pat_items (clickPattern h)) (volume h).

(** [!prevIsPlaying]: [undefined] and [false] are falsy. *)
Definition falsy (v : option bool) : bool :=
  match v with
  | Some true => false
  | _ => true
  end.

Definition scheduler_effect (prevIsPlaying : option bool) (now : Q) (s : App) : App :=
  if negb (isPlaying (hooks s)) then
    let s := clearSchedulerInterval s in
    let s := clearVisualTimeouts s in
    let s := upd_hooks (set_currentBeat (-1)) s in
    let s := upd_hooks (set_isCountingIn false) s in
    upd_rt (fun r => set_effect (effectDeps r) false r) s
  else
    let s := upd_refs (set_audioContextRef true) s in
    let justStarted := falsy prevIsPlaying && isPlaying (hooks s) in
    let s :=
      if justStarted then
        let s := upd_refs (set_currentBeatRef (-4)) s in
        let s := upd_refs (set_nextNoteTimeRef (now + (1 # 10))%Q) s in
        upd_hooks (set_isCountingIn true) s
      else if isPlaying (hooks s) then
        let s := upd_refs (set_currentBeatRef 0) s in
        let s := upd_refs (set_nextNoteTimeRef (now + (1 # 10))%Q) s in
        upd_hooks (set_isCountingIn false) s
      else s in
    let cl := closure_of (hooks s) in
    let s := clearSchedulerInterval s in
    let s := scheduler cl now s in
    let '(h, s) := addTimer (Repeating schedulerLookahead cl) s in
    let s := upd_refs (set_schedulerIntervalRef (Some h)) s in
    upd_rt (fun r => set_effect (effectDeps r) true r) s.

(** ** Rendering *)

Definition deps_of (h : Hooks) : Deps :=
  mkDeps (isPlaying h) (tempo h) (pat_addr (clickPattern h)) (volume h).

(** [Object.is] on each pair of dependencies. *)
Definition deps_same (a b : Deps) : bool :=
  Bool.eqb (d_isPlaying a) (d_isPlaying b)
  && Qeq_bool (d_tempo a) (d_tempo b)
  && Nat.eqb (d_clickPattern a) (d_clickPattern b)
  && Qeq_bool (d_playClick a) (d_playClick b).

Definition deps_changed (old : option Deps) (new : Deps) : bool :=
  match old with
  | None => true
  | Some d => negb (deps_same d new)
  end.

(** One render and its commit.  [usePrevious] reads its ref while
    rendering; then the effects run in the order they are declared:
    the [isCountingIn] mirror (line 54), the one inside [usePrevious]
    (line 23, called at line 58) and the scheduler effect (line 85),
    the last only when a dependency changed.  State set from inside
    the effect causes one more render, in which the mirror effect
    copies [isCountingIn] into its ref. *)
Definition render (now : Q) (s : App) : App :=
  let prevIsPlaying := previousRef (refs s) in
  let deps := deps_of (hooks s) in
  let s := upd_refs (set_isCountingInRef (isCountingIn (hooks s))) s in
  let s := upd_refs (set_previousRef (Some (isPlaying (hooks s)))) s in
  let s :=
    if deps_changed (effectDeps (rt s)) deps then
      let s := if effectCleanup (rt s) then effect_cleanup s else s in
      let s := scheduler_effect prevIsPlaying now s in
      upd_rt (fun r => set_effect (Some deps) (effectCleanup r) r) s
    else s in
  upd_refs (set_isCountingInRef (isCountingIn (hooks s))) s.

(** ** Event handlers (src/src/App.tsx 270-296) *)

Definition handlePlayStop (now : Q) (s : App) : App :=
  render now (upd_hooks (fun h => set_isPlaying (negb (isPlaying h)) h) s).

Definition handleTempoChange (v : Q) (now : Q) (s : App) : App :=
  if Qeq_bool v (tempo (hooks s)) then s
  else render now (upd_hooks (set_tempo v) s).

Definition handleVolumeChange (v : Q) (now : Q) (s : App) : App :=
  if Qeq_bool v (volume (hooks s)) then s
  else render now (upd_hooks (set_volume v) s).

(** [newPattern[index] = !newPattern[index]] on a copy; writing past the
    end of a JS array extends it with holes. *)
Definition toggle_items (index : nat) (items : list bool) : list bool :=
  match items !! index with
  | Some b => <[index := negb b]> items
  | None => items ++ replicate (index - length items) false ++ [true]
  end.

Definition handlePatternToggle (index : nat) (now : Q) (s : App) : App :=
  let newPattern :=
    mkPattern (nextAddr (rt s)) (toggle_items index (pat_items (clickPattern (hooks s)))) in
  let s := upd_rt (fun r => set_nextAddr (S (nextAddr r)) r) s in
  let s := upd_hooks (set_clickPattern newPattern) s in
  let s := upd_hooks (set_currentPreset "custom") s in
  render now s.

Definition handlePresetChange (presetKey : string) (now : Q) (s : App) : App :=
  match PRESET_PATTERNS presetKey with
  | Some p =>
      let s := if Nat.eqb (pat_addr p) (pat_addr (clickPattern (hooks s))) then s
               else upd_hooks (set_clickPattern p) s in
      let s := upd_hooks (set_currentPreset presetKey) s in
      render now s
  | None => s
  end.

(** ** Timer callbacks *)

Definition run_callback (cb : Callback) (now : Q) (s : App) : App :=
  match cb with
  | CbEndCountIn =>
      render now (upd_hooks (set_isCountingIn false) s)
  | CbVisual visualBeat timeoutId =>
      let s := upd_hooks (set_currentBeat visualBeat) s in
      let s := log_highlight visualBeat s in
      let s := upd_refs (fun r =>
                 set_visualTimeoutIdsRef (visualTimeoutIdsRef r ∖ {[timeoutId]}) r) s in
      render now s
  end.

(** The browser runs timer [id], if it is still in the table. *)
Definition fire (id : nat) (now : Q) (s : App) : App :=
  match timers (rt s) !! id with
  | Some (OneShot _ cb) => run_callback cb now (clearTimer id s)
  | Some (Repeating _ cl) => scheduler cl now s
  | None => s
  end.

(** ** The component as a transition system *)

Inductive Event :=
| PlayStop
| TempoChange (v : Q)
| VolumeChange (v : Q)
| PatternToggle (index : nat)
| PresetChange (presetKey : string)
| TimerFires (id : nat).

(** [now] is the reading of [context.currentTime] during the event. *)
Definition step (now : Q) (e : Event) (s : App) : App :=
  match e with
  | PlayStop => handlePlayStop now s
  | TempoChange v => handleTempoChange v now s
  | VolumeChange v => handleVolumeChange v now s
  | PatternToggle i => handlePatternToggle i now s
  | PresetChange k => handlePresetChange k now s
  | TimerFires id => fire id now s
  end.

Fixpoint run (evs : list (Q * Event)) (s : App) : App :=
  match evs with
  | [] => s
  | (now, e) :: evs' => run evs' (step now e s)
  end.

(** The component before its first render: the [useState] and [useRef]
    initial values of lines 30-52. *)
Definition unmounted : App :=
  mkApp (mkHooks false false 120 (1 # 2) "standard" PRESET_standard (-1))
        (mkRefs false None 0 0 ∅ false None)
        (mkRuntime None false first_free_addr ∅ 1 [])
        [] [].

(** The mounted component. *)
Definition mounted : App := render 0 unmounted.

Inductive reachable : App -> Prop :=
| reach_mounted : reachable mounted
| reach_step now e s : reachable s -> reachable (step now e s).

(** A session: the events between a start and the next stop. *)
Definition in_session (e : Event) : Prop := e <> PlayStop.


(** Beats logged by [s'] beyond those of [s]. *)
Definition new_beats (s s' : App) : list Beat :=
  drop (length (beats s)) (beats s').

(** The cursor after one beat. *)
Definition next_cursor (c : Z) : Z :=
  if 16 <=? c + 1 then 0 else c + 1.

(** Beat times are [t], [t + d], [t + 2d], ... *)
Fixpoint spaced (d t : Q) (l : list Beat) : Prop :=
  match l with
  | [] => True
  | b :: l' => (b_time b == t)%Q /\ spaced d (t + d)%Q l'
  end.

(** Cursors are [c], [next_cursor c], ... *)
Fixpoint counted (c : Z) (l : list Beat) : Prop :=
  match l with
  | [] => True
  | b :: l' => b_cursor b = c /\ counted (next_cursor c) l'
  end.

(** ** Saving a recording: the file name *)

Local Open Scope string_scope.

(** The UTC calendar fields of a [Date], as [toISOString] prints them. *)
Record Date := mkDate {
  utcFullYear : N;
  utcMonth : N;          (* 1..12 *)
  utcDate : N;
  utcHours : N;
  utcMinutes : N;
  utcSeconds : N;
  utcMilliseconds : N
}.

(** The decimal digit of [n] in the units place. *)
Definition digit (n : N) : ascii := ascii_of_N (48 + n mod 10)%N.

Definition pad2 (n : N) : string :=
  String (digit (n / 10)%N) (String (digit n) "").
Definition pad3 (n : N) : string :=
  String (digit (n / 100)%N) (pad2 n).
Definition pad4 (n : N) : string :=
  String (digit (n / 1000)%N) (pad3 n).

(** [Date.prototype.toISOString] for years 0 to 9999:
    [YYYY-MM-DDTHH:mm:ss.sssZ], always in UTC. *)
Definition toISOString (d : Date) : string :=
  pad4 (utcFullYear d) +:+ "-" +:+ pad2 (utcMonth d) +:+ "-" +:+ pad2 (utcDate d)
  +:+ "T" +:+ pad2 (utcHours d) +:+ ":" +:+ pad2 (utcMinutes d) +:+ ":"
  +:+ pad2 (utcSeconds d) +:+ "." +:+ pad3 (utcMilliseconds d) +:+ "Z".

(** Does [s] begin with [pat]. *)
Fixpoint starts_with (pat s : string) : bool :=
  match pat, s with
  | "", _ => true
  | String _ _, "" => false
  | String a pat', String b s' => Ascii.eqb a b && starts_with pat' s'
  end.

Fixpoint skip (n : nat) (s : string) : string :=
  match n, s with
  | O, _ => s
  | S _, "" => ""
  | S n', String _ s' => skip n' s'
  end.

(** [s.slice(0, n)] *)
Definition slice0 (n : nat) (s : string) : string := String.substring 0 n s.

(** [s.replace(pat, by)] with a string pattern: the first match only. *)
Fixpoint replace_first (pat by_ s : string) : string :=
  if starts_with pat s then by_ +:+ skip (String.length pat) s
  else match s with
       | "" => ""
       | String c s' => String c (replace_first pat by_ s')
       end.

(** [s.replace(/c/g, by)] for a one-character regular expression. *)
Fixpoint replace_all (c : ascii) (by_ s : string) : string :=
  match s with
  | "" => ""
  | String a s' =>
      if Ascii.eqb a c then by_ +:+ replace_all c by_ s'
      else String a (replace_all c by_ s')
  end.

(** [s.includes(pat)] *)
Fixpoint includes (pat s : string) : bool :=
  starts_with pat s ||
  match s with
  | "" => false
  | String _ s' => includes pat s'
  end.

(** [new Date().toISOString().slice(0, 19).replace('T', '_').replace(/:/g, '-')] *)
Definition timestamp (d : Date) : string :=
  replace_all ":" "-" (replace_first "T" "_" (slice0 19 (toISOString d))).

(** [extension] and [filename] of [handleSaveRecording]
    (src/src/App.tsx 301-304); [type] is [recordedAudio.type]. *)
Definition extension (type : string) : string :=
  if includes "mp4" type then "mp4" else "webm".

Definition filename (d : Date) (type : string) : string :=
  "metronome-recording_" +:+ timestamp d +:+ "." +:+ extension type.

(** The file name as the specification words it: the ISO 8601 timestamp
    [iso] with every [:] replaced by [-], between the fixed prefix and
    the extension. *)
Definition spec_filename (iso ext : string) : string :=
  "metronome-recording_" +:+ replace_all ":" "-" iso +:+ "." +:+ ext.

Local Close Scope string_scope.

(** ** The copy at the repository root, [src/App.tsx] *)

Module RootApp.

(** [playClick] (src/App.tsx 59-82) *)
Definition playClick (vol : Q) (beat : Z) (time : Q) (s : App) : App :=
  if negb (audioContextRef (refs s)) then s
  else
    let freq := if Z.rem beat 4 =? 0 then 880 else 660 in
    upd_rt (fun r => set_oscillators (oscillators r ++ [mkClick freq time vol]) r) s.

Definition scheduleAheadTime : Q := 1 # 10.

Definition due (now : Q) (s : App) : bool :=
  negb (Qle_bool (now + scheduleAheadTime) (nextNoteTimeRef (refs s))).

(** The body of the [while] loop of [scheduler] (src/App.tsx 123-155). *)
Definition schedule_beat (cl : Closure) (now : Q) (s : App) : App :=
  let beat := currentBeatRef (refs s) in
  let time := nextNoteTimeRef (refs s) in
  let isCountInBeat := beat <? 0 in
  let visualBeat := if isCountInBeat then beat + 4 else beat in
  let delay := ((time - now) * 1000)%Q in
  let s :=
    if isCountInBeat then playClick (cl_volume cl) visualBeat time s
    else
      let s :=
        if (beat =? 0) && isCountingInRef (refs s)
        then snd (addTimer (OneShot (clamp_delay delay) CbEndCountIn) s)
        else s in
      if pattern_at (cl_pattern cl) beat
      then playClick (cl_volume cl) beat time s
      else s in
  let timeoutId := nextHandle (rt s) in
  let s := snd (addTimer (OneShot (clamp_delay delay) (CbVisual visualBeat timeoutId)) s) in
  let s := upd_refs (fun r =>
             set_visualTimeoutIdsRef ({[timeoutId]} ∪ visualTimeoutIdsRef r) r) s in
  let secondsPerBeat := (60 / cl_tempo cl)%Q in
  let s := upd_refs (fun r =>
             set_nextNoteTimeRef (nextNoteTimeRef r + secondsPerBeat)%Q r) s in
  let s := upd_refs (fun r => set_currentBeatRef (currentBeatRef r + 1) r) s in
  let s := if 16 <=? currentBeatRef (refs s)
           then upd_refs (set_currentBeatRef 0) s else s in
  log_beat (mkBeat beat time
                   (if isCountInBeat then true else pattern_at (cl_pattern cl) beat)
                   visualBeat) s.

Fixpoint scheduler_loop (fuel : nat) (cl : Closure) (now : Q) (s : App) : App :=
  match fuel with
  | O => s
  | S fuel' =>
      if due now s then scheduler_loop fuel' cl now (schedule_beat cl now s)
      else s
  end.

Definition scheduler (cl : Closure) (now : Q) (s : App) : App :=
  scheduler_loop (scheduler_fuel cl now s) cl now s.

(** [link.download] of [handleSaveRecording] (src/App.tsx 256-257). *)
Definition filename (d : Date) : string :=
  ("metronome-recording_" +:+ timestamp d +:+ ".webm")%string.

End RootApp.

(** What one poll hands to the outside: the beats it processed, the
    oscillators it started and the cursor and next-note time it left. *)
Definition poll_outcome (before after : App)
  : list Beat * list Click * Z * Q :=
  (new_beats before after,
   drop (length (oscillators (rt before))) (oscillators (rt after)),
   currentBeatRef (refs after),
   nextNoteTimeRef (refs after)).


(** ** The recorder effect (src/src/App.tsx 169-288) *)

Module Recorder.

(** The messages handed to [setRecordingError]. *)
Inductive RecordingError :=
| ErrUnsupportedFormat              (* line 201: no supported recording format *)
| ErrMicrophoneDenied               (* line 243 *)
| ErrRecorder (message : string)    (* line 235 *)
| ErrSaveFailed                     (* line 331 *)
| ErrPlaybackFailed.                (* line 449 *)

Inductive RecorderState := Inactive | Recording.

(** A [MediaRecorder] object. *)
Record MediaRecorder := mkMediaRecorder {
  mr_mimeType : string;
  mr_state : RecorderState
}.

(** The recorder's share of the component, and of the browser: the
    table of media tracks ([true] while a track is live) and the
    number of [MediaRecorder] objects constructed so far. *)
Record State := mkState {
  isRecording : bool;
  analyserNode : bool;                          (* is it non-null *)
  recordedAudio : option (nat * string);        (* url, type *)
  recordingError : option RecordingError;
  audioContext : bool;
  streamRef : option (list nat);                (* the tracks of the stream *)
  mediaRecorderRef : option MediaRecorder;
  recordedChunksRef : list nat;                 (* sizes of the chunks *)
  tracks : gmap nat bool;
  nextTrack : nat;
  constructed : nat;
  nextUrl : nat
}.

(** What the browser answers during [startRecording]. *)
Record Env := mkEnv {
  getUserMedia : option nat;          (* rejected, or a stream of that many tracks *)
  isTypeSupported : string -> bool    (* [MediaRecorder.isTypeSupported] *)
}.

Definition set_isRecording (v : bool) (s : State) : State :=
  mkState v (analyserNode s) (recordedAudio s) (recordingError s) (audioContext s)
          (streamRef s) (mediaRecorderRef s) (recordedChunksRef s) (tracks s)
          (nextTrack s) (constructed s) (nextUrl s).
Definition set_analyserNode (v : bool) (s : State) : State :=
  mkState (isRecording s) v (recordedAudio s) (recordingError s) (audioContext s)
          (streamRef s) (mediaRecorderRef s) (recordedChunksRef s) (tracks s)
          (nextTrack s) (constructed s) (nextUrl s).
Definition set_recordedAudio (v : option (nat * string)) (s : State) : State :=
  mkState (isRecording s) (analyserNode s) v (recordingError s) (audioContext s)
          (streamRef s) (mediaRecorderRef s) (recordedChunksRef s) (tracks s)
          (nextTrack s) (constructed s) (nextUrl s).
Definition set_recordingError (v : option RecordingError) (s : State) : State :=
  mkState (isRecording s) (analyserNode s) (recordedAudio s) v (audioContext s)
          (streamRef s) (mediaRecorderRef s) (recordedChunksRef s) (tracks s)
          (nextTrack s) (constructed s) (nextUrl s).
Definition set_audioContext (v : bool) (s : State) : State :=
  mkState (isRecording s) (analyserNode s) (recordedAudio s) (recordingError s) v
          (streamRef s) (mediaRecorderRef s) (recordedChunksRef s) (tracks s)
          (nextTrack s) (constructed s) (nextUrl s).
Definition set_streamRef (v : option (list nat)) (s : State) : State :=
  mkState (isRecording s) (analyserNode s) (recordedAudio s) (recordingError s)
          (audioContext s) v (mediaRecorderRef s) (recordedChunksRef s) (tracks s)
          (nextTrack s) (constructed s) (nextUrl s).
Definition set_mediaRecorderRef (v : option MediaRecorder) (s : State) : State :=
  mkState (isRecording s) (analyserNode s) (recordedAudio s) (recordingError s)
          (audioContext s) (streamRef s) v (recordedChunksRef s) (tracks s)
          (nextTrack s) (constructed s) (nextUrl s).
Definition set_recordedChunksRef (v : list nat) (s : State) : State :=
  mkState (isRecording s) (analyserNode s) (recordedAudio s) (recordingError s)
          (audioContext s) (streamRef s) (mediaRecorderRef s) v (tracks s)
          (nextTrack s) (constructed s) (nextUrl s).
Definition set_tracks (v : gmap nat bool) (s : State) : State :=
  mkState (isRecording s) (analyserNode s) (recordedAudio s) (recordingError s)
          (audioContext s) (streamRef s) (mediaRecorderRef s) (recordedChunksRef s) v
          (nextTrack s) (constructed s) (nextUrl s).
Definition set_nextTrack (v : nat) (s : State) : State :=
  mkState (isRecording s) (analyserNode s) (recordedAudio s) (recordingError s)
          (audioContext s) (streamRef s) (mediaRecorderRef s) (recordedChunksRef s)
          (tracks s) v (constructed s) (nextUrl s).
Definition set_constructed (v : nat) (s : State) : State :=
  mkState (isRecording s) (analyserNode s) (recordedAudio s) (recordingError s)
          (audioContext s) (streamRef s) (mediaRecorderRef s) (recordedChunksRef s)
          (tracks s) (nextTrack s) v (nextUrl s).
Definition set_nextUrl (v : nat) (s : State) : State :=
  mkState (isRecording s) (analyserNode s) (recordedAudio s) (recordingError s)
          (audioContext s) (streamRef s) (mediaRecorderRef s) (recordedChunksRef s)
          (tracks s) (nextTrack s) (constructed s) v.

(** [track.stop()] *)
Definition stop_track (id : nat) (s : State) : State :=
  set_tracks (<[id := false]> (tracks s)) s.

(** [stream.getTracks().forEach(track => track.stop())] *)
Definition stop_tracks (ids : list nat) (s : State) : State :=
  foldr stop_track s ids.

(** A successful [getUserMedia]: [n] fresh live tracks. *)
Definition open_stream (n : nat) (s : State) : list nat * State :=
  let ids := seq (nextTrack s) n in
  (ids,
   set_nextTrack (nextTrack s + n)%nat
     (set_tracks (foldr (fun id m => <[id := true]> m) (tracks s) ids) s)).

Definition supportedMimeTypes : list string :=
  ["audio/mp4"; "audio/webm;codecs=opus"; "audio/webm"]%string.

(** [supportedMimeTypes.find(type => MediaRecorder.isTypeSupported(type))] *)
Definition supportedType (env : Env) : option string :=
  List.find (isTypeSupported env) supportedMimeTypes.

(** [mediaRecorderRef.current.onstop] (lines 219-230), for a recorder
    constructed with [mime]. *)
Definition onstop (mime : string) (s : State) : State :=
  match recordedChunksRef s with
  | [] => s
  | _ :: _ =>
      let url := nextUrl s in        (* URL.createObjectURL(audioBlob) *)
      let s := set_nextUrl (S (nextUrl s)) s in
      let s := set_recordedAudio (Some (url, mime)) s in
      let s := set_recordingError None s in
      set_recordedChunksRef [] s
  end.

(** [startRecording] (lines 170-246).  The awaited calls are taken in
    one go; [audioContext.resume()], [createMediaStreamSource] and the
    [MediaRecorder] constructor are taken to succeed. *)
Definition startRecording (env : Env) (s : State) : State :=
  match getUserMedia env with
  | None =>
      (* catch (err) *)
      let s := set_recordingError (Some ErrMicrophoneDenied) s in
      set_isRecording false s
  | Some n =>
      let '(stream, s) := open_stream n s in
      let s := set_streamRef (Some stream) s in
      let s := set_audioContext true s in
      let s := set_analyserNode true s in
      match supportedType env with
      | None =>
          let s := set_recordingError (Some ErrUnsupportedFormat) s in
          let s := set_isRecording false s in
          let s := stop_tracks stream s in
          set_analyserNode false s
      | Some type =>
          let s := set_mediaRecorderRef (Some (mkMediaRecorder type Inactive)) s in
          let s := set_constructed (S (constructed s)) s in
          let s := set_recordedChunksRef [] s in
          (* mediaRecorderRef.current.start() *)
          set_mediaRecorderRef (Some (mkMediaRecorder type Recording)) s
      end
  end.

(** [stopRecording] (lines 248-257); the [stop] event is delivered at once. *)
Definition stopRecording (s : State) : State :=
  let s :=
    match mediaRecorderRef s with
    | Some (mkMediaRecorder mime Recording) =>
        onstop mime (set_mediaRecorderRef (Some (mkMediaRecorder mime Inactive)) s)
    | _ => s
    end in
  let s :=
    match streamRef s with
    | Some stream => set_streamRef None (stop_tracks stream s)
    | None => s
    end in
  set_analyserNode false s.

(** The effect with dependencies [[isRecording]] runs again: first the
    cleanup the previous run returned, then the body. *)
Definition effect_rerun (env : Env) (s : State) : State :=
  let s := stopRecording s in
  if isRecording s then startRecording env s else stopRecording s.

(** [handleRecordToggle] (lines 281-288) and the renders it causes: one
    for the toggle and, when [startRecording] switched [isRecording]
    back off, one more. *)
Definition handleRecordToggle (env : Env) (s : State) : State :=
  let s := set_recordingError None s in
  let s := if negb (isRecording s) && bool_decide (is_Some (recordedAudio s))
           then set_recordedAudio None s else s in
  let requested := negb (isRecording s) in
  let s := set_isRecording requested s in
  let s := effect_rerun env s in
  if requested && negb (isRecording s) then effect_rerun env s else s.


(** The recorder before any recording, and a browser whose
    [MediaRecorder] supports none of the formats and whose microphone
    delivers a stream of two tracks. *)
Definition fresh : State :=
  mkState false false None None false None None [] ∅ 0 0 0.


End Recorder.

(** ** Specification vocabulary *)

(** What one pass of the loop body leaves in each cell. *)
Record beat_effect (cl : Closure) (s s' : App) : Prop := {
  be_hooks : hooks s' = hooks s;
  be_cursor : currentBeatRef (refs s') = next_cursor (currentBeatRef (refs s));
  be_time : nextNoteTimeRef (refs s') = (nextNoteTimeRef (refs s) + 60 / cl_tempo cl)%Q;
  be_audio : audioContextRef (refs s') = audioContextRef (refs s);
  be_interval : schedulerIntervalRef (refs s') = schedulerIntervalRef (refs s);
  be_countin : isCountingInRef (refs s') = isCountingInRef (refs s);
  be_previous : previousRef (refs s') = previousRef (refs s);
  be_deps : effectDeps (rt s') = effectDeps (rt s);
  be_cleanup : effectCleanup (rt s') = effectCleanup (rt s);
  be_addr : nextAddr (rt s') = nextAddr (rt s);
  be_highlights : highlights s' = highlights s;
  be_beats : beats s' =
    beats s ++ [mkBeat (currentBeatRef (refs s)) (nextNoteTimeRef (refs s))
                  (if currentBeatRef (refs s) <? 0 then true
                   else pattern_at (cl_pattern cl) (currentBeatRef (refs s)))
                  (if currentBeatRef (refs s) <? 0 then currentBeatRef (refs s) + 4
                   else currentBeatRef (refs s))]
}.

(** Cells the scheduler never writes. *)
Record sched_frame (s s' : App) : Prop := {
  sf_hooks : hooks s' = hooks s;
  sf_audio : audioContextRef (refs s') = audioContextRef (refs s);
  sf_interval : schedulerIntervalRef (refs s') = schedulerIntervalRef (refs s);
  sf_countin : isCountingInRef (refs s') = isCountingInRef (refs s);
  sf_previous : previousRef (refs s') = previousRef (refs s);
  sf_deps : effectDeps (rt s') = effectDeps (rt s);
  sf_cleanup : effectCleanup (rt s') = effectCleanup (rt s);
  sf_addr : nextAddr (rt s') = nextAddr (rt s);
  sf_highlights : highlights s' = highlights s
}.

(** A logged beat agrees with the loop body: a count-in beat always
    clicks and is shown at [beat + 4]; a pattern beat clicks when its
    step is on and is shown at [beat]. *)
Definition beat_ok (cl : Closure) (b : Beat) : Prop :=
  b_click b = (if b_cursor b <? 0 then true else pattern_at (cl_pattern cl) (b_cursor b))
  /\ b_visual b = (if b_cursor b <? 0 then b_cursor b + 4 else b_cursor b).

(** [l] is a run of beats of closure [cl] that starts at time [t] with
    cursor [c] and leaves the next beat due at [t'] with cursor [c']. *)
Inductive trace_from (cl : Closure) : Q -> Z -> list Beat -> Q -> Z -> Prop :=
| trace_nil t t' c : (t == t')%Q -> trace_from cl t c [] t' c
| trace_cons t c b l t' c' :
    (b_time b == t)%Q -> b_cursor b = c -> beat_ok cl b ->
    trace_from cl (t + 60 / cl_tempo cl)%Q (next_cursor c) l t' c' ->
    trace_from cl t c (b :: l) t' c'.

(** Every pending highlight timer is tracked in [visualTimeoutIdsRef]
    under its own handle. *)
Definition visual_tracked (s : App) : Prop :=
  forall id d vb tid,
    timers (rt s) !! id = Some (OneShot d (CbVisual vb tid)) ->
    tid = id /\ id ∈ visualTimeoutIdsRef (refs s).

(** Every active interval is the one [schedulerIntervalRef] holds. *)
Definition interval_owned (s : App) : Prop :=
  forall id p cl,
    timers (rt s) !! id = Some (Repeating p cl) ->
    schedulerIntervalRef (refs s) = Some id.

Definition no_interval (s : App) : Prop :=
  forall id p cl, timers (rt s) !! id <> Some (Repeating p cl).

Definition no_visual (s : App) : Prop :=
  forall id d vb tid, timers (rt s) !! id <> Some (OneShot d (CbVisual vb tid)).

(** Every active interval runs the scheduler of the current render. *)
Definition interval_current (s : App) : Prop :=
  forall id p cl,
    timers (rt s) !! id = Some (Repeating p cl) ->
    isPlaying (hooks s) = true /\ cl = closure_of (hooks s).

(** The state between a handler's [setState] calls and the render. *)
Record PreRender (s : App) : Prop := {
  pre_cursor : -4 <= currentBeatRef (refs s) <= 15;
  pre_addr : (pat_addr (clickPattern (hooks s)) < nextAddr (rt s))%nat;
  pre_heap : (first_free_addr <= nextAddr (rt s))%nat;
  pre_owned : interval_owned s;
  pre_visual : visual_tracked s
}.

(** The state once the scheduler effect agrees with the hooks. *)
Record Settled (s : App) : Prop := {
  st_pre : PreRender s;
  st_cleanup : effectCleanup (rt s) = isPlaying (hooks s);
  st_audio : isPlaying (hooks s) = true -> audioContextRef (refs s) = true;
  st_current : interval_current s;
  st_stopped : isPlaying (hooks s) = false ->
               currentBeat (hooks s) = -1 /\ visualTimeoutIdsRef (refs s) = ∅
}.

(** The invariant of the mounted component. *)
Record Inv (s : App) : Prop := {
  inv_settled : Settled s;
  inv_deps : effectDeps (rt s) = Some (deps_of (hooks s));
  inv_previous : previousRef (refs s) = Some (isPlaying (hooks s));
  inv_mirror : isCountingInRef (refs s) = isCountingIn (hooks s)
}.

(** The scheduler has just been restarted at clock time [now]: the
    cursor is back at the first pattern step, the next beat is due a
    tenth of a second later, the count-in is over and no highlight
    timer is pending. *)
Definition resynced (now : Q) (s : App) : Prop :=
  currentBeatRef (refs s) = 0
  /\ (nextNoteTimeRef (refs s) == now + (1 # 10))%Q
  /\ isCountingIn (hooks s) = false
  /\ isCountingInRef (refs s) = false
  /\ visualTimeoutIdsRef (refs s) = ∅
  /\ no_visual s.


(** ** Sample runs *)

(** The default transport started at clock 0 and polled until the whole
    count-in and the first pattern beat have been scheduled. *)
Definition after_count_in : App :=
  run [(0, PlayStop); (1 # 2, TimerFires 1%nat); (11 # 5, TimerFires 1%nat)]%Q mounted.

(** The same start, polled until two count-in beats are scheduled. *)
Definition mid_count_in : App :=
  run [(0, PlayStop); (1 # 2, TimerFires 1%nat); (11 # 20, TimerFires 1%nat)]%Q mounted.

(** The tresillo preset at 90 BPM, started at clock 1 and polled at 4. *)
Definition tresillo_running : App :=
  run [(0, PresetChange "tresillo"); (0, TempoChange 90); (1, PlayStop);
       (4, TimerFires 1%nat)]%Q mounted.

(** 1 May 2024, 12:34:56.789 UTC. *)
Definition sample_date : Date := mkDate 2024 5 1 12 34 56 789.


(** ** More vocabulary: handles, pitch, pattern shapes *)

(** Handles are handed out in increasing order: every active timer and
    every tracked highlight handle is below [nextHandle]. *)
Definition handles_fresh (s : App) : Prop :=
  (forall id t, timers (rt s) !! id = Some t -> (id < nextHandle (rt s))%nat)
  /\ (forall id, id ∈ visualTimeoutIdsRef (refs s) -> (id < nextHandle (rt s))%nat).

(** The interval [schedulerIntervalRef] holds is active, runs the
    scheduler of the current render and is not mistaken for a highlight. *)
Definition poll_installed (s : App) : Prop :=
  exists h,
    schedulerIntervalRef (refs s) = Some h
    /\ timers (rt s) !! h
       = Some (Repeating schedulerLookahead (closure_of (hooks s)))
    /\ h ∉ visualTimeoutIdsRef (refs s).

(** What is in the timer table is well formed: delays are not negative,
    the interval period is [schedulerLookahead], and a highlight timer
    carries the index of one of the sixteen dots. *)
Definition timers_wellformed (s : App) : Prop :=
  forall id t, timers (rt s) !! id = Some t ->
    match t with
    | OneShot d CbEndCountIn => (0 <= d)%Q
    | OneShot d (CbVisual vb _) => (0 <= d)%Q /\ 0 <= vb <= 15
    | Repeating p _ => p = schedulerLookahead
    end.

(** [beat % 4 === 0 ? 880 : 660] *)
Definition pitch (beat : Z) : Z := if Z.rem beat 4 =? 0 then 880 else 660.

(** The beats that called [playClick]. *)
Definition clicking (l : list Beat) : list Beat := filter (fun b => b_click b = true) l.

(** The timer table once the effect's cleanup (if there is one) and the
    effect's own [clearInterval] have run. *)
Definition drop_interval (s : App) (tm : gmap nat Timer) : gmap nat Timer :=
  match schedulerIntervalRef (refs s) with
  | Some h => delete h tm
  | None => tm
  end.

Definition cleared_timers (s : App) : gmap nat Timer :=
  drop_interval s
    (if effectCleanup (rt s)
     then foldr delete (drop_interval s (timers (rt s)))
            (elements (visualTimeoutIdsRef (refs s)))
     else timers (rt s)).

(** Toggles come from the buttons the pattern itself renders
    ([clickPattern.map]), so their index is within the pattern. *)
Definition from_ui (s : App) (e : Event) : Prop :=
  match e with
  | PatternToggle i => (i < length (pat_items (clickPattern (hooks s))))%nat
  | _ => True
  end.

(** Runs whose every event the rendered page can produce. *)
Fixpoint ui_run (evs : list (Q * Event)) (s : App) : Prop :=
  match evs with
  | [] => True
  | (now, e) :: evs' => from_ui s e /\ ui_run evs' (step now e s)
  end.

(** What the scheduler keeps tidy besides [Inv]. *)
Record Tidy (s : App) : Prop := {
  tidy_fresh : handles_fresh s;
  tidy_timers : timers_wellformed s;
  tidy_poll : isPlaying (hooks s) = true -> poll_installed s;
  tidy_beat : -1 <= currentBeat (hooks s) <= 15
}.

(** [s0] is [s] after a handler's [setState] calls: only hooks that
    feed the dependency array (and the heap pointer) may differ. *)
Record staged (s s0 : App) : Prop := {
  sg_refs : refs s0 = refs s;
  sg_timers : timers (rt s0) = timers (rt s);
  sg_handle : nextHandle (rt s0) = nextHandle (rt s);
  sg_osc : oscillators (rt s0) = oscillators (rt s);
  sg_cleanup : effectCleanup (rt s0) = effectCleanup (rt s);
  sg_beats : beats s0 = beats s;
  sg_highlights : highlights s0 = highlights s;
  sg_beat : currentBeat (hooks s0) = currentBeat (hooks s);
  sg_countin : isCountingIn (hooks s0) = isCountingIn (hooks s)
}.

Definition is_play_stop (e : Event) : bool :=
  match e with
  | PlayStop => true
  | _ => false
  end.

(** What has sounded agrees with what the scheduler logged: one
    oscillator per beat that called [playClick], in the same order, at
    the beat's audio time and with the pitch of its visual index. *)
Definition sound_matches_log (s : App) : Prop :=
  click_time <$> oscillators (rt s) = b_time <$> clicking (beats s)
  /\ click_freq <$> oscillators (rt s)
     = (fun b => pitch (b_visual b)) <$> clicking (beats s).

(** The preset menu and the heap: arrays below [first_free_addr] are
    the presets, and the label is [custom] or names the array shown. *)
Definition label_inv (s : App) : Prop :=
  (first_free_addr <= nextAddr (rt s))%nat
  /\ ((pat_addr (clickPattern (hooks s)) < first_free_addr)%nat ->
      exists key, PRESET_PATTERNS key = Some (clickPattern (hooks s)))
  /\ (currentPreset (hooks s) = "custom"%string
      \/ PRESET_PATTERNS (currentPreset (hooks s)) = Some (clickPattern (hooks s))).

(** ** The recorder over a sequence of events *)

(** [mediaRecorderRef.current.ondataavailable] (src/src/App.tsx
    213-217), for a chunk of [size] bytes. *)
Definition ondataavailable (size : nat) (s : Recorder.State) : Recorder.State :=
  if (0 <? size)%nat
  then Recorder.set_recordedChunksRef (Recorder.recordedChunksRef s ++ [size]) s
  else s.

(** What happens to the recorder: the record button is pressed (the
    browser answering [startRecording] as [env] says), or the recorder
    hands over a chunk.  A recorder hands over data only while it
    records; the chunk the browser delivers when the recorder is stopped
    is taken as delivered just before the press that stops it. *)
Inductive RecorderEvent :=
| RecordToggle (env : Recorder.Env)
| DataAvailable (size : nat).

Definition recorder_step (e : RecorderEvent) (s : Recorder.State) : Recorder.State :=
  match e with
  | RecordToggle env => Recorder.handleRecordToggle env s
  | DataAvailable size =>
      match Recorder.mediaRecorderRef s with
      | Some (Recorder.mkMediaRecorder _ Recorder.Recording) => ondataavailable size s
      | _ => s
      end
  end.

Definition recorder_run (evs : list RecorderEvent) (s : Recorder.State) : Recorder.State :=
  foldl (fun s e => recorder_step e s) s evs.

(** The tracks that are live. *)
Definition live (s : Recorder.State) (id : nat) : Prop :=
  Recorder.tracks s !! id = Some true.

(** The recorder while [isRecording] is true ... *)
Definition recorder_on (s : Recorder.State) : Prop :=
  exists stream mime,
    Recorder.streamRef s = Some stream
    /\ Recorder.mediaRecorderRef s = Some (Recorder.mkMediaRecorder mime Recorder.Recording)
    /\ mime ∈ Recorder.supportedMimeTypes
    /\ Recorder.analyserNode s = true
    /\ Recorder.recordedAudio s = None
    /\ Recorder.recordingError s = None
    /\ forall id, live s id <-> id ∈ stream.

(** ... and while it is false. *)
Definition recorder_off (s : Recorder.State) : Prop :=
  Recorder.streamRef s = None
  /\ (forall mime, Recorder.mediaRecorderRef s
                   <> Some (Recorder.mkMediaRecorder mime Recorder.Recording))
  /\ Recorder.analyserNode s = false
  /\ Recorder.recordedChunksRef s = []
  /\ forall id, ~ live s id.

Record recorder_inv (s : Recorder.State) : Prop := {
  ri_tracks : forall id b, Recorder.tracks s !! id = Some b -> (id < Recorder.nextTrack s)%nat;
  ri_clip : forall url ty, Recorder.recordedAudio s = Some (url, ty) ->
              (url < Recorder.nextUrl s)%nat /\ ty ∈ Recorder.supportedMimeTypes;
  ri_mode : if Recorder.isRecording s then recorder_on s else recorder_off s
}.

(** The first entry of [l] that [f] accepts, spelled out. *)
Definition first_supported (f : string -> bool) (l : list string) (ty : string) : Prop :=
  exists before after,
    l = before ++ ty :: after /\ f ty = true /\ Forall (fun t => f t = false) before.

(** A browser with a microphone of one track that records WebM only,
    and one whose microphone is refused. *)
Definition webm_only : Recorder.Env :=
  Recorder.mkEnv (Some 1%nat) (fun ty => String.eqb ty "audio/webm").

Definition no_microphone : Recorder.Env :=
  Recorder.mkEnv None (fun _ => true).

(** ** Saving a recording, [handleSaveRecording] (src/src/App.tsx 298-334) *)

Local Open Scope string_scope.

(** [mimeType], line 302. *)
Definition mimeType (type : string) : string :=
  if includes "mp4" type then "audio/mp4" else "audio/webm".

(** What the browser answers while the file is handed over. *)
Record SaveEnv := mkSaveEnv {
  fetchFails : option string;    (* [fetch] or [blob] rejects with an error of that name *)
  shareDefined : bool;           (* [navigator.share] is there *)
  canShare : option bool;        (* [navigator.canShare(...)]; [None]: not a function *)
  shareFails : option string     (* [navigator.share(...)] rejects with an error of that name *)
}.

(** Where the file went. *)
Inductive Delivery :=
| Shared (name mime : string)    (* [navigator.share({ files: [file], ... })] *)
| Downloaded (name : string).    (* [link.download = filename; link.click()] *)

(** The [try] block, lines 306-325: the name of the error thrown, or
    the delivery. *)
Definition save_attempt (env : SaveEnv) (name mime : string) : string + Delivery :=
  match fetchFails env with
  | Some e => inl e
  | None =>
      if shareDefined env then
        match canShare env with
        | None => inl "TypeError"
        | Some true =>
            match shareFails env with
            | Some e => inl e
            | None => inr (Shared name mime)
            end
        | Some false => inr (Downloaded name)
        end
      else inr (Downloaded name)
  end.

Definition handleSaveRecording (env : SaveEnv) (d : Date) (s : Recorder.State)
  : Recorder.State * option Delivery :=
  match Recorder.recordedAudio s with
  | None => (s, None)
  | Some (url, type) =>
      match save_attempt env (filename d type) (mimeType type) with
      | inr (Shared name mime) => (s, Some (Shared name mime))
      | inr (Downloaded name) =>
          (* URL.createObjectURL(blob) ... URL.revokeObjectURL(link.href) *)
          (Recorder.set_nextUrl (S (Recorder.nextUrl s)) s, Some (Downloaded name))
      | inl e =>
          if String.eqb e "AbortError" then (s, None)
          else (Recorder.set_recordingError (Some Recorder.ErrSaveFailed) s, None)
      end
  end.

(** Characters every file system takes in a name: lower-case letters,
    digits, [-], [_] and [.]. *)
Definition portable (c : ascii) : bool :=
  let n := N_of_ascii c in
  ((48 <=? n) && (n <=? 57) || (97 <=? n) && (n <=? 122)
   || (n =? 45) || (n =? 95) || (n =? 46))%N.

Fixpoint string_forall (f : ascii -> bool) (s : string) : bool :=
  match s with
  | "" => true
  | String c s' => f c && string_forall f s'
  end.

(** How often [c] occurs in [s]. *)
Fixpoint occurrences (c : ascii) (s : string) : nat :=
  match s with
  | "" => O
  | String a s' => (if Ascii.eqb a c then 1 else 0) + occurrences c s'
  end.

(** A browser that shares files, and a user who dismisses the sheet. *)
Definition share_cancelled : SaveEnv :=
  mkSaveEnv None true (Some true) (Some "AbortError").

Local Close Scope string_scope.

(** ** The waveform, [src/components/Waveform.tsx] *)

(** What [draw] puts on the path. *)
Inductive PathCmd :=
| MoveTo (x y : Q)
| LineTo (x y : Q).

Definition cmd_x (c : PathCmd) : Q :=
  match c with MoveTo x _ | LineTo x _ => x end.
Definition cmd_y (c : PathCmd) : Q :=
  match c with MoveTo _ y | LineTo _ y => y end.
Definition is_move (c : PathCmd) : bool :=
  match c with MoveTo _ _ => true | LineTo _ _ => false end.

(** The [for] loop of [draw] (lines 52-62), from index [i] and
    abscissa [x] on. *)
Fixpoint draw_samples (i : nat) (x sliceWidth height : Q) (dataArray : list Z)
  : list PathCmd :=
  match dataArray with
  | [] => []
  | d :: rest =>
      let v := (inject_Z d / 128)%Q in
      let y := (v * height / 2)%Q in
      (if (i =? 0)%nat then MoveTo x y else LineTo x y)
        :: draw_samples (S i) (x + sliceWidth) sliceWidth height rest
  end.

(** The path one call of [draw] strokes (lines 47-65) on a canvas of
    [width] by [height] pixels, for the bytes [dataArray] the analyser
    delivered.  Coordinates are exact rationals; with the 1024 bytes
    an analyser of [fftSize] 2048 delivers, every quotient here is by a
    power of two, so the doubles the browser computes are these
    rationals. *)
Definition draw_path (width height : Z) (dataArray : list Z) : list PathCmd :=
  let bufferLength := length dataArray in
  let sliceWidth := (inject_Z width * 1 / inject_Z (Z.of_nat bufferLength))%Q in
  draw_samples 0 0 sliceWidth (inject_Z height) dataArray
  ++ [LineTo (inject_Z width) (inject_Z height / 2)].

(** The entries of a [Uint8Array]. *)
Definition bytes (dataArray : list Z) : bool :=
  forallb (fun d => (0 <=? d) && (d <=? 255)) dataArray.

(** The component's effect (lines 12-74), with the canvas and its 2D
    context in place.  Animation frames and resize listeners get fresh
    non-zero ids. *)
Record Waveform := mkWaveform {
  wf_analyser : option nat;       (* [analyserNode] of the last run of the effect *)
  animationFrameId : nat;         (* [animationFrameId.current] *)
  wf_frames : gset nat;           (* frames requested, neither run nor cancelled *)
  wf_listeners : gset nat;        (* [resize] listeners on [window] *)
  wf_cleanup : option nat;        (* the cleanup returned, and the listener it removes *)
  wf_next : nat
}.

(** [animationFrameId.current = requestAnimationFrame(draw)], line 40;
    the rest of [draw] paints. *)
Definition draw (w : Waveform) : Waveform :=
  mkWaveform (wf_analyser w) (wf_next w) ({[wf_next w]} ∪ wf_frames w)
             (wf_listeners w) (wf_cleanup w) (S (wf_next w)).

(** The cleanup, lines 70-73, for the listener [l] of its run. *)
Definition waveform_cleanup (w : Waveform) : Waveform :=
  match wf_cleanup w with
  | Some l =>
      mkWaveform (wf_analyser w) (animationFrameId w)
                 (wf_frames w ∖ {[animationFrameId w]})
                 (wf_listeners w ∖ {[l]}) None (wf_next w)
  | None => w
  end.

(** The body of the effect, lines 13-73. *)
Definition waveform_effect (a : option nat) (w : Waveform) : Waveform :=
  let l := wf_next w in
  (* window.addEventListener('resize', resizeCanvas) *)
  let w := mkWaveform a (animationFrameId w) (wf_frames w)
                      ({[l]} ∪ wf_listeners w) None (S (wf_next w)) in
  match a with
  | None =>
      (* if(animationFrameId.current) cancelAnimationFrame(animationFrameId.current) *)
      if (animationFrameId w =? 0)%nat then w
      else mkWaveform a (animationFrameId w) (wf_frames w ∖ {[animationFrameId w]})
                      (wf_listeners w) None (wf_next w)
  | Some _ =>
      let w := draw w in
      mkWaveform a (animationFrameId w) (wf_frames w) (wf_listeners w) (Some l)
                 (wf_next w)
  end.

Inductive WaveformEvent :=
| SetAnalyser (a : option nat)     (* the parent renders with this [analyserNode] *)
| Frame (id : nat).                (* the browser runs animation frame [id] *)

Definition waveform_step (e : WaveformEvent) (w : Waveform) : Waveform :=
  match e with
  | SetAnalyser a =>
      if decide (a = wf_analyser w) then w
      else waveform_effect a (waveform_cleanup w)
  | Frame id =>
      if decide (id ∈ wf_frames w)
      then draw (mkWaveform (wf_analyser w) (animationFrameId w)
                            (wf_frames w ∖ {[id]}) (wf_listeners w)
                            (wf_cleanup w) (wf_next w))
      else w
  end.

Definition waveform_run (evs : list WaveformEvent) (w : Waveform) : Waveform :=
  foldl (fun w e => waveform_step e w) w evs.

(** The component as [App] mounts it: [analyserNode] is [null]. *)
Definition waveform_mounted : Waveform :=
  waveform_effect None (mkWaveform None 0 ∅ ∅ None 1).

Record waveform_inv (w : Waveform) : Prop := {
  wi_frames : wf_frames w
              = match wf_analyser w with
                | Some _ => {[animationFrameId w]}
                | None => ∅
                end;
  wi_cleanup : match wf_analyser w with
               | Some _ => exists l, wf_cleanup w = Some l /\ l ∈ wf_listeners w
               | None => wf_cleanup w = None
               end;
  wi_frame_id : (animationFrameId w < wf_next w)%nat;
  wi_playing : is_Some (wf_analyser w) -> animationFrameId w <> 0%nat;
  wi_fresh : forall l, l ∈ wf_listeners w -> (l < wf_next w)%nat
}.

(** * Proofs *)

Arguments render : simpl never.
Arguments scheduler : simpl never.
Arguments scheduler_effect : simpl never.
Arguments effect_cleanup : simpl never.

(** ** The cursor step *)

Lemma next_cursor_range c : -4 <= c <= 15 -> -4 <= next_cursor c <= 15.
Proof. unfold next_cursor. intros H. destruct (Z.leb_spec 16 (c + 1)); lia. Qed.

Lemma next_cursor_nonneg c : 0 <= c -> 0 <= next_cursor c.
Proof. unfold next_cursor. intros H. destruct (Z.leb_spec 16 (c + 1)); lia. Qed.

Lemma schedule_beat_effect cl now s : beat_effect cl s (schedule_beat cl now s).
Proof.
  unfold schedule_beat, playClick, addTimer, next_cursor.
  destruct (currentBeatRef (refs s) <? 0) eqn:Hneg;
    destruct (currentBeatRef (refs s) =? 0) eqn:Hz;
    destruct (isCountingInRef (refs s)) eqn:Hci;
    destruct (pattern_at (cl_pattern cl) (currentBeatRef (refs s))) eqn:Hp;
    destruct (audioContextRef (refs s)) eqn:Hctx; simpl;
    rewrite ?Hctx; simpl;
    destruct (16 <=? currentBeatRef (refs s) + 1) eqn:Hw; simpl;
    split; simpl; unfold next_cursor; rewrite ?Hw, ?Hneg, ?Hp; try reflexivity; try assumption.
Qed.

Lemma sched_frame_refl s : sched_frame s s.
Proof. by split. Qed.

Lemma sched_frame_trans s1 s2 s3 :
  sched_frame s1 s2 -> sched_frame s2 s3 -> sched_frame s1 s3.
Proof. intros [] []; split; congruence. Qed.

Lemma schedule_beat_frame cl now s : sched_frame s (schedule_beat cl now s).
Proof. destruct (schedule_beat_effect cl now s); by split. Qed.

Lemma scheduler_loop_frame fuel cl now s :
  sched_frame s (scheduler_loop fuel cl now s).
Proof.
  revert s; induction fuel as [|fuel IH]; intros s; simpl.
  - apply sched_frame_refl.
  - destruct (due now s); [|apply sched_frame_refl].
    eapply sched_frame_trans; [apply schedule_beat_frame | apply IH].
Qed.

Lemma scheduler_frame cl now s : sched_frame s (scheduler cl now s).
Proof. apply scheduler_loop_frame. Qed.

(** Any property the loop body keeps, the loop keeps. *)
Lemma scheduler_loop_keeps (P : App -> Prop) cl now :
  (forall s, P s -> P (schedule_beat cl now s)) ->
  forall fuel s, P s -> P (scheduler_loop fuel cl now s).
Proof.
  intros Hbody fuel; induction fuel as [|fuel IH]; intros s Hs; simpl; [done|].
  destruct (due now s); auto.
Qed.

Lemma scheduler_not_due cl now s : due now s = false -> scheduler cl now s = s.
Proof.
  intros H. unfold scheduler. destruct (scheduler_fuel cl now s); simpl; [done|].
  by rewrite H.
Qed.

(** ** Traces of beats *)

Lemma trace_from_start cl t u c l t' c' :
  (t == u)%Q -> trace_from cl t c l t' c' -> trace_from cl u c l t' c'.
Proof.
  intros E H; revert u E; induction H; intros u E.
  - constructor. by rewrite <- E.
  - constructor; try done.
    + by rewrite <- E.
    + apply IHtrace_from. by rewrite E.
Qed.

Lemma trace_from_end cl t c l t' u c' :
  (t' == u)%Q -> trace_from cl t c l t' c' -> trace_from cl t c l u c'.
Proof.
  intros E H; induction H.
  - constructor. by rewrite <- E.
  - constructor; auto.
Qed.

Lemma trace_from_app cl t c l1 t1 c1 l2 t2 c2 :
  trace_from cl t c l1 t1 c1 -> trace_from cl t1 c1 l2 t2 c2 ->
  trace_from cl t c (l1 ++ l2) t2 c2.
Proof.
  intros H1 H2; induction H1; simpl.
  - eapply trace_from_start; [|exact H2]. by symmetry.
  - constructor; auto.
Qed.

Lemma schedule_beat_trace cl now s :
  trace_from cl (nextNoteTimeRef (refs s)) (currentBeatRef (refs s))
    (new_beats s (schedule_beat cl now s))
    (nextNoteTimeRef (refs (schedule_beat cl now s)))
    (currentBeatRef (refs (schedule_beat cl now s))).
Proof.
  destruct (schedule_beat_effect cl now s) as [_ Hc Ht _ _ _ _ _ _ _ _ Hb].
  unfold new_beats. rewrite Hb, drop_app_length, Hc, Ht.
  constructor; simpl; try done.
  by constructor.
Qed.

Lemma scheduler_loop_beats fuel cl now s :
  exists l, beats (scheduler_loop fuel cl now s) = beats s ++ l
    /\ trace_from cl (nextNoteTimeRef (refs s)) (currentBeatRef (refs s)) l
         (nextNoteTimeRef (refs (scheduler_loop fuel cl now s)))
         (currentBeatRef (refs (scheduler_loop fuel cl now s))).
Proof.
  revert s; induction fuel as [|fuel IH]; intros s; simpl.
  - exists []. rewrite app_nil_r. split; [done|]. by constructor.
  - destruct (due now s).
    + destruct (IH (schedule_beat cl now s)) as (l & Hl & Ht).
      pose proof (schedule_beat_trace cl now s) as H1.
      destruct (schedule_beat_effect cl now s) as [_ _ _ _ _ _ _ _ _ _ _ Hb].
      unfold new_beats in H1. rewrite Hb, drop_app_length in H1.
      eexists. split.
      * rewrite Hl, Hb, <- app_assoc. reflexivity.
      * eapply trace_from_app; eauto.
    + exists []. rewrite app_nil_r. split; [done|]. by constructor.
Qed.

(** ** Timers *)

(** The loop body registers the highlight timer under its own handle,
    after at most one count-in timer. *)
Lemma schedule_beat_timers cl now s :
  exists tm0 idv d,
    (tm0 = timers (rt s)
     \/ exists idc dc, tm0 = <[idc := OneShot dc CbEndCountIn]> (timers (rt s)))
    /\ timers (rt (schedule_beat cl now s))
       = <[idv := OneShot d
                  (CbVisual (if currentBeatRef (refs s) <? 0
                             then currentBeatRef (refs s) + 4
                             else currentBeatRef (refs s)) idv)]> tm0
    /\ visualTimeoutIdsRef (refs (schedule_beat cl now s))
       = {[idv]} ∪ visualTimeoutIdsRef (refs s).
Proof.
  unfold schedule_beat, playClick, addTimer.
  destruct (currentBeatRef (refs s) <? 0);
    destruct ((currentBeatRef (refs s) =? 0) && isCountingInRef (refs s));
    destruct (pattern_at (cl_pattern cl) (currentBeatRef (refs s)));
    destruct (audioContextRef (refs s)) eqn:Hctx; simpl;
    rewrite ?Hctx; simpl;
    destruct (16 <=? currentBeatRef (refs s) + 1); simpl;
    eexists _, _, _; (split; [|split; reflexivity]);
    first [left; reflexivity | right; eexists _, _; reflexivity].
Qed.

Lemma schedule_beat_repeating cl now s id p cl' :
  timers (rt (schedule_beat cl now s)) !! id = Some (Repeating p cl') ->
  timers (rt s) !! id = Some (Repeating p cl').
Proof.
  destruct (schedule_beat_timers cl now s) as (tm0 & idv & d & H0 & -> & _).
  intros H. apply lookup_insert_Some in H as [[_ ?]|[_ H]]; [discriminate|].
  destruct H0 as [->|(idc & dc & ->)]; [done|].
  apply lookup_insert_Some in H as [[_ ?]|[_ H]]; [discriminate|done].
Qed.

Lemma schedule_beat_visual cl now s :
  visual_tracked s -> visual_tracked (schedule_beat cl now s).
Proof.
  intros Hs id d vb tid.
  destruct (schedule_beat_timers cl now s) as (tm0 & idv & d0 & H0 & -> & ->).
  intros H. apply lookup_insert_Some in H as [[<- H]|[_ H]].
  { split; [congruence|set_solver]. }
  assert (timers (rt s) !! id = Some (OneShot d (CbVisual vb tid))) as H'.
  { destruct H0 as [->|(idc & dc & ->)]; [done|].
    apply lookup_insert_Some in H as [[_ ?]|[_ H]]; [discriminate|done]. }
  destruct (Hs _ _ _ _ H'). split; [done|set_solver].
Qed.

Lemma schedule_beat_no_interval cl now s :
  no_interval s -> no_interval (schedule_beat cl now s).
Proof.
  intros Hs id p cl' H. apply schedule_beat_repeating in H. by apply Hs in H.
Qed.

Lemma schedule_beat_owned cl now s :
  interval_owned s -> interval_owned (schedule_beat cl now s).
Proof.
  intros Hs id p cl' H. apply schedule_beat_repeating in H.
  destruct (schedule_beat_effect cl now s) as [_ _ _ _ -> _ _ _ _ _ _ _]. eauto.
Qed.

Lemma schedule_beat_cursor cl now s :
  -4 <= currentBeatRef (refs s) <= 15 ->
  -4 <= currentBeatRef (refs (schedule_beat cl now s)) <= 15.
Proof.
  destruct (schedule_beat_effect cl now s) as [_ -> _ _ _ _ _ _ _ _ _ _].
  apply next_cursor_range.
Qed.

Lemma scheduler_visual cl now s :
  visual_tracked s -> visual_tracked (scheduler cl now s).
Proof. apply scheduler_loop_keeps, schedule_beat_visual. Qed.

Lemma scheduler_no_interval cl now s :
  no_interval s -> no_interval (scheduler cl now s).
Proof. apply scheduler_loop_keeps, schedule_beat_no_interval. Qed.

Lemma scheduler_owned cl now s :
  interval_owned s -> interval_owned (scheduler cl now s).
Proof. apply scheduler_loop_keeps, schedule_beat_owned. Qed.

Lemma scheduler_cursor cl now s :
  -4 <= currentBeatRef (refs s) <= 15 ->
  -4 <= currentBeatRef (refs (scheduler cl now s)) <= 15.
Proof.
  apply (scheduler_loop_keeps (fun s => -4 <= currentBeatRef (refs s) <= 15)).
  apply schedule_beat_cursor.
Qed.

Lemma scheduler_repeating cl now s id p cl' :
  timers (rt (scheduler cl now s)) !! id = Some (Repeating p cl') ->
  timers (rt s) !! id = Some (Repeating p cl').
Proof.
  unfold scheduler. generalize (scheduler_fuel cl now s) as fuel.
  intros fuel; revert s; induction fuel as [|fuel IH]; intros s; simpl; [done|].
  destruct (due now s); [|done].
  intros H. apply IH in H. by apply schedule_beat_repeating in H.
Qed.

(** ** Clearing timers *)

Lemma clear_all_eq l s :
  foldr clearTimer s l
  = upd_rt (fun r => set_timers (foldr delete (timers r) l) r) s.
Proof.
  induction l as [|id l IH]; simpl.
  - by destruct s as [h r [] b hl].
  - rewrite IH. reflexivity.
Qed.

Lemma clearVisualTimeouts_lookup s id t :
  timers (rt (clearVisualTimeouts s)) !! id = Some t ->
  (id ∉ visualTimeoutIdsRef (refs s)) /\ timers (rt s) !! id = Some t.
Proof.
  unfold clearVisualTimeouts. rewrite clear_all_eq. simpl.
  rewrite lookup_foldr_delete_Some. set_solver.
Qed.

Lemma clearVisualTimeouts_no_visual s :
  visual_tracked s -> no_visual (clearVisualTimeouts s).
Proof.
  intros Hs id d vb tid H. apply clearVisualTimeouts_lookup in H as [Hn H].
  apply Hs in H as [_ ?]. done.
Qed.

Lemma clearSchedulerInterval_no_interval s :
  interval_owned s -> no_interval (clearSchedulerInterval s).
Proof.
  intros Hs id p cl H. unfold clearSchedulerInterval in H.
  destruct (schedulerIntervalRef (refs s)) as [h|] eqn:Hh; simpl in H.
  - destruct (decide (h = id)) as [->|Hne].
    + by rewrite lookup_delete_eq in H.
    + rewrite lookup_delete_ne in H by done. apply Hs in H. congruence.
  - apply Hs in H. congruence.
Qed.

Lemma clearVisualTimeouts_eq s :
  clearVisualTimeouts s
  = upd_refs (set_visualTimeoutIdsRef ∅)
      (upd_rt (fun r => set_timers
                 (foldr delete (timers r) (elements (visualTimeoutIdsRef (refs s)))) r) s).
Proof. unfold clearVisualTimeouts. by rewrite clear_all_eq. Qed.

Lemma clearSchedulerInterval_eq s :
  clearSchedulerInterval s
  = upd_rt (fun r => set_timers
              (match schedulerIntervalRef (refs s) with
               | Some h => delete h (timers r)
               | None => timers r
               end) r) s.
Proof.
  unfold clearSchedulerInterval.
  destruct (schedulerIntervalRef (refs s)); [done|].
  by destruct s as [h r [] b hl].
Qed.

Lemma effect_cleanup_eq s :
  effect_cleanup s
  = upd_refs (set_visualTimeoutIdsRef ∅)
      (upd_rt (fun r => set_timers
                 (foldr delete
                    (match schedulerIntervalRef (refs s) with
                     | Some h => delete h (timers r)
                     | None => timers r
                     end)
                    (elements (visualTimeoutIdsRef (refs s)))) r) s).
Proof.
  unfold effect_cleanup. rewrite clearVisualTimeouts_eq, clearSchedulerInterval_eq.
  reflexivity.
Qed.

(** Clearing timers only shrinks the table. *)
Lemma effect_cleanup_lookup s id t :
  timers (rt (effect_cleanup s)) !! id = Some t ->
  (id ∉ visualTimeoutIdsRef (refs s))
  /\ schedulerIntervalRef (refs s) <> Some id
  /\ timers (rt s) !! id = Some t.
Proof.
  rewrite effect_cleanup_eq. simpl. rewrite lookup_foldr_delete_Some.
  intros [Hn H]. split; [set_solver|].
  destruct (schedulerIntervalRef (refs s)) as [h|]; [|done].
  apply lookup_delete_Some in H as [? ?]. split; congruence.
Qed.

Lemma effect_cleanup_clears s :
  interval_owned s -> visual_tracked s ->
  no_interval (effect_cleanup s) /\ no_visual (effect_cleanup s).
Proof.
  intros Ho Hv; split.
  - intros id p cl H. apply effect_cleanup_lookup in H as (_ & Hn & H).
    apply Ho in H. done.
  - intros id d vb tid H. apply effect_cleanup_lookup in H as (Hn & _ & H).
    apply Hv in H as [_ ?]. done.
Qed.

Lemma no_interval_owned s : no_interval s -> interval_owned s.
Proof. intros H id p cl Hl. by apply H in Hl. Qed.

Lemma no_visual_tracked s : no_visual s -> visual_tracked s.
Proof. intros H id d vb tid Hl. by apply H in Hl. Qed.

Lemma no_interval_current s : no_interval s -> interval_current s.
Proof. intros H id p cl Hl. by apply H in Hl. Qed.

(** ** Dependencies *)

Lemma deps_same_refl d : deps_same d d = true.
Proof.
  unfold deps_same.
  rewrite Bool.eqb_reflx, Nat.eqb_refl, !Qeq_bool_refl. reflexivity.
Qed.

Lemma Qeq_bool_sym_false a b : Qeq_bool a b = false -> Qeq_bool b a = false.
Proof.
  intros H. destruct (Qeq_bool b a) eqn:E; [|done].
  apply Qeq_bool_iff in E. symmetry in E. apply Qeq_bool_iff in E. congruence.
Qed.

Lemma preset_addr key p :
  PRESET_PATTERNS key = Some p -> (pat_addr p < first_free_addr)%nat.
Proof.
  unfold PRESET_PATTERNS, first_free_addr.
  repeat (destruct (String.eqb key _); [intros [= <-]; simpl; lia|]).
  discriminate.
Qed.

(** ** Rendering *)

Lemma render_unchanged now s :
  effectDeps (rt s) = Some (deps_of (hooks s)) ->
  render now s
  = upd_refs (fun r => set_isCountingInRef (isCountingIn (hooks s))
                         (set_previousRef (Some (isPlaying (hooks s))) r)) s.
Proof.
  intros H. unfold render. simpl. rewrite H. simpl.
  rewrite deps_same_refl. reflexivity.
Qed.

Lemma render_changed now s :
  deps_changed (effectDeps (rt s)) (deps_of (hooks s)) = true ->
  render now s
  = let s1 := upd_refs (fun r => set_isCountingInRef (isCountingIn (hooks s))
                         (set_previousRef (Some (isPlaying (hooks s))) r)) s in
    let s2 := if effectCleanup (rt s) then effect_cleanup s1 else s1 in
    let s3 := scheduler_effect (previousRef (refs s)) now s2 in
    upd_refs (set_isCountingInRef (isCountingIn (hooks s3)))
      (upd_rt (fun r => set_effect (Some (deps_of (hooks s))) (effectCleanup r) r) s3).
Proof.
  intros H. unfold render. simpl. rewrite H. reflexivity.
Qed.

(** ** The scheduler effect, branch by branch *)

Lemma scheduler_effect_stop prev now s :
  isPlaying (hooks s) = false ->
  scheduler_effect prev now s
  = upd_rt (fun r => set_effect (effectDeps r) false r)
      (upd_hooks (fun h => set_isCountingIn false (set_currentBeat (-1) h))
         (effect_cleanup s)).
Proof. intros H. unfold scheduler_effect. rewrite H. reflexivity. Qed.

Lemma due_at_offset now s :
  (nextNoteTimeRef (refs s) == now + (1 # 10))%Q -> due now s = false.
Proof.
  intros H. unfold due, scheduleAheadTime.
  apply Bool.negb_false_iff, Qle_bool_iff. rewrite H. apply Qle_refl.
Qed.

(** While playing, the effect restarts the cursor, moves the next beat
    to [now + 0.1] and installs a fresh interval; its own call of
    [scheduler] finds nothing due yet. *)
Lemma scheduler_effect_play prev now s :
  isPlaying (hooks s) = true ->
  scheduler_effect prev now s
  = let s1 :=
      upd_hooks (set_isCountingIn (falsy prev))
        (upd_refs (fun r => set_nextNoteTimeRef (now + (1 # 10))%Q
                              (set_currentBeatRef (if falsy prev then -4 else 0)
                                 (set_audioContextRef true r))) s) in
    let s2 := clearSchedulerInterval s1 in
    upd_rt (fun r => set_effect (effectDeps r) true r)
      (upd_refs (set_schedulerIntervalRef (Some (nextHandle (rt s))))
         (snd (addTimer (Repeating schedulerLookahead (closure_of (hooks s))) s2))).
Proof.
  intros H. unfold scheduler_effect. rewrite H. simpl. rewrite H.
  destruct (falsy prev); simpl;
    (rewrite scheduler_not_due;
     [ rewrite !clearSchedulerInterval_eq; reflexivity
     | apply due_at_offset; rewrite clearSchedulerInterval_eq; simpl; reflexivity ]).
Qed.

Lemma scheduler_effect_settled prev now s :
  PreRender s -> Settled (scheduler_effect prev now s).
Proof.
  intros [Hc Ha Hh Ho Hv].
  destruct (isPlaying (hooks s)) eqn:Hp.
  - rewrite scheduler_effect_play by done.
    cbv zeta. rewrite clearSchedulerInterval_eq. unfold addTimer. simpl.
    split; [split|..]; simpl; try done.
    + destruct (falsy prev); lia.
    + intros id p cl H; simpl in H. apply lookup_insert_Some in H as [[-> _]|[Hne H]]; [done|].
      destruct (schedulerIntervalRef (refs s)) as [h|] eqn:Hh'.
      * apply lookup_delete_Some in H as [Hd H]. apply Ho in H. congruence.
      * apply Ho in H. congruence.
    + intros id d vb tid H; simpl in H. apply lookup_insert_Some in H as [[_ ?]|[_ H]]; [done|].
      destruct (schedulerIntervalRef (refs s)) as [h|].
      * apply lookup_delete_Some in H as [_ H]. by apply Hv in H.
      * by apply Hv in H.
    + intros id p cl H; simpl in *. rewrite Hp. split; [done|].
      apply lookup_insert_Some in H as [[_ H]|[Hne H]]; [by injection H as _ <-|].
      destruct (schedulerIntervalRef (refs s)) as [h|] eqn:Hh'.
      * apply lookup_delete_Some in H as [Hd H]. apply Ho in H. congruence.
      * apply Ho in H. congruence.
    + rewrite Hp. done.
  - rewrite scheduler_effect_stop by done.
    destruct (effect_cleanup_clears s Ho Hv) as [Hni Hnv].
    rewrite effect_cleanup_eq in *. simpl in *.
    split; [split|..]; simpl; try done.
    + by apply no_interval_owned.
    + by apply no_visual_tracked.
    + rewrite Hp. done.
    + by apply no_interval_current.
Qed.

Lemma scheduler_effect_keeps prev now s :
  deps_of (hooks (scheduler_effect prev now s)) = deps_of (hooks s)
  /\ previousRef (refs (scheduler_effect prev now s)) = previousRef (refs s)
  /\ beats (scheduler_effect prev now s) = beats s
  /\ highlights (scheduler_effect prev now s) = highlights s.
Proof.
  destruct (isPlaying (hooks s)) eqn:Hp.
  - rewrite scheduler_effect_play by done.
    cbv zeta. rewrite clearSchedulerInterval_eq. done.
  - rewrite scheduler_effect_stop by done. rewrite effect_cleanup_eq. done.
Qed.

(** ** The invariant *)

Lemma PreRender_ext s s' :
  pat_addr (clickPattern (hooks s')) = pat_addr (clickPattern (hooks s)) ->
  timers (rt s') = timers (rt s) ->
  nextAddr (rt s') = nextAddr (rt s) ->
  currentBeatRef (refs s') = currentBeatRef (refs s) ->
  schedulerIntervalRef (refs s') = schedulerIntervalRef (refs s) ->
  visualTimeoutIdsRef (refs s') = visualTimeoutIdsRef (refs s) ->
  PreRender s -> PreRender s'.
Proof.
  intros Hp Ht Ha Hc Hi Hv [H1 H2 H3 H4 H5].
  split; unfold interval_owned, visual_tracked in *;
    rewrite ?Hp, ?Ht, ?Ha, ?Hc, ?Hi, ?Hv; done.
Qed.

Lemma Settled_ext s s' :
  isPlaying (hooks s') = isPlaying (hooks s) ->
  clickPattern (hooks s') = clickPattern (hooks s) ->
  closure_of (hooks s') = closure_of (hooks s) ->
  currentBeat (hooks s') = currentBeat (hooks s) ->
  timers (rt s') = timers (rt s) ->
  effectCleanup (rt s') = effectCleanup (rt s) ->
  nextAddr (rt s') = nextAddr (rt s) ->
  currentBeatRef (refs s') = currentBeatRef (refs s) ->
  audioContextRef (refs s') = audioContextRef (refs s) ->
  schedulerIntervalRef (refs s') = schedulerIntervalRef (refs s) ->
  visualTimeoutIdsRef (refs s') = visualTimeoutIdsRef (refs s) ->
  Settled s -> Settled s'.
Proof.
  intros Hp Hk Hcl Hb Ht He Ha Hc Hx Hi Hv [H1 H2 H3 H4 H5].
  split.
  - eapply PreRender_ext; [..|exact H1]; congruence.
  - congruence.
  - rewrite Hp, Hx. done.
  - unfold interval_current in *. rewrite Hp, Hcl, Ht. done.
  - rewrite Hp, Hb, Hv. done.
Qed.

Lemma effect_cleanup_pre s : PreRender s -> PreRender (effect_cleanup s).
Proof.
  intros [H1 H2 H3 H4 H5].
  destruct (effect_cleanup_clears s H4 H5) as [Hni Hnv].
  split; [rewrite effect_cleanup_eq; done..| |].
  - by apply no_interval_owned.
  - by apply no_visual_tracked.
Qed.

Lemma render_changed_inv now s :
  PreRender s ->
  deps_changed (effectDeps (rt s)) (deps_of (hooks s)) = true ->
  Inv (render now s).
Proof.
  intros Hpre Hch. rewrite render_changed by done. cbv zeta.
  set (s1 := upd_refs _ s).
  set (s2 := if effectCleanup (rt s) then effect_cleanup s1 else s1).
  assert (PreRender s1) as Hpre1 by (eapply PreRender_ext; [..|exact Hpre]; done).
  assert (PreRender s2) as Hpre2.
  { unfold s2. destruct (effectCleanup (rt s)); [by apply effect_cleanup_pre|done]. }
  assert (hooks s2 = hooks s /\ previousRef (refs s2) = Some (isPlaying (hooks s)))
    as [Hh2 Hp2].
  { unfold s2. destruct (effectCleanup (rt s)); [rewrite effect_cleanup_eq|]; done. }
  pose proof (scheduler_effect_settled (previousRef (refs s)) now s2 Hpre2) as Hst.
  destruct (scheduler_effect_keeps (previousRef (refs s)) now s2) as (Hd & Hp & _ & _).
  set (s3 := scheduler_effect _ now s2) in *.
  rewrite Hh2 in Hd.
  split; simpl.
  - eapply Settled_ext; [..|exact Hst]; done.
  - by rewrite Hd.
  - rewrite Hp, Hp2. f_equal. by injection Hd as <- _ _ _.
  - done.
Qed.

Lemma render_unchanged_inv now s :
  Settled s ->
  effectDeps (rt s) = Some (deps_of (hooks s)) ->
  Inv (render now s).
Proof.
  intros Hst Hd. rewrite render_unchanged by done.
  split; simpl; try done.
  eapply Settled_ext; [..|exact Hst]; done.
Qed.

Lemma Inv_pre s : Inv s -> PreRender s.
Proof. by intros [[]]. Qed.

Lemma mounted_inv : Inv mounted.
Proof.
  apply render_changed_inv; [|done].
  split; simpl; try done; unfold first_free_addr; lia.
Qed.

(** ** Every step keeps the invariant *)

Lemma handlePlayStop_inv now s : Inv s -> Inv (handlePlayStop now s).
Proof.
  intros Hs. unfold handlePlayStop. apply render_changed_inv.
  - eapply PreRender_ext; [..|exact (Inv_pre s Hs)]; done.
  - simpl. rewrite (inv_deps s Hs). simpl. unfold deps_same. simpl.
    by destruct (isPlaying (hooks s)).
Qed.

Lemma handleTempoChange_inv v now s : Inv s -> Inv (handleTempoChange v now s).
Proof.
  intros Hs. unfold handleTempoChange.
  destruct (Qeq_bool v (tempo (hooks s))) eqn:E; [done|].
  apply render_changed_inv.
  - eapply PreRender_ext; [..|exact (Inv_pre s Hs)]; done.
  - simpl. rewrite (inv_deps s Hs). simpl. unfold deps_same. simpl.
    rewrite (Qeq_bool_sym_false _ _ E), Bool.eqb_reflx. done.
Qed.

Lemma handleVolumeChange_inv v now s : Inv s -> Inv (handleVolumeChange v now s).
Proof.
  intros Hs. unfold handleVolumeChange.
  destruct (Qeq_bool v (volume (hooks s))) eqn:E; [done|].
  apply render_changed_inv.
  - eapply PreRender_ext; [..|exact (Inv_pre s Hs)]; done.
  - simpl. rewrite (inv_deps s Hs). simpl. unfold deps_same. simpl.
    rewrite (Qeq_bool_sym_false _ _ E), Bool.eqb_reflx, Qeq_bool_refl, Nat.eqb_refl.
    done.
Qed.

Lemma handlePatternToggle_inv i now s : Inv s -> Inv (handlePatternToggle i now s).
Proof.
  intros Hs. unfold handlePatternToggle. cbv zeta.
  destruct (Inv_pre s Hs) as [H1 H2 H3 H4 H5].
  apply render_changed_inv.
  - split; simpl; try done; lia.
  - simpl. rewrite (inv_deps s Hs). simpl. unfold deps_same. simpl.
    rewrite Bool.eqb_reflx, Qeq_bool_refl. simpl.
    replace (pat_addr (clickPattern (hooks s)) =? nextAddr (rt s))%nat with false; [done|].
    symmetry. apply Nat.eqb_neq. lia.
Qed.

Lemma handlePresetChange_inv k now s : Inv s -> Inv (handlePresetChange k now s).
Proof.
  intros Hs. unfold handlePresetChange.
  destruct (PRESET_PATTERNS k) as [p|] eqn:Hk; [|done].
  apply preset_addr in Hk.
  destruct (Inv_pre s Hs) as [H1 H2 H3 H4 H5].
  destruct (pat_addr p =? pat_addr (clickPattern (hooks s)))%nat eqn:E.
  - apply render_unchanged_inv.
    + eapply Settled_ext; [..|exact (inv_settled s Hs)]; done.
    + simpl. by rewrite (inv_deps s Hs).
  - apply render_changed_inv.
    + split; simpl; try done; lia.
    + simpl. rewrite (inv_deps s Hs). simpl. unfold deps_same. simpl.
      rewrite Bool.eqb_reflx, Qeq_bool_refl. simpl.
      rewrite Nat.eqb_sym, E. done.
Qed.

Lemma schedule_beat_settled cl now s :
  Settled s /\ isPlaying (hooks s) = true ->
  Settled (schedule_beat cl now s) /\ isPlaying (hooks (schedule_beat cl now s)) = true.
Proof.
  intros [[[H1 H2 H3 H4 H5] H6 H7 H8 H9] Hp].
  destruct (schedule_beat_effect cl now s) as [Hh Hc Ht Ha Hi _ _ _ He Hn _ _].
  split; [|by rewrite Hh].
  split; [split|..]; rewrite ?Hh, ?Ha, ?He, ?Hn; try done.
  - by apply schedule_beat_cursor.
  - by apply schedule_beat_owned.
  - by apply schedule_beat_visual.
  - intros id p cl' H. apply schedule_beat_repeating in H. rewrite Hh. eauto.
  - congruence.
Qed.

Lemma scheduler_inv cl now s :
  Inv s -> isPlaying (hooks s) = true -> Inv (scheduler cl now s).
Proof.
  intros [Hst Hd Hp Hm] Hplay.
  destruct (scheduler_frame cl now s) as [Hh _ _ Hci Hpr Hde _ _ _].
  split; rewrite ?Hh, ?Hci, ?Hpr, ?Hde; try done.
  apply (scheduler_loop_keeps
           (fun s => Settled s /\ isPlaying (hooks s) = true) cl now
           (schedule_beat_settled cl now)); done.
Qed.

Lemma fire_inv id now s : Inv s -> Inv (fire id now s).
Proof.
  intros Hs. unfold fire.
  destruct (timers (rt s) !! id) as [[d cb|p cl]|] eqn:Hid; [| |done].
  - destruct (inv_settled s Hs) as [[H1 H2 H3 H4 H5] H6 H7 H8 H9].
    assert (PreRender (clearTimer id s)) as Hpre.
    { split; simpl; try done.
      - intros id' p cl H; simpl in H.
        apply lookup_delete_Some in H as [_ H]. eauto.
      - intros id' d' vb tid H; simpl in H.
        apply lookup_delete_Some in H as [_ H]. eauto. }
    assert (interval_current (clearTimer id s)) as Hcur.
    { intros id' p cl H; simpl in H.
      apply lookup_delete_Some in H as [_ H]. eauto. }
    destruct cb as [|vb tid]; simpl.
    + apply render_unchanged_inv; [|simpl; by rewrite (inv_deps s Hs)].
      split; simpl; try done.
      split; simpl; try done; apply Hpre.
    + destruct (H5 _ _ _ _ Hid) as [-> Hin].
      apply render_unchanged_inv; [|simpl; by rewrite (inv_deps s Hs)].
      split; simpl; try done.
      * split; simpl; try done; try apply Hpre.
        intros id' d' vb' tid' H; simpl in H.
        apply lookup_delete_Some in H as [Hne H].
        destruct (H5 _ _ _ _ H) as [-> ?]. split; [done|set_solver].
      * intros Hp. destruct (H9 Hp) as [_ He]. set_solver.
  - destruct (inv_settled s Hs) as [_ _ _ H8 _].
    destruct (H8 _ _ _ Hid) as [Hp _].
    by apply scheduler_inv.
Qed.

Lemma step_inv now e s : Inv s -> Inv (step now e s).
Proof.
  destruct e; simpl.
  - apply handlePlayStop_inv.
  - apply handleTempoChange_inv.
  - apply handleVolumeChange_inv.
  - apply handlePatternToggle_inv.
  - apply handlePresetChange_inv.
  - apply fire_inv.
Qed.

Lemma reachable_inv s : reachable s -> Inv s.
Proof.
  induction 1 as [|now e s _ IH]; [apply mounted_inv | by apply step_inv].
Qed.

Lemma run_inv evs s : Inv s -> Inv (run evs s).
Proof.
  revert s; induction evs as [|[now e] evs IH]; intros s Hs; simpl; [done|].
  by apply IH, step_inv.
Qed.

Lemma reachable_run evs s : reachable s -> reachable (run evs s).
Proof.
  revert s; induction evs as [|[now e] evs IH]; intros s Hs; simpl; [done|].
  by apply IH, reach_step.
Qed.

(** ** What a render leaves behind *)

Lemma render_keeps now s :
  isPlaying (hooks (render now s)) = isPlaying (hooks s)
  /\ tempo (hooks (render now s)) = tempo (hooks s)
  /\ volume (hooks (render now s)) = volume (hooks s)
  /\ clickPattern (hooks (render now s)) = clickPattern (hooks s)
  /\ beats (render now s) = beats s
  /\ highlights (render now s) = highlights s.
Proof.
  destruct (deps_changed (effectDeps (rt s)) (deps_of (hooks s))) eqn:E.
  - rewrite render_changed by done. cbv zeta.
    destruct (isPlaying (hooks s)) eqn:Hp.
    + rewrite scheduler_effect_play
        by (destruct (effectCleanup (rt s)); [rewrite effect_cleanup_eq|]; done).
      cbv zeta. rewrite clearSchedulerInterval_eq.
      destruct (effectCleanup (rt s)); [rewrite effect_cleanup_eq|]; done.
    + rewrite scheduler_effect_stop
        by (destruct (effectCleanup (rt s)); [rewrite effect_cleanup_eq|]; done).
      rewrite effect_cleanup_eq.
      destruct (effectCleanup (rt s)); [rewrite effect_cleanup_eq|]; done.
  - unfold render. simpl. rewrite E. done.
Qed.

(** A render whose dependencies changed while [isPlaying] holds. *)
Lemma render_play now s :
  deps_changed (effectDeps (rt s)) (deps_of (hooks s)) = true ->
  isPlaying (hooks s) = true ->
  let s' := render now s in
  let started := falsy (previousRef (refs s)) in
  currentBeatRef (refs s') = (if started then -4 else 0)
  /\ nextNoteTimeRef (refs s') = (now + (1 # 10))%Q
  /\ isCountingIn (hooks s') = started
  /\ isCountingInRef (refs s') = started
  /\ schedulerIntervalRef (refs s') = Some (nextHandle (rt s))
  /\ timers (rt s') !! nextHandle (rt s)
     = Some (Repeating schedulerLookahead (closure_of (hooks s)))
  /\ (effectCleanup (rt s) = true -> visualTimeoutIdsRef (refs s') = ∅).
Proof.
  intros E Hp. cbv zeta. rewrite render_changed by done. cbv zeta.
  rewrite scheduler_effect_play
    by (destruct (effectCleanup (rt s)); [rewrite effect_cleanup_eq|]; done).
  cbv zeta. rewrite clearSchedulerInterval_eq.
  destruct (effectCleanup (rt s)); [rewrite effect_cleanup_eq|]; simpl;
    rewrite lookup_insert_eq; done.
Qed.

Lemma render_nonneg now s :
  previousRef (refs s) = Some (isPlaying (hooks s)) ->
  0 <= currentBeatRef (refs s) -> 0 <= currentBeatRef (refs (render now s)).
Proof.
  intros Hprev Hc.
  destruct (deps_changed (effectDeps (rt s)) (deps_of (hooks s))) eqn:E.
  - destruct (isPlaying (hooks s)) eqn:Hp.
    + destruct (render_play now s E Hp) as (-> & _). by rewrite Hprev.
    + rewrite render_changed by done. cbv zeta.
      rewrite scheduler_effect_stop
        by (destruct (effectCleanup (rt s)); [rewrite effect_cleanup_eq|]; done).
      rewrite effect_cleanup_eq.
      destruct (effectCleanup (rt s)); [rewrite effect_cleanup_eq|]; done.
  - unfold render. simpl. rewrite E. done.
Qed.

(** ** The cursor *)

Lemma scheduler_nonneg cl now s :
  0 <= currentBeatRef (refs s) -> 0 <= currentBeatRef (refs (scheduler cl now s)).
Proof.
  apply (scheduler_loop_keeps (fun s => 0 <= currentBeatRef (refs s))).
  intros s0 H0. destruct (schedule_beat_effect cl now s0) as [_ -> _ _ _ _ _ _ _ _ _ _].
  by apply next_cursor_nonneg.
Qed.

Lemma step_nonneg now e s :
  Inv s -> in_session e ->
  0 <= currentBeatRef (refs s) -> 0 <= currentBeatRef (refs (step now e s)).
Proof.
  intros Hs He Hc. pose proof (inv_previous s Hs) as Hprev.
  destruct e as [|v|v|i|k|id]; cbn [step].
  - by destruct He.
  - unfold handleTempoChange. destruct (Qeq_bool _ _); [done|].
    by apply render_nonneg.
  - unfold handleVolumeChange. destruct (Qeq_bool _ _); [done|].
    by apply render_nonneg.
  - unfold handlePatternToggle. cbv zeta. by apply render_nonneg.
  - unfold handlePresetChange. destruct (PRESET_PATTERNS k); [|done].
    apply render_nonneg; by destruct (_ =? _)%nat.
  - unfold fire.
    destruct (timers (rt s) !! id) as [[d [|vb tid]|p cl]|]; cbn [run_callback]; try done.
    + by apply render_nonneg.
    + by apply render_nonneg.
    + by apply scheduler_nonneg.
Qed.

Lemma run_nonneg evs s :
  Inv s -> Forall (fun ev => in_session ev.2) evs ->
  0 <= currentBeatRef (refs s) -> 0 <= currentBeatRef (refs (run evs s)).
Proof.
  revert s; induction evs as [|[now e] evs IH]; intros s Hs He Hc; simpl; [done|].
  inversion He as [|? ? He1 He2]; subst.
  apply IH; [by apply step_inv|done|by apply step_nonneg].
Qed.

(** C4.  In every state the mounted component can reach, the scheduling
    cursor [currentBeatRef] lies between -4 and 15.  One pass of the
    scheduler loop moves it from [c] to [c + 1], except that a result
    of 16 wraps to 0.  Within a session, that is along any events other
    than a press of the play/stop button, a cursor that has reached a
    non-negative value never becomes negative again. *)
Theorem cursor_stays_in_range (s : App) (evs : list (Q * Event)) :
  reachable s ->
  Forall (fun ev => in_session ev.2) evs ->
  -4 <= currentBeatRef (refs s) <= 15
  /\ (forall cl now,
        currentBeatRef (refs (schedule_beat cl now s))
        = if 16 <=? currentBeatRef (refs s) + 1 then 0 else currentBeatRef (refs s) + 1)
  /\ (0 <= currentBeatRef (refs s) -> 0 <= currentBeatRef (refs (run evs s))).
Proof.
  intros Hr He. pose proof (reachable_inv s Hr) as Hs.
  split; [apply Hs|]. split.
  - intros cl now. by destruct (schedule_beat_effect cl now s).
  - by apply run_nonneg.
Qed.

Lemma cursor_stays_in_range_witness :
  let s := after_count_in in
  let evs := [(12 # 5, TempoChange 90); (5 # 2, TimerFires 9%nat);
              (4, PatternToggle 3%nat); (6, TimerFires 11%nat)]%Q in
  -4 <= currentBeatRef (refs s) <= 15
  /\ (forall cl now,
        currentBeatRef (refs (schedule_beat cl now s))
        = if 16 <=? currentBeatRef (refs s) + 1 then 0 else currentBeatRef (refs s) + 1)
  /\ 0 <= currentBeatRef (refs (run evs s)).
Proof.
  intros s evs.
  destruct (cursor_stays_in_range s evs) as (H1 & H2 & H3).
  - apply reachable_run, reach_mounted.
  - repeat constructor; discriminate.
  - split; [exact H1|]. split; [exact H2|]. apply H3. vm_compute. discriminate.
Defined.

(** ** Resynchronisation *)

Lemma tracked_empty_no_visual s :
  visual_tracked s -> visualTimeoutIdsRef (refs s) = ∅ -> no_visual s.
Proof.
  intros Hv He id d vb tid H. apply Hv in H as [_ H]. rewrite He in H. set_solver.
Qed.

Lemma render_resync now s :
  PreRender s ->
  deps_changed (effectDeps (rt s)) (deps_of (hooks s)) = true ->
  isPlaying (hooks s) = true ->
  previousRef (refs s) = Some true ->
  effectCleanup (rt s) = true ->
  resynced now (render now s).
Proof.
  intros Hpre E Hp Hprev Hcl.
  destruct (render_play now s E Hp) as (Hc & Ht & Hi & Hr & _ & _ & Hv).
  rewrite Hprev in Hc, Hi, Hr. cbn [falsy] in Hc, Hi, Hr.
  pose proof (render_changed_inv now s Hpre E) as Hinv.
  repeat split; try done.
  - by rewrite Ht.
  - by apply Hv.
  - apply tracked_empty_no_visual; [apply Hinv | by apply Hv].
Qed.

(** C5.  While the transport is playing (count-in included), a change
    of tempo, a toggle of a pattern step and the choice of another
    preset each leave the scheduler restarted: the cursor is 0, the
    next beat is due at the current clock time plus 0.1 s, the count-in
    flag and its mirror are off and no highlight timer is pending.  The
    new next-beat time does not depend on the old one. *)
Theorem settings_change_resyncs (s : App) (now : Q) :
  reachable s ->
  isPlaying (hooks s) = true ->
  (forall v, ~ (v == tempo (hooks s))%Q ->
     resynced now (step now (TempoChange v) s)
     /\ tempo (hooks (step now (TempoChange v) s)) = v)
  /\ (forall i,
        resynced now (step now (PatternToggle i) s)
        /\ pat_items (clickPattern (hooks (step now (PatternToggle i) s)))
           = toggle_items i (pat_items (clickPattern (hooks s))))
  /\ (forall k p,
        PRESET_PATTERNS k = Some p ->
        pat_addr p <> pat_addr (clickPattern (hooks s)) ->
        resynced now (step now (PresetChange k) s)
        /\ clickPattern (hooks (step now (PresetChange k) s)) = p).
Proof.
  intros Hr Hp. pose proof (reachable_inv s Hr) as Hs.
  pose proof (inv_previous s Hs) as Hprev. rewrite Hp in Hprev.
  pose proof (st_cleanup s (inv_settled s Hs)) as Hcl. rewrite Hp in Hcl.
  pose proof (inv_deps s Hs) as Hd.
  destruct (Inv_pre s Hs) as [H1 H2 H3 H4 H5].
  split; [|split].
  - intros v Hv. cbn [step]. unfold handleTempoChange.
    destruct (Qeq_bool v (tempo (hooks s))) eqn:E.
    { by apply Qeq_bool_iff in E. }
    split.
    + apply render_resync; try done.
      simpl. rewrite Hd. simpl. unfold deps_same. simpl.
      rewrite (Qeq_bool_sym_false _ _ E), Bool.eqb_reflx. done.
    + set (s0 := upd_hooks (set_tempo v) s).
      destruct (render_keeps now s0) as (_ & -> & _). done.
  - intros i. cbn [step]. unfold handlePatternToggle. cbv zeta.
    match goal with |- context [render now ?x] => set (s0 := x) end.
    split.
    + apply render_resync; try done.
      * split; simpl; try done; lia.
      * simpl. rewrite Hd. simpl. unfold deps_same. simpl.
        rewrite Bool.eqb_reflx, Qeq_bool_refl. simpl.
        replace (pat_addr (clickPattern (hooks s)) =? nextAddr (rt s))%nat
          with false; [done|].
        symmetry. apply Nat.eqb_neq. lia.
    + destruct (render_keeps now s0) as (_ & _ & _ & -> & _). done.
  - intros k p Hk Hne. cbn [step]. unfold handlePresetChange. rewrite Hk.
    pose proof (preset_addr _ _ Hk) as Hlt.
    destruct (pat_addr p =? pat_addr (clickPattern (hooks s)))%nat eqn:E.
    { by apply Nat.eqb_eq in E. }
    match goal with |- context [render now ?x] => set (s0 := x) end.
    assert (deps_changed (effectDeps (rt s0)) (deps_of (hooks s0)) = true) as Hch.
    { simpl. rewrite Hd. simpl. unfold deps_same. simpl.
      rewrite Bool.eqb_reflx, Qeq_bool_refl. simpl.
      rewrite Nat.eqb_sym, E. done. }
    split.
    + apply render_resync; try done.
      split; simpl; try done; lia.
    + destruct (render_keeps now s0) as (_ & _ & _ & -> & _). done.
Qed.

Lemma settings_change_resyncs_witness :
  let s := after_count_in in
  let now := (5 # 2)%Q in
  resynced now (step now (TempoChange 90) s)
  /\ resynced now (step now (PatternToggle 3) s)
  /\ resynced now (step now (PresetChange "tresillo") s).
Proof.
  intros s now.
  destruct (settings_change_resyncs s now) as (H1 & H2 & H3).
  - apply reachable_run, reach_mounted.
  - reflexivity.
  - split; [|split].
    + apply H1. vm_compute. discriminate.
    + apply H2.
    + eapply H3; [reflexivity|]. vm_compute. discriminate.
Defined.

(** ** Stopping *)

Lemma step_isPlaying now e s :
  in_session e -> isPlaying (hooks (step now e s)) = isPlaying (hooks s).
Proof.
  intros He. destruct e as [|v|v|i|k|id]; cbn [step].
  - by destruct He.
  - unfold handleTempoChange. destruct (Qeq_bool _ _); [done|].
    by destruct (render_keeps now (upd_hooks (set_tempo v) s)) as (-> & _).
  - unfold handleVolumeChange. destruct (Qeq_bool _ _); [done|].
    by destruct (render_keeps now (upd_hooks (set_volume v) s)) as (-> & _).
  - unfold handlePatternToggle. cbv zeta.
    match goal with |- context [render now ?x] =>
      by destruct (render_keeps now x) as (-> & _) end.
  - unfold handlePresetChange. destruct (PRESET_PATTERNS k); [|done].
    match goal with |- context [render now ?x] =>
      destruct (render_keeps now x) as (-> & _) end.
    by destruct (_ =? _)%nat.
  - unfold fire.
    destruct (timers (rt s) !! id) as [[d [|vb tid]|p cl]|]; cbn [run_callback]; try done.
    + match goal with |- context [render now ?x] =>
        by destruct (render_keeps now x) as (-> & _) end.
    + match goal with |- context [render now ?x] =>
        by destruct (render_keeps now x) as (-> & _) end.
    + by destruct (scheduler_frame cl now s) as [-> _ _ _ _ _ _ _ _].
Qed.

Lemma step_highlights now e s :
  in_session e -> no_visual s -> highlights (step now e s) = highlights s.
Proof.
  intros He Hnv. destruct e as [|v|v|i|k|id]; cbn [step].
  - by destruct He.
  - unfold handleTempoChange. destruct (Qeq_bool _ _); [done|].
    by destruct (render_keeps now (upd_hooks (set_tempo v) s)) as (_ & _ & _ & _ & _ & ->).
  - unfold handleVolumeChange. destruct (Qeq_bool _ _); [done|].
    by destruct (render_keeps now (upd_hooks (set_volume v) s)) as (_ & _ & _ & _ & _ & ->).
  - unfold handlePatternToggle. cbv zeta.
    match goal with |- context [render now ?x] =>
      by destruct (render_keeps now x) as (_ & _ & _ & _ & _ & ->) end.
  - unfold handlePresetChange. destruct (PRESET_PATTERNS k); [|done].
    match goal with |- context [render now ?x] =>
      destruct (render_keeps now x) as (_ & _ & _ & _ & _ & ->) end.
    by destruct (_ =? _)%nat.
  - unfold fire.
    destruct (timers (rt s) !! id) as [[d [|vb tid]|p cl]|] eqn:Hid;
      cbn [run_callback]; try done.
    + match goal with |- context [render now ?x] =>
        by destruct (render_keeps now x) as (_ & _ & _ & _ & _ & ->) end.
    + by apply Hnv in Hid.
    + by destruct (scheduler_frame cl now s) as [_ _ _ _ _ _ _ _ ->].
Qed.

Lemma stopped_quiet s :
  Inv s -> isPlaying (hooks s) = false ->
  currentBeat (hooks s) = -1
  /\ visualTimeoutIdsRef (refs s) = ∅
  /\ no_visual s
  /\ no_interval s.
Proof.
  intros [[[_ _ _ _ Hv] _ _ Hcur Hst] _ _ _] Hp.
  destruct (Hst Hp) as [Hb He]. repeat split; try done.
  - by apply tracked_empty_no_visual.
  - intros id p cl H. apply Hcur in H as [? _]. congruence.
Qed.

Lemma run_stopped evs s :
  Inv s -> isPlaying (hooks s) = false ->
  Forall (fun ev => in_session ev.2) evs ->
  isPlaying (hooks (run evs s)) = false /\ highlights (run evs s) = highlights s.
Proof.
  revert s; induction evs as [|[now e] evs IH]; intros s Hs Hp He; simpl; [done|].
  inversion He as [|? ? He1 He2]; subst. simpl in He1.
  destruct (stopped_quiet s Hs Hp) as (_ & _ & Hnv & _).
  destruct (IH (step now e s)) as [H1 H2]; try done.
  - by apply step_inv.
  - by rewrite step_isPlaying.
  - split; [done|]. by rewrite H2, step_highlights.
Qed.

(** C6.  Pressing stop while playing leaves the highlighted beat at -1,
    [visualTimeoutIdsRef] empty, and neither a highlight timer nor the
    scheduler interval in the browser's timer table.  From then on, as
    long as play is not pressed again, whatever timers fire and whatever
    settings change, no [setCurrentBeat(visualBeat)] callback runs (the
    log of highlight updates does not grow), the highlighted beat stays
    -1 and no highlight timer or interval reappears. *)
Theorem stop_cancels_highlights (s : App) (now : Q) (evs : list (Q * Event)) :
  reachable s ->
  isPlaying (hooks s) = true ->
  Forall (fun ev => in_session ev.2) evs ->
  let stopped := step now PlayStop s in
  let later := run evs stopped in
  (currentBeat (hooks stopped) = -1
   /\ visualTimeoutIdsRef (refs stopped) = ∅
   /\ no_visual stopped /\ no_interval stopped)
  /\ highlights later = highlights stopped
  /\ currentBeat (hooks later) = -1
  /\ no_visual later /\ no_interval later.
Proof.
  intros Hr Hp He stopped later.
  assert (Inv stopped) as Hs by (apply step_inv, reachable_inv, Hr).
  assert (isPlaying (hooks stopped) = false) as Hps.
  { unfold stopped. cbn [step]. unfold handlePlayStop.
    match goal with |- context [render now ?x] =>
      destruct (render_keeps now x) as (-> & _) end.
    simpl. by rewrite Hp. }
  destruct (run_stopped evs stopped Hs Hps He) as [Hpl Hhl].
  assert (Inv later) as Hl by (by apply run_inv).
  destruct (stopped_quiet stopped Hs Hps) as (? & ? & ? & ?).
  destruct (stopped_quiet later Hl Hpl) as (? & ? & ? & ?).
  done.
Qed.

Lemma stop_cancels_highlights_witness :
  let stopped := step (14 # 25)%Q PlayStop mid_count_in in
  let later :=
    run [(3 # 5, TimerFires 2%nat); (3 # 5, TimerFires 3%nat); (1, TempoChange 90);
         (2, TimerFires 1%nat); (3, PatternToggle 0%nat)]%Q stopped in
  (currentBeat (hooks stopped) = -1
   /\ visualTimeoutIdsRef (refs stopped) = ∅
   /\ no_visual stopped /\ no_interval stopped)
  /\ highlights later = highlights stopped
  /\ currentBeat (hooks later) = -1
  /\ no_visual later /\ no_interval later.
Proof.
  apply stop_cancels_highlights.
  - apply reachable_run, reach_mounted.
  - reflexivity.
  - repeat constructor; discriminate.
Defined.

(** ** The loop terminates *)

Lemma seconds_per_beat_pos cl : (0 < cl_tempo cl)%Q -> (0 < 60 / cl_tempo cl)%Q.
Proof. intros H. apply Qlt_shift_div_l; [done|]. lra. Qed.

Lemma scheduler_loop_exits cl now :
  (0 < cl_tempo cl)%Q ->
  forall fuel s,
    (now + scheduleAheadTime - nextNoteTimeRef (refs s)
     <= inject_Z (Z.of_nat fuel) * (60 / cl_tempo cl))%Q ->
    due now (scheduler_loop fuel cl now s) = false.
Proof.
  intros Hpos. pose proof (seconds_per_beat_pos cl Hpos) as Hd.
  induction fuel as [|fuel IH]; intros s Hle; simpl.
  - unfold due. apply Bool.negb_false_iff, Qle_bool_iff.
    change (inject_Z (Z.of_nat 0)) with 0%Q in Hle.
    set (d := (60 / cl_tempo cl)%Q) in *. lra.
  - destruct (due now s) eqn:E; [|done].
    apply IH.
    destruct (schedule_beat_effect cl now s) as [_ _ -> _ _ _ _ _ _ _ _ _].
    rewrite Nat2Z.inj_succ in Hle. unfold Z.succ in Hle.
    rewrite inject_Z_plus in Hle.
    set (d := (60 / cl_tempo cl)%Q) in *.
    set (f := inject_Z (Z.of_nat fuel)) in *.
    change (inject_Z 1) with 1%Q in Hle.
    assert ((f + 1) * d == f * d + d)%Q as E' by ring.
    rewrite E' in Hle. set (fd := (f * d)%Q) in *. lra.
Qed.

(** With a positive tempo the fuel of [scheduler] is enough: the loop
    stops because its guard fails. *)
Lemma scheduler_exits cl now s :
  (0 < cl_tempo cl)%Q -> due now (scheduler cl now s) = false.
Proof.
  intros Hpos. pose proof (seconds_per_beat_pos cl Hpos) as Hd.
  apply scheduler_loop_exits; [done|].
  unfold scheduler_fuel.
  set (x := ((now + scheduleAheadTime - nextNoteTimeRef (refs s))
             / (60 / cl_tempo cl))%Q).
  assert (x <= inject_Z (Z.of_nat (Z.to_nat (Qceiling x))))%Q as Hx.
  { eapply Qle_trans; [apply Qle_ceiling|].
    rewrite <- Zle_Qle. lia. }
  assert (now + scheduleAheadTime - nextNoteTimeRef (refs s)
          == x * (60 / cl_tempo cl))%Q as ->.
  { unfold x. field. lra. }
  apply Qmult_le_compat_r; [done|lra].
Qed.

(** More fuel than [scheduler] takes changes nothing. *)
Lemma scheduler_loop_enough cl now s extra :
  (0 < cl_tempo cl)%Q ->
  scheduler_loop (scheduler_fuel cl now s + extra) cl now s = scheduler cl now s.
Proof.
  intros Hpos. pose proof (scheduler_exits cl now s Hpos) as Hex.
  unfold scheduler in *. revert Hex.
  generalize (scheduler_fuel cl now s) as fuel. intros fuel. revert s.
  induction fuel as [|fuel IH]; intros s Hex; simpl in *.
  - destruct extra; simpl; [done|]. by rewrite Hex.
  - destruct (due now s); [|done]. by apply IH.
Qed.

(** ** Reading a trace *)

Lemma trace_first cl t c l t' c' b :
  trace_from cl t c l t' c' -> l !! 0%nat = Some b -> (b_time b == t)%Q.
Proof. intros H Hb. destruct H; simpl in Hb; [done|]. by injection Hb as <-. Qed.

Lemma trace_spacing cl t c l t' c' i b1 b2 :
  trace_from cl t c l t' c' ->
  l !! i = Some b1 -> l !! S i = Some b2 ->
  (b_time b2 - b_time b1 == 60 / cl_tempo cl)%Q.
Proof.
  intros H; revert i; induction H as [|t c b l t' c' Ht Hc Hok Hl IH]; intros i H1 H2.
  - done.
  - destruct i as [|i]; simpl in H1, H2.
    + injection H1 as <-.
      pose proof (trace_first _ _ _ _ _ _ _ Hl H2) as E.
      rewrite E, Ht. ring.
    + eauto.
Qed.

Lemma trace_cursor cl t c l t' c' i b :
  trace_from cl t c l t' c' -> l !! i = Some b ->
  b_cursor b = Nat.iter i next_cursor c /\ beat_ok cl b.
Proof.
  intros H; revert i; induction H as [|t c b0 l t' c' Ht Hc Hok Hl IH]; intros i Hi.
  - done.
  - destruct i as [|i]; simpl in Hi.
    + by injection Hi as <-.
    + destruct (IH _ Hi) as [-> ?]. split; [|done].
      clear. induction i as [|i IHi]; simpl; [done|]. by rewrite IHi.
Qed.




(** ** Sessions *)

Lemma new_beats_app s s' l : beats s' = beats s ++ l -> new_beats s s' = l.
Proof. intros H. unfold new_beats. by rewrite H, drop_app_length. Qed.










(** ** One pattern beat *)

Lemma schedule_beat_oscillators cl now s :
  audioContextRef (refs s) = true ->
  oscillators (rt (schedule_beat cl now s))
  = oscillators (rt s)
    ++ (if currentBeatRef (refs s) <? 0
        then [mkClick (if Z.rem (currentBeatRef (refs s) + 4) 4 =? 0 then 880 else 660)
                      (nextNoteTimeRef (refs s)) (cl_volume cl)]
        else if pattern_at (cl_pattern cl) (currentBeatRef (refs s))
             then [mkClick (if Z.rem (currentBeatRef (refs s)) 4 =? 0 then 880 else 660)
                           (nextNoteTimeRef (refs s)) (cl_volume cl)]
             else []).
Proof.
  intros Hctx. unfold schedule_beat, playClick, addTimer.
  destruct (currentBeatRef (refs s) <? 0);
    destruct ((currentBeatRef (refs s) =? 0) && isCountingInRef (refs s));
    destruct (pattern_at (cl_pattern cl) (currentBeatRef (refs s)));
    simpl; rewrite ?Hctx; simpl;
    destruct (16 <=? currentBeatRef (refs s) + 1); simpl;
    rewrite ?app_nil_r; reflexivity.
Qed.

(** A count-in beat (cursor [c < 0]) always starts an oscillator; its
    pitch and its highlight use the visual index [c + 4]. *)
Lemma count_in_beat_clicks cl now s :
  audioContextRef (refs s) = true ->
  currentBeatRef (refs s) < 0 ->
  let c := currentBeatRef (refs s) in
  let t := nextNoteTimeRef (refs s) in
  let s' := schedule_beat cl now s in
  oscillators (rt s')
  = oscillators (rt s)
    ++ [mkClick (if Z.rem (c + 4) 4 =? 0 then 880 else 660) t (cl_volume cl)]
  /\ currentBeatRef (refs s') = c + 1
  /\ new_beats s s' = [mkBeat c t true (c + 4)]
  /\ exists id d,
       timers (rt s') !! id = Some (OneShot d (CbVisual (c + 4) id))
       /\ (id ∈ visualTimeoutIdsRef (refs s')).
Proof.
  intros Hctx Hc c t s'.
  assert ((c <? 0) = true) as Hneg by (apply Z.ltb_lt; done).
  pose proof (schedule_beat_oscillators cl now s Hctx) as Ho.
  fold c t s' in Ho. rewrite Hneg in Ho.
  destruct (schedule_beat_effect cl now s) as [_ Hcur _ _ _ _ _ _ _ _ _ Hb].
  fold c t s' in Hcur, Hb. rewrite Hneg in Hb.
  destruct (schedule_beat_timers cl now s) as (tm0 & idv & d & _ & Htm & Hids).
  fold c s' in Htm, Hids. rewrite Hneg in Htm.
  split; [done|]. split; [|split].
  - rewrite Hcur. unfold next_cursor. destruct (Z.leb_spec 16 (c + 1)); [lia|done].
  - by apply new_beats_app.
  - exists idv, d. split.
    + rewrite Htm. apply lookup_insert_eq.
    + rewrite Hids. apply elem_of_union_l, elem_of_singleton. reflexivity.
Qed.



(** ** A volume change while running *)

(** Whenever the volume moves to another value while playing, the
    scheduler is restarted exactly as for a tempo or pattern change. *)
Lemma volume_change_resyncs s now v :
  reachable s ->
  isPlaying (hooks s) = true ->
  ~ (v == volume (hooks s))%Q ->
  resynced now (step now (VolumeChange v) s)
  /\ volume (hooks (step now (VolumeChange v) s)) = v.
Proof.
  intros Hr Hp Hv. pose proof (reachable_inv s Hr) as Hs.
  pose proof (inv_previous s Hs) as Hprev. rewrite Hp in Hprev.
  pose proof (st_cleanup s (inv_settled s Hs)) as Hcl. rewrite Hp in Hcl.
  pose proof (inv_deps s Hs) as Hd.
  cbn [step]. unfold handleVolumeChange.
  destruct (Qeq_bool v (volume (hooks s))) eqn:E.
  { by apply Qeq_bool_iff in E. }
  split.
  - apply render_resync; try done.
    + eapply PreRender_ext; [..|exact (Inv_pre s Hs)]; done.
    + simpl. rewrite Hd. simpl. unfold deps_same. simpl.
      rewrite (Qeq_bool_sym_false _ _ E), Bool.eqb_reflx, Qeq_bool_refl, Nat.eqb_refl.
      done.
  - set (s0 := upd_hooks (set_volume v) s).
    destruct (render_keeps now s0) as (_ & _ & -> & _). done.
Qed.

(** C7, at a concrete run.  The transport is started at clock 0 with
    the default settings and two polls schedule the first two count-in
    beats, the second with its highlight still pending.  At clock 0.56
    the volume slider moves from 0.5 to 0.8.  The effect runs again
    because [playClick] is one of its dependencies: the cursor jumps
    from -2 to 0, the next beat moves from 1.1 to 0.66, the count-in
    flag drops, both pending highlight timers are cancelled and the
    interval is replaced; the next beats scheduled are pattern beats 0
    and 1, so the rest of the count-in is skipped.  Their clicks do
    carry the new volume. *)
Theorem volume_change_restarts_scheduler :
  let before := mid_count_in in
  let after := step (14 # 25) (VolumeChange (4 # 5)) before in
  (currentBeatRef (refs before) = -2
   /\ (nextNoteTimeRef (refs before) == 11 # 10)%Q
   /\ isCountingIn (hooks before) = true
   /\ elements (visualTimeoutIdsRef (refs before)) = [2%nat; 3%nat]
   /\ schedulerIntervalRef (refs before) = Some 1%nat)
  /\ (currentBeatRef (refs after) = 0
      /\ (nextNoteTimeRef (refs after) == 33 # 50)%Q
      /\ isCountingIn (hooks after) = false
      /\ elements (visualTimeoutIdsRef (refs after)) = []
      /\ timers (rt after) !! 2%nat = None
      /\ timers (rt after) !! 3%nat = None
      /\ schedulerIntervalRef (refs after) = Some 4%nat)
  /\ b_cursor <$> new_beats before
                    (run [(6 # 5, TimerFires 4%nat)]%Q after) = [0; 1]
  /\ click_gain <$> drop (length (oscillators (rt before)))
                       (oscillators (rt (run [(6 # 5, TimerFires 4%nat)]%Q after)))
     = [4 # 5; 4 # 5]%Q.
Proof. vm_compute. repeat split; reflexivity. Qed.

(** ** The two copies of the scheduler *)

Lemma RootApp_schedule_beat cl now s :
  RootApp.schedule_beat cl now s = schedule_beat cl now s.
Proof. reflexivity. Qed.

Lemma RootApp_scheduler_loop fuel cl now s :
  RootApp.scheduler_loop fuel cl now s = scheduler_loop fuel cl now s.
Proof.
  revert s; induction fuel as [|fuel IH]; intros s; simpl; [done|].
  change (RootApp.due now s) with (due now s).
  destruct (due now s); [|done].
  by rewrite RootApp_schedule_beat, IH.
Qed.

(** C10.  For every state, closure (tempo, pattern, volume) and clock
    time, one poll of [scheduler] of src/App.tsx and one poll of
    [scheduler] of src/src/App.tsx return the same state; in particular
    the same beats (cursor, audio time, click decision, visual index),
    the same oscillators, the same resulting cursor and the same
    next-note time.  The two loops agree for every number of passes. *)
Theorem schedulers_agree (cl : Closure) (now : Q) (s : App) :
  RootApp.scheduler cl now s = scheduler cl now s
  /\ poll_outcome s (RootApp.scheduler cl now s) = poll_outcome s (scheduler cl now s)
  /\ forall fuel, RootApp.scheduler_loop fuel cl now s = scheduler_loop fuel cl now s.
Proof.
  assert (RootApp.scheduler cl now s = scheduler cl now s) as E
    by apply RootApp_scheduler_loop.
  split; [done|]. split; [by rewrite E|]. intros fuel. apply RootApp_scheduler_loop.
Qed.

(** ** The recorder *)

Lemma stop_tracks_eq ids s :
  Recorder.stop_tracks ids s
  = Recorder.set_tracks
      (foldr (fun id m => <[id := false]> m) (Recorder.tracks s) ids) s.
Proof.
  induction ids as [|id ids IH].
  - by destruct s.
  - change (Recorder.stop_tracks (id :: ids) s)
      with (Recorder.stop_track id (Recorder.stop_tracks ids s)).
    rewrite IH. reflexivity.
Qed.

Lemma lookup_stop_all (m : gmap nat bool) ids id :
  foldr (fun id m => <[id := false]> m) m ids !! id
  = if decide (id ∈ ids) then Some false else m !! id.
Proof.
  induction ids as [|x ids IH]; simpl.
  - destruct (decide (id ∈ [])) as [H|]; [by apply elem_of_nil in H|done].
  - destruct (decide (x = id)) as [->|Hne].
    + rewrite lookup_insert_eq.
      destruct (decide (id ∈ id :: ids)) as [|Hn]; [done|].
      exfalso. apply Hn. by left.
    + rewrite lookup_insert_ne by done. rewrite IH.
      destruct (decide (id ∈ ids)) as [Hin|Hnin];
        destruct (decide (id ∈ x :: ids)) as [Hin'|Hnin']; try done.
      * exfalso. apply Hnin'. by right.
      * apply elem_of_cons in Hin' as [->|]; done.
Qed.



(** What [startRecording] does when no format is supported. *)
Lemma startRecording_unsupported env s n :
  Recorder.getUserMedia env = Some n ->
  Recorder.supportedType env = None ->
  Recorder.startRecording env s
  = Recorder.set_analyserNode false
      (Recorder.set_tracks
         (foldr (fun id m => <[id := false]> m)
            (foldr (fun id m => <[id := true]> m) (Recorder.tracks s)
               (seq (Recorder.nextTrack s) n))
            (seq (Recorder.nextTrack s) n))
         (Recorder.set_isRecording false
            (Recorder.set_recordingError (Some Recorder.ErrUnsupportedFormat)
               (Recorder.set_audioContext true
                  (Recorder.set_streamRef (Some (seq (Recorder.nextTrack s) n))
                     (Recorder.set_nextTrack (Recorder.nextTrack s + n)%nat s)))))).
Proof.
  intros Hg Hn. unfold Recorder.startRecording, Recorder.open_stream.
  rewrite Hg, Hn. rewrite stop_tracks_eq. reflexivity.
Qed.

Lemma stopRecording_idle s :
  Recorder.streamRef s = None ->
  (forall mime, Recorder.mediaRecorderRef s
                <> Some (Recorder.mkMediaRecorder mime Recorder.Recording)) ->
  Recorder.stopRecording s = Recorder.set_analyserNode false s.
Proof.
  intros Hs Hm. unfold Recorder.stopRecording.
  destruct (Recorder.mediaRecorderRef s) as [[mime []]|] eqn:E;
    rewrite ?Hs; try done.
  by destruct (Hm mime).
Qed.


Lemma stopRecording_not_recording s :
  (forall mime, Recorder.mediaRecorderRef s
                <> Some (Recorder.mkMediaRecorder mime Recorder.Recording)) ->
  Recorder.stopRecording s
  = Recorder.set_analyserNode false
      (match Recorder.streamRef s with
       | Some stream => Recorder.set_streamRef None (Recorder.stop_tracks stream s)
       | None => s
       end).
Proof.
  intros Hm. unfold Recorder.stopRecording.
  destruct (Recorder.mediaRecorderRef s) as [[mime []]|] eqn:E; try done.
  by destruct (Hm mime).
Qed.



(** ** The file name of a saved recording *)

Local Open Scope string_scope.

Lemma digit_cases k :
  digit k = "0"%char \/ digit k = "1"%char \/ digit k = "2"%char \/ digit k = "3"%char
  \/ digit k = "4"%char \/ digit k = "5"%char \/ digit k = "6"%char \/ digit k = "7"%char
  \/ digit k = "8"%char \/ digit k = "9"%char.
Proof.
  unfold digit.
  assert (k mod 10 < 10)%N as Hlt by (by apply N.mod_lt).
  generalize dependent (k mod 10)%N. intros m Hlt.
  assert (m = 0 \/ m = 1 \/ m = 2 \/ m = 3 \/ m = 4 \/ m = 5 \/ m = 6
          \/ m = 7 \/ m = 8 \/ m = 9)%N as H by lia.
  destruct H as [->|[->|[->|[->|[->|[->|[->|[->|[->| ->]]]]]]]]]; tauto.
Qed.

Lemma digit_not_T k : Ascii.eqb "T" (digit k) = false.
Proof. destruct (digit_cases k) as [->|[->|[->|[->|[->|[->|[->|[->|[->| ->]]]]]]]]]; reflexivity. Qed.

Lemma digit_not_colon k : Ascii.eqb (digit k) ":" = false.
Proof. destruct (digit_cases k) as [->|[->|[->|[->|[->|[->|[->|[->|[->| ->]]]]]]]]]; reflexivity. Qed.

Lemma replace_first_skip c s :
  Ascii.eqb "T" c = false ->
  replace_first "T" "_" (String c s) = String c (replace_first "T" "_" s).
Proof. intros H. cbn [replace_first starts_with]. by rewrite H. Qed.

Lemma replace_first_hit s :
  replace_first "T" "_" (String "T" s) = String "_" s.
Proof. reflexivity. Qed.

Lemma replace_all_keep c s :
  Ascii.eqb c ":" = false ->
  replace_all ":" "-" (String c s) = String c (replace_all ":" "-" s).
Proof. intros H. cbn [replace_all]. by rewrite H. Qed.

Lemma replace_all_hit s :
  replace_all ":" "-" (String ":" s) = String "-" (replace_all ":" "-" s).
Proof. reflexivity. Qed.

Lemma timestamp_shape d :
  timestamp d
  = pad4 (utcFullYear d) +:+ "-" +:+ pad2 (utcMonth d) +:+ "-" +:+ pad2 (utcDate d)
    +:+ "_" +:+ pad2 (utcHours d) +:+ "-" +:+ pad2 (utcMinutes d) +:+ "-"
    +:+ pad2 (utcSeconds d).
Proof.
  unfold timestamp, slice0.
  cbv [toISOString pad4 pad3 pad2 String.append].
  cbn [String.substring].
  rewrite !(replace_first_skip (digit _)) by apply digit_not_T.
  rewrite (replace_first_skip "-") by reflexivity.
  rewrite !(replace_first_skip (digit _)) by apply digit_not_T.
  rewrite (replace_first_skip "-") by reflexivity.
  rewrite !(replace_first_skip (digit _)) by apply digit_not_T.
  rewrite replace_first_hit.
  repeat first [ rewrite (replace_all_keep (digit _)) by apply digit_not_colon
               | rewrite (replace_all_keep "-") by reflexivity
               | rewrite (replace_all_keep "_") by reflexivity
               | rewrite replace_all_hit ].
  reflexivity.
Qed.

(** C9, as the code has it.  For a date whose UTC year is at most 9999
    the file name is [metronome-recording_YYYY-MM-DD_HH-MM-SS.<ext>]:
    the first 19 characters of the UTC ISO 8601 string, with the [T]
    replaced by [_] and each [:] by [-].  In src/src/App.tsx the
    extension is [mp4] when the recorded type contains [mp4] and [webm]
    otherwise; in src/App.tsx it is always [webm]. *)
Theorem filename_is_utc_stamp_with_underscore (d : Date) (type : string) :
  (utcFullYear d <= 9999)%N ->
  filename d type
  = "metronome-recording_"
    +:+ pad4 (utcFullYear d) +:+ "-" +:+ pad2 (utcMonth d) +:+ "-" +:+ pad2 (utcDate d)
    +:+ "_" +:+ pad2 (utcHours d) +:+ "-" +:+ pad2 (utcMinutes d) +:+ "-"
    +:+ pad2 (utcSeconds d)
    +:+ "." +:+ (if includes "mp4" type then "mp4" else "webm")
  /\ RootApp.filename d
     = "metronome-recording_"
       +:+ pad4 (utcFullYear d) +:+ "-" +:+ pad2 (utcMonth d) +:+ "-" +:+ pad2 (utcDate d)
       +:+ "_" +:+ pad2 (utcHours d) +:+ "-" +:+ pad2 (utcMinutes d) +:+ "-"
       +:+ pad2 (utcSeconds d)
       +:+ ".webm".
Proof.
  intros _. unfold filename, RootApp.filename, extension.
  rewrite timestamp_shape. done.
Qed.

Lemma filename_is_utc_stamp_with_underscore_witness :
  filename sample_date "audio/mp4"
  = "metronome-recording_"
    +:+ pad4 2024 +:+ "-" +:+ pad2 5 +:+ "-" +:+ pad2 1
    +:+ "_" +:+ pad2 12 +:+ "-" +:+ pad2 34 +:+ "-" +:+ pad2 56
    +:+ "." +:+ (if includes "mp4" "audio/mp4" then "mp4" else "webm")
  /\ RootApp.filename sample_date
     = "metronome-recording_"
       +:+ pad4 2024 +:+ "-" +:+ pad2 5 +:+ "-" +:+ pad2 1
       +:+ "_" +:+ pad2 12 +:+ "-" +:+ pad2 34 +:+ "-" +:+ pad2 56
       +:+ ".webm".
Proof.
  apply (filename_is_utc_stamp_with_underscore sample_date "audio/mp4").
  vm_compute. discriminate.
Defined.

(** C9, as the specification words it, fails on 1 May 2024,
    12:34:56.789 UTC: the file name is neither the ISO 8601 timestamp
    with colons replaced by dashes, nor that of its first 19
    characters; the code writes [_] where both have [T]. *)
Lemma filename_not_iso_with_dashes :
  toISOString sample_date = "2024-05-01T12:34:56.789Z"
  /\ filename sample_date "audio/webm" = "metronome-recording_2024-05-01_12-34-56.webm"
  /\ spec_filename (toISOString sample_date) "webm"
     = "metronome-recording_2024-05-01T12-34-56.789Z.webm"
  /\ filename sample_date "audio/webm" <> spec_filename (toISOString sample_date) "webm"
  /\ filename sample_date "audio/webm"
     <> spec_filename (slice0 19 (toISOString sample_date)) "webm"
  /\ RootApp.filename sample_date <> spec_filename (toISOString sample_date) "webm"
  /\ RootApp.filename sample_date
     <> spec_filename (slice0 19 (toISOString sample_date)) "webm".
Proof. vm_compute. repeat split; discriminate. Qed.

Local Close Scope string_scope.

(** * Further properties of the scheduler *)

(** ** What one pass allocates *)

Lemma schedule_beat_alloc cl now s :
  let c := currentBeatRef (refs s) in
  let vb := if c <? 0 then c + 4 else c in
  let d := clamp_delay ((nextNoteTimeRef (refs s) - now) * 1000)%Q in
  let h := nextHandle (rt s) in
  let ending := (c =? 0) && isCountingInRef (refs s) in
  let s' := schedule_beat cl now s in
  timers (rt s')
  = (if ending
     then <[S h := OneShot d (CbVisual vb (S h))]>
            (<[h := OneShot d CbEndCountIn]> (timers (rt s)))
     else <[h := OneShot d (CbVisual vb h)]> (timers (rt s)))
  /\ nextHandle (rt s') = (if ending then S (S h) else S h)
  /\ visualTimeoutIdsRef (refs s')
     = {[if ending then S h else h]} ∪ visualTimeoutIdsRef (refs s).
Proof.
  cbv zeta. unfold schedule_beat, playClick, addTimer.
  destruct (currentBeatRef (refs s) <? 0) eqn:Hneg;
    destruct (currentBeatRef (refs s) =? 0) eqn:Hz;
    try (apply Z.ltb_lt in Hneg; apply Z.eqb_eq in Hz; lia);
    destruct (isCountingInRef (refs s));
    destruct (pattern_at (cl_pattern cl) (currentBeatRef (refs s)));
    destruct (audioContextRef (refs s)) eqn:Hctx; simpl;
    rewrite ?Hctx; simpl;
    destruct (16 <=? currentBeatRef (refs s) + 1); simpl;
    done.
Qed.

Lemma clamp_delay_nonneg d : (0 <= clamp_delay d)%Q.
Proof.
  unfold clamp_delay. destruct (Qle_bool d 0) eqn:E; [apply Qle_refl|].
  destruct (Qlt_le_dec 0 d) as [H|H]; [by apply Qlt_le_weak|].
  apply Qle_bool_iff in H. congruence.
Qed.

(** ** The timer table across a render *)

Lemma drop_interval_lookup s tm id t :
  drop_interval s tm !! id = Some t -> tm !! id = Some t.
Proof.
  unfold drop_interval. destruct (schedulerIntervalRef (refs s)); [|done].
  intros H. by apply lookup_delete_Some in H as [_ H].
Qed.

Lemma cleared_timers_lookup s id t :
  cleared_timers s !! id = Some t -> timers (rt s) !! id = Some t.
Proof.
  unfold cleared_timers. intros H. apply drop_interval_lookup in H.
  destruct (effectCleanup (rt s)); [|done].
  apply lookup_foldr_delete_Some in H as [_ H]. by apply drop_interval_lookup in H.
Qed.

Lemma render_play_fields now s :
  deps_changed (effectDeps (rt s)) (deps_of (hooks s)) = true ->
  isPlaying (hooks s) = true ->
  let s' := render now s in
  timers (rt s')
  = <[nextHandle (rt s) := Repeating schedulerLookahead (closure_of (hooks s))]>
      (cleared_timers s)
  /\ nextHandle (rt s') = S (nextHandle (rt s))
  /\ visualTimeoutIdsRef (refs s')
     = (if effectCleanup (rt s) then ∅ else visualTimeoutIdsRef (refs s))
  /\ oscillators (rt s') = oscillators (rt s)
  /\ currentBeat (hooks s') = currentBeat (hooks s)
  /\ nextAddr (rt s') = nextAddr (rt s).
Proof.
  intros E Hp. cbv zeta. rewrite render_changed by done. cbv zeta.
  rewrite scheduler_effect_play
    by (destruct (effectCleanup (rt s)); [rewrite effect_cleanup_eq|]; done).
  cbv zeta. rewrite clearSchedulerInterval_eq. unfold cleared_timers, drop_interval.
  destruct (effectCleanup (rt s)); [rewrite effect_cleanup_eq|]; done.
Qed.

Lemma render_stop_fields now s :
  deps_changed (effectDeps (rt s)) (deps_of (hooks s)) = true ->
  isPlaying (hooks s) = false ->
  let s' := render now s in
  (forall id t, timers (rt s') !! id = Some t -> timers (rt s) !! id = Some t)
  /\ nextHandle (rt s') = nextHandle (rt s)
  /\ visualTimeoutIdsRef (refs s') = ∅
  /\ oscillators (rt s') = oscillators (rt s)
  /\ currentBeat (hooks s') = -1
  /\ nextAddr (rt s') = nextAddr (rt s)
  /\ currentBeatRef (refs s') = currentBeatRef (refs s)
  /\ nextNoteTimeRef (refs s') = nextNoteTimeRef (refs s).
Proof.
  intros E Hp. cbv zeta. rewrite render_changed by done. cbv zeta.
  rewrite scheduler_effect_stop
    by (destruct (effectCleanup (rt s)); [rewrite effect_cleanup_eq|]; done).
  rewrite effect_cleanup_eq.
  destruct (effectCleanup (rt s)); [rewrite effect_cleanup_eq|]; simpl;
    (split; [|done]); intros id t H.
  - apply lookup_foldr_delete_Some in H as [_ H].
    destruct (schedulerIntervalRef (refs s)).
    + apply lookup_delete_Some in H as [_ H].
      apply lookup_foldr_delete_Some in H as [_ H].
      by apply lookup_delete_Some in H as [_ H].
    + by apply lookup_foldr_delete_Some in H as [_ H].
  - apply lookup_foldr_delete_Some in H as [_ H].
    destruct (schedulerIntervalRef (refs s)); [|done].
    by apply lookup_delete_Some in H as [_ H].
Qed.

(** ** Tidiness is kept *)

Lemma schedule_beat_tidy cl now s :
  (Tidy s /\ isPlaying (hooks s) = true /\ -4 <= currentBeatRef (refs s) <= 15) ->
  Tidy (schedule_beat cl now s)
  /\ isPlaying (hooks (schedule_beat cl now s)) = true
  /\ -4 <= currentBeatRef (refs (schedule_beat cl now s)) <= 15.
Proof.
  intros ([[Hft Hfi] Hwf Hpoll Hb] & Hp & Hc).
  destruct (schedule_beat_effect cl now s) as [Hh _ _ _ Hi _ _ _ _ _ _ _].
  destruct (schedule_beat_alloc cl now s) as (Htm & Hnh & Hids).
  pose proof (clamp_delay_nonneg ((nextNoteTimeRef (refs s) - now) * 1000)%Q) as Hd.
  split; [|split; [by rewrite Hh|by apply schedule_beat_cursor]].
  assert (forall id t, timers (rt (schedule_beat cl now s)) !! id = Some t ->
            timers (rt s) !! id = Some t
            \/ ((nextHandle (rt s) <= id < nextHandle (rt (schedule_beat cl now s)))%nat
                /\ match t with
                   | OneShot d CbEndCountIn => (0 <= d)%Q
                   | OneShot d (CbVisual vb _) => (0 <= d)%Q /\ 0 <= vb <= 15
                   | Repeating p _ => False
                   end)) as Hnew.
  { intros id t. rewrite Htm, Hnh.
    destruct ((currentBeatRef (refs s) =? 0) && isCountingInRef (refs s)); intros H.
    - apply lookup_insert_Some in H as [[<- <-]|[_ H]].
      { right. split; [lia|]. split; [done|]. destruct (_ <? 0) eqn:E; [apply Z.ltb_lt in E|apply Z.ltb_ge in E]; lia. }
      apply lookup_insert_Some in H as [[<- <-]|[_ H]]; [|by left].
      right. split; [lia|done].
    - apply lookup_insert_Some in H as [[<- <-]|[_ H]]; [|by left].
      right. split; [lia|]. split; [done|]. destruct (_ <? 0) eqn:E; [apply Z.ltb_lt in E|apply Z.ltb_ge in E]; lia. }
  assert (nextHandle (rt s) < nextHandle (rt (schedule_beat cl now s)))%nat as Hgrow.
  { rewrite Hnh. destruct (_ && _); lia. }
  split.
  - split.
    + intros id t H. destruct (Hnew id t H) as [H'|[? _]]; [apply Hft in H'|]; lia.
    + intros id. rewrite Hids, Hnh. intros [Hin|Hin]%elem_of_union.
      * apply elem_of_singleton in Hin. subst. destruct (_ && _); lia.
      * apply Hfi in Hin. destruct (_ && _); lia.
  - intros id t H. destruct (Hnew id t H) as [H'|[_ H']].
    + by apply Hwf in H'.
    + by destruct t as [d [|vb tid]|].
  - intros _. destruct (Hpoll Hp) as (h & Hr & Hl & Hn).
    exists h. rewrite Hh, Hi. split; [done|].
    pose proof (Hft _ _ Hl) as Hlt.
    split.
    + rewrite Htm. destruct (_ && _); rewrite !lookup_insert_ne by lia; done.
    + rewrite Hids. intros [Hin|Hin]%elem_of_union; [|done].
      apply elem_of_singleton in Hin. destruct (_ && _); lia.
  - by rewrite Hh.
Qed.

Lemma scheduler_tidy cl now s :
  Tidy s -> isPlaying (hooks s) = true -> -4 <= currentBeatRef (refs s) <= 15 ->
  Tidy (scheduler cl now s).
Proof.
  intros Ht Hp Hc.
  apply (scheduler_loop_keeps
           (fun s => Tidy s /\ isPlaying (hooks s) = true
                     /\ -4 <= currentBeatRef (refs s) <= 15)
           cl now (schedule_beat_tidy cl now)); done.
Qed.

Lemma render_changed_tidy now s :
  deps_changed (effectDeps (rt s)) (deps_of (hooks s)) = true ->
  handles_fresh s -> timers_wellformed s ->
  -1 <= currentBeat (hooks s) <= 15 ->
  Tidy (render now s).
Proof.
  intros E [Hft Hfi] Hwf Hb.
  destruct (render_keeps now s) as (Hk1 & Hk2 & Hk3 & Hk4 & _).
  destruct (isPlaying (hooks s)) eqn:Hp.
  - destruct (render_play_fields now s E Hp) as (Htm & Hnh & Hids & _ & Hcb & _).
    destruct (render_play now s E Hp) as (_ & _ & _ & _ & Hr & Hl & _).
    split.
    + split.
      * intros id t. rewrite Htm, Hnh. intros H.
        apply lookup_insert_Some in H as [[<- _]|[_ H]]; [lia|].
        apply cleared_timers_lookup, Hft in H. lia.
      * intros id. rewrite Hids, Hnh. destruct (effectCleanup (rt s)); [set_solver|].
        intros H. apply Hfi in H. lia.
    + intros id t. rewrite Htm. intros H.
      apply lookup_insert_Some in H as [[_ <-]|[_ H]]; [done|].
      by apply cleared_timers_lookup, Hwf in H.
    + intros _. exists (nextHandle (rt s)). split; [done|]. split.
      * rewrite Hl. unfold closure_of. by rewrite Hk2, Hk3, Hk4.
      * rewrite Hids. destruct (effectCleanup (rt s)); [set_solver|].
        intros H. apply Hfi in H. lia.
    + by rewrite Hcb.
  - destruct (render_stop_fields now s E Hp) as (Htm & Hnh & Hids & _ & Hcb & _).
    split.
    + split.
      * intros id t H. rewrite Hnh. by apply Htm, Hft in H.
      * intros id. rewrite Hids. set_solver.
    + intros id t H. by apply Htm, Hwf in H.
    + rewrite Hk1. congruence.
    + rewrite Hcb. lia.
Qed.

Lemma render_unchanged_tidy now s :
  effectDeps (rt s) = Some (deps_of (hooks s)) -> Tidy s -> Tidy (render now s).
Proof.
  intros Hd [[Hft Hfi] Hwf Hpoll Hb]. rewrite render_unchanged by done.
  split; [split|..]; simpl; try done.
Qed.

Lemma mounted_tidy : Tidy mounted.
Proof.
  apply render_changed_tidy; [done|..].
  - split; [intros id t H; simpl in H; by rewrite lookup_empty in H|].
    intros id H. simpl in H. set_solver.
  - intros id t H. simpl in H. by rewrite lookup_empty in H.
  - simpl. lia.
Qed.

(** Every handler either bails out or stages a state and renders it;
    the staged state has a changed dependency, or (a preset chosen
    again) the same dependencies as before. *)
Lemma step_as_render now e s :
  Inv s -> (forall id, e <> TimerFires id) ->
  step now e s = s
  \/ exists s0,
       step now e s = render now s0 /\ staged s s0
       /\ isPlaying (hooks s0)
          = (if is_play_stop e then negb (isPlaying (hooks s))
             else isPlaying (hooks s))
       /\ (deps_changed (effectDeps (rt s0)) (deps_of (hooks s0)) = true
           \/ (effectDeps (rt s0) = Some (deps_of (hooks s0))
               /\ closure_of (hooks s0) = closure_of (hooks s)
               /\ is_play_stop e = false)).
Proof.
  intros Hs Hne. pose proof (inv_deps s Hs) as Hd.
  destruct (Inv_pre s Hs) as [_ Haddr Hheap _ _].
  destruct e as [|v|v|i|k|id]; cbn [step].
  - right. eexists. split; [reflexivity|]. split; [by split|]. split; [done|].
    left. simpl. rewrite Hd. simpl. unfold deps_same. simpl.
    by destruct (isPlaying (hooks s)).
  - unfold handleTempoChange. destruct (Qeq_bool v (tempo (hooks s))) eqn:E; [by left|].
    right. eexists. split; [reflexivity|]. split; [by split|]. split; [done|].
    left. simpl. rewrite Hd. simpl. unfold deps_same. simpl.
    rewrite (Qeq_bool_sym_false _ _ E), Bool.eqb_reflx. done.
  - unfold handleVolumeChange. destruct (Qeq_bool v (volume (hooks s))) eqn:E; [by left|].
    right. eexists. split; [reflexivity|]. split; [by split|]. split; [done|].
    left. simpl. rewrite Hd. simpl. unfold deps_same. simpl.
    rewrite (Qeq_bool_sym_false _ _ E), Bool.eqb_reflx, Qeq_bool_refl, Nat.eqb_refl.
    done.
  - unfold handlePatternToggle. cbv zeta.
    right. eexists. split; [reflexivity|]. split; [by split|]. split; [done|].
    left. simpl. rewrite Hd. simpl. unfold deps_same. simpl.
    rewrite Bool.eqb_reflx, Qeq_bool_refl. simpl.
    replace (pat_addr (clickPattern (hooks s)) =? nextAddr (rt s))%nat with false; [done|].
    symmetry. apply Nat.eqb_neq. lia.
  - unfold handlePresetChange. destruct (PRESET_PATTERNS k) as [p|] eqn:Hk; [|by left].
    right. eexists. split; [reflexivity|].
    destruct (pat_addr p =? pat_addr (clickPattern (hooks s)))%nat eqn:E.
    + split; [by split|]. split; [done|]. right. simpl. by rewrite Hd.
    + split; [by split|]. split; [done|]. left.
      simpl. rewrite Hd. simpl. unfold deps_same. simpl.
      rewrite Bool.eqb_reflx, Qeq_bool_refl. simpl.
      rewrite Nat.eqb_sym, E. done.
  - by destruct (Hne id).
Qed.

Lemma staged_fresh s s0 : staged s s0 -> handles_fresh s -> handles_fresh s0.
Proof.
  intros [Hr Ht Hh _ _ _ _ _ _] [H1 H2]. unfold handles_fresh. rewrite Hr, Ht, Hh. done.
Qed.

Lemma staged_wellformed s s0 : staged s s0 -> timers_wellformed s -> timers_wellformed s0.
Proof. intros [_ Ht _ _ _ _ _ _ _] H. unfold timers_wellformed. by rewrite Ht. Qed.

Lemma fire_tidy id now s : Inv s -> Tidy s -> Tidy (fire id now s).
Proof.
  intros Hs Ht. pose proof Ht as [[Hft Hfi] Hwf Hpoll Hb]. unfold fire.
  destruct (timers (rt s) !! id) as [[d cb|p cl]|] eqn:Hid; [| |done].
  - assert (isPlaying (hooks s) = true -> poll_installed (clearTimer id s)) as Hpoll'.
    { intros Hp. destruct (Hpoll Hp) as (h & Hr & Hl & Hn). exists h.
      split; [done|]. split; [|done]. simpl.
      rewrite lookup_delete_ne; [done|]. intros ->. congruence. }
    assert (handles_fresh (clearTimer id s)) as Hfresh'.
    { split; [|done]. intros id' t H. simpl in H.
      apply lookup_delete_Some in H as [_ H]. eauto. }
    assert (timers_wellformed (clearTimer id s)) as Hwf'.
    { intros id' t H. simpl in H. apply lookup_delete_Some in H as [_ H].
      by apply (Hwf id'). }
    destruct cb as [|vb tid]; cbn [run_callback].
    + apply render_unchanged_tidy; [simpl; by rewrite (inv_deps s Hs)|].
      split; done.
    + pose proof (Hwf _ _ Hid) as [_ Hvb].
      apply render_unchanged_tidy; [simpl; by rewrite (inv_deps s Hs)|].
      split; simpl; try done.
      * destruct Hfresh' as [H1 H2]. split; [done|].
        intros id' Hin. apply H2. simpl. set_solver.
      * intros Hp. destruct (Hpoll' Hp) as (h & Hr & Hl & Hn). exists h.
        split; [done|]. split; [done|]. simpl. set_solver.
      * lia.
  - destruct (st_current s (inv_settled s Hs) _ _ _ Hid) as [Hp _].
    apply scheduler_tidy; [done..|]. apply Hs.
Qed.

Lemma step_tidy now e s : Inv s -> Tidy s -> Tidy (step now e s).
Proof.
  intros Hs Ht.
  assert ((exists id, e = TimerFires id) \/ forall id, e <> TimerFires id) as [[id ->]|Hne].
  { destruct e; try (right; discriminate). left. by eexists. }
  { by apply fire_tidy. }
  destruct (step_as_render now e s Hs Hne) as [->|(s0 & -> & Hsg & Hp & Hch)]; [done|].
  destruct Ht as [Hf Hwf Hpoll Hb].
  destruct Hch as [Hch|(Hd & Hcl & Hnp)].
  - apply render_changed_tidy; [done|by eapply staged_fresh|by eapply staged_wellformed|].
    by rewrite (sg_beat _ _ Hsg).
  - apply render_unchanged_tidy; [done|]. rewrite Hnp in Hp.
    split; [by eapply staged_fresh|by eapply staged_wellformed| |by rewrite (sg_beat _ _ Hsg)].
    rewrite Hp. intros Hpl. destruct (Hpoll Hpl) as (h & Hr & Hl & Hn).
    exists h. destruct Hsg as [Hrefs Htm _ _ _ _ _ _ _].
    rewrite Hrefs, Htm, Hcl. done.
Qed.

Lemma reachable_tidy s : reachable s -> Tidy s.
Proof.
  induction 1 as [|now e s Hr IH]; [apply mounted_tidy|].
  apply step_tidy; [by apply reachable_inv|done].
Qed.

(** X1.  While the transport plays there is exactly one active
    interval, the one [schedulerIntervalRef] holds, and it runs the
    scheduler with the tempo, pattern and volume now shown; while it is
    stopped there is none. *)
Theorem one_scheduler_interval (s : App) :
  reachable s ->
  (isPlaying (hooks s) = true ->
   exists h,
     schedulerIntervalRef (refs s) = Some h
     /\ timers (rt s) !! h = Some (Repeating schedulerLookahead (closure_of (hooks s)))
     /\ forall h' p cl, timers (rt s) !! h' = Some (Repeating p cl) -> h' = h)
  /\ (isPlaying (hooks s) = false -> no_interval s).
Proof.
  intros Hr. pose proof (reachable_inv s Hr) as Hs.
  pose proof (reachable_tidy s Hr) as Ht. split.
  - intros Hp. destruct (tidy_poll s Ht Hp) as (h & Hh & Hl & _).
    exists h. split; [done|]. split; [done|].
    intros h' p cl H. destruct (Inv_pre s Hs) as [_ _ _ Ho _].
    apply Ho in H. congruence.
  - intros Hp. by destruct (stopped_quiet s Hs Hp) as (_ & _ & _ & ?).
Qed.

Lemma one_scheduler_interval_witness :
  (isPlaying (hooks after_count_in) = true ->
   exists h,
     schedulerIntervalRef (refs after_count_in) = Some h
     /\ timers (rt after_count_in) !! h
        = Some (Repeating schedulerLookahead (closure_of (hooks after_count_in)))
     /\ forall h' p cl,
          timers (rt after_count_in) !! h' = Some (Repeating p cl) -> h' = h)
  /\ (isPlaying (hooks after_count_in) = false -> no_interval after_count_in).
Proof.
  apply one_scheduler_interval. apply reachable_run, reach_mounted.
Defined.

(** X2.  The highlighted beat is always -1 or the index of one of the
    sixteen dots; every pending highlight timer carries such an index,
    no timeout was registered with a negative delay, and every interval
    has the period [schedulerLookahead]. *)
Theorem highlight_stays_on_the_grid (s : App) :
  reachable s ->
  -1 <= currentBeat (hooks s) <= 15
  /\ (forall id d vb tid,
        timers (rt s) !! id = Some (OneShot d (CbVisual vb tid)) ->
        0 <= vb <= 15 /\ (0 <= d)%Q)
  /\ (forall id d, timers (rt s) !! id = Some (OneShot d CbEndCountIn) -> (0 <= d)%Q)
  /\ (forall id p cl, timers (rt s) !! id = Some (Repeating p cl) -> p = schedulerLookahead).
Proof.
  intros Hr. destruct (reachable_tidy s Hr) as [_ Hwf _ Hb].
  split; [done|]. split; [|split].
  - intros id d vb tid H. destruct (Hwf _ _ H). done.
  - intros id d H. exact (Hwf _ _ H).
  - intros id p cl H. exact (Hwf _ _ H).
Qed.

Lemma highlight_stays_on_the_grid_witness :
  -1 <= currentBeat (hooks after_count_in) <= 15
  /\ (forall id d vb tid,
        timers (rt after_count_in) !! id = Some (OneShot d (CbVisual vb tid)) ->
        0 <= vb <= 15 /\ (0 <= d)%Q)
  /\ (forall id d,
        timers (rt after_count_in) !! id = Some (OneShot d CbEndCountIn) -> (0 <= d)%Q)
  /\ (forall id p cl,
        timers (rt after_count_in) !! id = Some (Repeating p cl) ->
        p = schedulerLookahead).
Proof.
  apply highlight_stays_on_the_grid. apply reachable_run, reach_mounted.
Defined.

(** ** One poll *)

Lemma scheduler_loop_window fuel cl now s :
  Forall (fun b => (b_time b < now + scheduleAheadTime)%Q)
         (new_beats s (scheduler_loop fuel cl now s)).
Proof.
  revert s; induction fuel as [|fuel IH]; intros s; simpl.
  - unfold new_beats. by rewrite drop_all.
  - destruct (due now s) eqn:E.
    + destruct (scheduler_loop_beats fuel cl now (schedule_beat cl now s)) as (l & Hl & _).
      destruct (schedule_beat_effect cl now s) as [_ _ _ _ _ _ _ _ _ _ _ Hb].
      specialize (IH (schedule_beat cl now s)).
      rewrite (new_beats_app _ _ l Hl) in IH.
      rewrite (new_beats_app s _ ([_] ++ l)) by (by rewrite Hl, Hb, <- app_assoc).
      constructor; [|done]. simpl.
      unfold due in E. apply Bool.negb_true_iff in E.
      destruct (Qlt_le_dec (nextNoteTimeRef (refs s)) (now + scheduleAheadTime)) as [|H];
        [done|].
      apply Qle_bool_iff in H. congruence.
    + unfold new_beats. by rewrite drop_all.
Qed.

Lemma trace_time_at cl t c l t' c' i b :
  trace_from cl t c l t' c' -> l !! i = Some b ->
  (b_time b == t + inject_Z (Z.of_nat i) * (60 / cl_tempo cl))%Q.
Proof.
  intros Htr; revert i.
  induction Htr as [|t c b0 l0 t' c' Ht0 Hc0 Hok Hl0 IH]; intros i Hi; [done|].
  destruct i as [|i]; simpl in Hi.
  - injection Hi as <-. rewrite Ht0. change (inject_Z (Z.of_nat 0)) with 0%Q. ring.
  - rewrite (IH i Hi). rewrite Nat2Z.inj_succ. unfold Z.succ.
    rewrite inject_Z_plus. change (inject_Z 1) with 1%Q. ring.
Qed.

Lemma trace_end_cursor cl t c l t' c' :
  trace_from cl t c l t' c' -> c' = Nat.iter (length l) next_cursor c.
Proof.
  induction 1 as [|t c b0 l0 t' c' Ht0 Hc0 Hok Hl0 IH]; [done|].
  rewrite IH. cbn [length]. by rewrite Nat.iter_succ_r.
Qed.

(** X3.  One poll at clock [now], with a positive tempo, schedules the
    beats that are due and no others: every beat it schedules has an
    audio time earlier than [now + 0.1], and it leaves the next beat at
    [now + 0.1] or later.  The beats start at the cursor and time the
    poll found, follow each other with no step skipped and strictly
    later times, however late the poll; a poll that finds nothing due
    changes nothing. *)
Theorem poll_schedules_what_is_due (cl : Closure) (now : Q) (s : App) :
  (0 < cl_tempo cl)%Q ->
  let s' := scheduler cl now s in
  let l := new_beats s s' in
  Forall (fun b => (b_time b < now + (1 # 10))%Q) l
  /\ (now + (1 # 10) <= nextNoteTimeRef (refs s'))%Q
  /\ (forall i b, l !! i = Some b ->
        b_cursor b = Nat.iter i next_cursor (currentBeatRef (refs s))
        /\ (b_time b == nextNoteTimeRef (refs s)
                        + inject_Z (Z.of_nat i) * (60 / cl_tempo cl))%Q)
  /\ (forall i b1 b2, l !! i = Some b1 -> l !! S i = Some b2 ->
        (b_time b1 < b_time b2)%Q)
  /\ currentBeatRef (refs s') = Nat.iter (length l) next_cursor (currentBeatRef (refs s))
  /\ (due now s = false -> s' = s).
Proof.
  intros Hpos s' l. pose proof (seconds_per_beat_pos cl Hpos) as Hd.
  destruct (scheduler_loop_beats (scheduler_fuel cl now s) cl now s) as (l' & Hl & Htr).
  fold (scheduler cl now s) in Hl, Htr. fold s' in Hl, Htr.
  assert (l = l') as <- by (by apply new_beats_app).
  split; [apply scheduler_loop_window|].
  split.
  { pose proof (scheduler_exits cl now s Hpos) as Hex. fold s' in Hex.
    unfold due in Hex. by apply Bool.negb_false_iff, Qle_bool_iff in Hex. }
  split.
  { intros i b Hi. destruct (trace_cursor _ _ _ _ _ _ _ _ Htr Hi) as [Hc _].
    split; [done|]. by apply (trace_time_at _ _ _ _ _ _ _ _ Htr). }
  split.
  { intros i b1 b2 H1 H2.
    pose proof (trace_spacing _ _ _ _ _ _ _ _ _ Htr H1 H2) as E.
    set (d := (60 / cl_tempo cl)%Q) in *. lra. }
  split.
  { by apply (trace_end_cursor _ _ _ _ _ _ Htr). }
  { intros Hn. by apply scheduler_not_due. }
Qed.

Lemma poll_schedules_what_is_due_witness :
  let cl := closure_of (hooks mid_count_in) in
  let s' := scheduler cl 3 mid_count_in in
  let l := new_beats mid_count_in s' in
  Forall (fun b => (b_time b < 3 + (1 # 10))%Q) l
  /\ (3 + (1 # 10) <= nextNoteTimeRef (refs s'))%Q
  /\ (forall i b, l !! i = Some b ->
        b_cursor b = Nat.iter i next_cursor (currentBeatRef (refs mid_count_in))
        /\ (b_time b == nextNoteTimeRef (refs mid_count_in)
                        + inject_Z (Z.of_nat i) * (60 / cl_tempo cl))%Q)
  /\ (forall i b1 b2, l !! i = Some b1 -> l !! S i = Some b2 ->
        (b_time b1 < b_time b2)%Q)
  /\ currentBeatRef (refs s')
     = Nat.iter (length l) next_cursor (currentBeatRef (refs mid_count_in))
  /\ (due 3 mid_count_in = false -> s' = mid_count_in).
Proof.
  apply (poll_schedules_what_is_due (closure_of (hooks mid_count_in)) 3 mid_count_in).
  vm_compute. reflexivity.
Defined.

(** ** Sound and log *)

Lemma clicking_snoc l b :
  clicking (l ++ [b]) = clicking l ++ (if b_click b then [b] else []).
Proof.
  unfold clicking. rewrite filter_app. f_equal.
  rewrite filter_cons, filter_nil. destruct (b_click b); by case_decide.
Qed.

Lemma schedule_beat_sound cl now s :
  (sound_matches_log s /\ audioContextRef (refs s) = true) ->
  sound_matches_log (schedule_beat cl now s)
  /\ audioContextRef (refs (schedule_beat cl now s)) = true.
Proof.
  intros [[Ht Hf] Hctx].
  destruct (schedule_beat_effect cl now s) as [_ _ _ Ha _ _ _ _ _ _ _ Hb].
  split; [|by rewrite Ha].
  unfold sound_matches_log.
  rewrite (schedule_beat_oscillators cl now s Hctx), Hb, clicking_snoc, !fmap_app, Ht, Hf.
  cbn [b_click].
  destruct (currentBeatRef (refs s) <? 0); [done|].
  destruct (pattern_at (cl_pattern cl) (currentBeatRef (refs s))); done.
Qed.

Lemma render_oscillators now s :
  oscillators (rt (render now s)) = oscillators (rt s).
Proof.
  destruct (deps_changed (effectDeps (rt s)) (deps_of (hooks s))) eqn:E.
  - destruct (isPlaying (hooks s)) eqn:Hp.
    + by destruct (render_play_fields now s E Hp) as (_ & _ & _ & -> & _).
    + by destruct (render_stop_fields now s E Hp) as (_ & _ & _ & -> & _).
  - unfold render. simpl. rewrite E. done.
Qed.

Lemma step_sound now e s :
  Inv s -> sound_matches_log s -> sound_matches_log (step now e s).
Proof.
  intros Hs Hsnd.
  assert (forall s0, oscillators (rt s0) = oscillators (rt s) -> beats s0 = beats s ->
            sound_matches_log (render now s0)) as Hrender.
  { intros s0 Ho Hb. unfold sound_matches_log.
    destruct (render_keeps now s0) as (_ & _ & _ & _ & -> & _).
    rewrite render_oscillators, Ho, Hb. done. }
  destruct e as [|v|v|i|k|id]; cbn [step].
  - by apply Hrender.
  - unfold handleTempoChange. destruct (Qeq_bool _ _); [done|]. by apply Hrender.
  - unfold handleVolumeChange. destruct (Qeq_bool _ _); [done|]. by apply Hrender.
  - unfold handlePatternToggle. cbv zeta. by apply Hrender.
  - unfold handlePresetChange. destruct (PRESET_PATTERNS k); [|done].
    apply Hrender; by destruct (_ =? _)%nat.
  - unfold fire.
    destruct (timers (rt s) !! id) as [[d [|vb tid]|p cl]|] eqn:Hid;
      cbn [run_callback]; try done.
    + by apply Hrender.
    + by apply Hrender.
    + destruct (inv_settled s Hs) as [_ _ Ha Hcur _].
      destruct (Hcur _ _ _ Hid) as [Hp _].
      apply (scheduler_loop_keeps
               (fun s => sound_matches_log s /\ audioContextRef (refs s) = true)
               cl now (schedule_beat_sound cl now)); auto.
Qed.

(** X4.  Whatever has happened since the page was mounted, the
    oscillators started so far are, in order, exactly the beats that
    called [playClick]: each starts at its beat's audio time, at 880 Hz
    when the beat's visual index is a multiple of 4 and at 660 Hz
    otherwise.  Nothing else ever starts an oscillator, and no clicking
    beat goes without one. *)
Theorem every_click_is_a_logged_beat (s : App) :
  reachable s ->
  click_time <$> oscillators (rt s) = b_time <$> clicking (beats s)
  /\ click_freq <$> oscillators (rt s)
     = (fun b => if Z.rem (b_visual b) 4 =? 0 then 880 else 660) <$> clicking (beats s)
  /\ length (oscillators (rt s)) = length (clicking (beats s)).
Proof.
  intros Hr.
  assert (sound_matches_log s) as [Ht Hf].
  { induction Hr as [|now e s Hr IH]; [done|].
    apply step_sound; [by apply reachable_inv|done]. }
  split; [done|]. split; [done|].
  apply (f_equal length) in Ht. by rewrite !length_fmap in Ht.
Qed.

Lemma every_click_is_a_logged_beat_witness :
  click_time <$> oscillators (rt tresillo_running)
  = b_time <$> clicking (beats tresillo_running)
  /\ click_freq <$> oscillators (rt tresillo_running)
     = (fun b => if Z.rem (b_visual b) 4 =? 0 then 880 else 660)
         <$> clicking (beats tresillo_running)
  /\ length (oscillators (rt tresillo_running))
     = length (clicking (beats tresillo_running)).
Proof.
  apply every_click_is_a_logged_beat. apply reachable_run, reach_mounted.
Defined.

(** ** Volume *)

Lemma schedule_beat_gain cl now s :
  exists l, oscillators (rt (schedule_beat cl now s)) = oscillators (rt s) ++ l
    /\ Forall (fun o => click_gain o = cl_volume cl) l.
Proof.
  unfold schedule_beat, playClick, addTimer.
  destruct (currentBeatRef (refs s) <? 0);
    destruct ((currentBeatRef (refs s) =? 0) && isCountingInRef (refs s));
    destruct (pattern_at (cl_pattern cl) (currentBeatRef (refs s)));
    destruct (audioContextRef (refs s)) eqn:Hctx; simpl;
    rewrite ?Hctx; simpl;
    destruct (16 <=? currentBeatRef (refs s) + 1); simpl;
    first [ by (exists []; rewrite app_nil_r)
          | by (eexists [_]; split; [reflexivity|repeat constructor]) ].
Qed.

Lemma scheduler_loop_gain fuel cl now s :
  exists l, oscillators (rt (scheduler_loop fuel cl now s)) = oscillators (rt s) ++ l
    /\ Forall (fun o => click_gain o = cl_volume cl) l.
Proof.
  revert s; induction fuel as [|fuel IH]; intros s; simpl.
  - exists []. by rewrite app_nil_r.
  - destruct (due now s); [|exists []; by rewrite app_nil_r].
    destruct (schedule_beat_gain cl now s) as (l1 & H1 & F1).
    destruct (IH (schedule_beat cl now s)) as (l2 & H2 & F2).
    exists (l1 ++ l2). split; [by rewrite H2, H1, app_assoc|].
    by apply Forall_app.
Qed.

(** X5.  Whichever timer fires, every oscillator it starts has the
    volume the slider shows at that moment as its gain: after a volume
    change no click is started with the old volume. *)
Theorem clicks_use_current_volume (s : App) (id : nat) (now : Q) :
  reachable s ->
  exists l,
    oscillators (rt (step now (TimerFires id) s)) = oscillators (rt s) ++ l
    /\ Forall (fun o => click_gain o = volume (hooks s)) l.
Proof.
  intros Hr. pose proof (reachable_inv s Hr) as Hs. cbn [step]. unfold fire.
  destruct (timers (rt s) !! id) as [[d [|vb tid]|p cl]|] eqn:Hid; cbn [run_callback].
  - exists []. rewrite render_oscillators, app_nil_r. done.
  - exists []. rewrite render_oscillators, app_nil_r. done.
  - destruct (st_current s (inv_settled s Hs) _ _ _ Hid) as [_ ->].
    apply scheduler_loop_gain.
  - exists []. by rewrite app_nil_r.
Qed.

Lemma clicks_use_current_volume_witness :
  let s := step (12 # 5) (VolumeChange (4 # 5)) after_count_in in
  exists l,
    oscillators (rt (step 4 (TimerFires 8%nat) s)) = oscillators (rt s) ++ l
    /\ Forall (fun o => click_gain o = volume (hooks s)) l.
Proof.
  apply clicks_use_current_volume.
  apply reach_step, reachable_run, reach_mounted.
Defined.

(** ** Settings changed while stopped *)

(** X6.  While the transport is stopped, moving the tempo or volume
    slider, toggling a pattern step or choosing a preset does not touch
    the scheduler: cursor and next-beat time keep their values, no beat
    is scheduled, no sound starts, no timer is registered, the
    transport stays stopped and no beat is highlighted. *)
Theorem settings_while_stopped (s : App) (now : Q) (e : Event) :
  reachable s ->
  isPlaying (hooks s) = false ->
  in_session e -> (forall id, e <> TimerFires id) ->
  let s' := step now e s in
  currentBeatRef (refs s') = currentBeatRef (refs s)
  /\ nextNoteTimeRef (refs s') = nextNoteTimeRef (refs s)
  /\ beats s' = beats s
  /\ oscillators (rt s') = oscillators (rt s)
  /\ nextHandle (rt s') = nextHandle (rt s)
  /\ isPlaying (hooks s') = false
  /\ currentBeat (hooks s') = -1
  /\ no_interval s' /\ no_visual s'.
Proof.
  intros Hr Hp He Hne s'.
  pose proof (reachable_inv s Hr) as Hs.
  assert (Inv s') as Hs' by (by apply step_inv).
  assert (isPlaying (hooks s') = false) as Hp' by (unfold s'; by rewrite step_isPlaying).
  destruct (stopped_quiet s' Hs' Hp') as (Hb' & _ & Hnv' & Hni').
  assert (currentBeatRef (refs s') = currentBeatRef (refs s)
          /\ nextNoteTimeRef (refs s') = nextNoteTimeRef (refs s)
          /\ beats s' = beats s
          /\ oscillators (rt s') = oscillators (rt s)
          /\ nextHandle (rt s') = nextHandle (rt s)) as (? & ? & ? & ? & ?); [|done].
  unfold s' in *. clear s' Hs' Hp' Hb' Hnv' Hni'.
  destruct (step_as_render now e s Hs Hne) as [->|(s0 & -> & Hsg & Hp0 & Hch)]; [done|].
  assert (is_play_stop e = false) as Hnp by (destruct e; try done; by destruct He).
  rewrite Hnp, Hp in Hp0.
  destruct Hsg as [Hrefs Htm Hh Ho _ Hb _ _ _].
  destruct (render_keeps now s0) as (_ & _ & _ & _ & -> & _).
  rewrite render_oscillators, Ho, Hb.
  destruct Hch as [Hch|(Hd & _ & _)].
  - destruct (render_stop_fields now s0 Hch Hp0) as (_ & -> & _ & _ & _ & _ & -> & ->).
    by rewrite Hrefs, Hh.
  - rewrite render_unchanged by done. simpl. by rewrite Hrefs, Hh.
Qed.

Lemma settings_while_stopped_witness :
  let s := step 5 PlayStop after_count_in in
  let s' := step 6 (PatternToggle 2) s in
  currentBeatRef (refs s') = currentBeatRef (refs s)
  /\ nextNoteTimeRef (refs s') = nextNoteTimeRef (refs s)
  /\ beats s' = beats s
  /\ oscillators (rt s') = oscillators (rt s)
  /\ nextHandle (rt s') = nextHandle (rt s)
  /\ isPlaying (hooks s') = false
  /\ currentBeat (hooks s') = -1
  /\ no_interval s' /\ no_visual s'.
Proof.
  apply (settings_while_stopped (step 5 PlayStop after_count_in) 6 (PatternToggle 2)).
  - apply reach_step, reachable_run, reach_mounted.
  - reflexivity.
  - discriminate.
  - discriminate.
Defined.

(** ** The pattern *)

Lemma toggle_items_length (i : nat) (items : list bool) :
  (i < length items)%nat -> length (toggle_items i items) = length items.
Proof.
  intros Hi. destruct (lookup_lt_is_Some_2 items i Hi) as [b Hb].
  unfold toggle_items. rewrite Hb. by rewrite length_insert.
Qed.

(** X7.  Toggling a step that exists flips that step and only that
    step, keeps the number of steps, and toggling it again restores the
    pattern. *)
Theorem toggle_flips_one_step (i : nat) (items : list bool) :
  (i < length items)%nat ->
  length (toggle_items i items) = length items
  /\ toggle_items i items !! i = negb <$> items !! i
  /\ (forall j, j <> i -> toggle_items i items !! j = items !! j)
  /\ toggle_items i (toggle_items i items) = items.
Proof.
  intros Hi. destruct (lookup_lt_is_Some_2 items i Hi) as [b Hb].
  unfold toggle_items at 1 2 3. rewrite Hb.
  split; [by rewrite length_insert|]. split.
  { rewrite list_lookup_insert_eq by done. done. }
  split.
  { intros j Hj. by rewrite list_lookup_insert_ne. }
  unfold toggle_items. rewrite Hb.
  rewrite list_lookup_insert_eq by done.
  rewrite list_insert_insert_eq, Bool.negb_involutive.
  by apply list_insert_id.
Qed.

Lemma toggle_flips_one_step_witness :
  length (toggle_items 3 (pat_items PRESET_tresillo)) = length (pat_items PRESET_tresillo)
  /\ toggle_items 3 (pat_items PRESET_tresillo) !! 3%nat
     = negb <$> pat_items PRESET_tresillo !! 3%nat
  /\ (forall j, j <> 3%nat ->
        toggle_items 3 (pat_items PRESET_tresillo) !! j = pat_items PRESET_tresillo !! j)
  /\ toggle_items 3 (toggle_items 3 (pat_items PRESET_tresillo))
     = pat_items PRESET_tresillo.
Proof.
  apply (toggle_flips_one_step 3 (pat_items PRESET_tresillo)).
  vm_compute. lia.
Defined.

Lemma preset_length key p :
  PRESET_PATTERNS key = Some p -> length (pat_items p) = 16%nat.
Proof.
  unfold PRESET_PATTERNS.
  repeat (destruct (String.eqb key _); [intros [= <-]; reflexivity|]).
  discriminate.
Qed.

Lemma step_pattern_length now e s :
  from_ui s e ->
  length (pat_items (clickPattern (hooks s))) = 16%nat ->
  length (pat_items (clickPattern (hooks (step now e s)))) = 16%nat.
Proof.
  intros Hui Hlen. destruct e as [|v|v|i|k|id]; cbn [step].
  - unfold handlePlayStop.
    match goal with |- context [render now ?x] =>
      destruct (render_keeps now x) as (_ & _ & _ & -> & _) end. done.
  - unfold handleTempoChange. destruct (Qeq_bool _ _); [done|].
    match goal with |- context [render now ?x] =>
      destruct (render_keeps now x) as (_ & _ & _ & -> & _) end. done.
  - unfold handleVolumeChange. destruct (Qeq_bool _ _); [done|].
    match goal with |- context [render now ?x] =>
      destruct (render_keeps now x) as (_ & _ & _ & -> & _) end. done.
  - unfold handlePatternToggle. cbv zeta.
    match goal with |- context [render now ?x] =>
      destruct (render_keeps now x) as (_ & _ & _ & -> & _) end.
    simpl in *. by rewrite (toggle_items_length i _ Hui).
  - unfold handlePresetChange. destruct (PRESET_PATTERNS k) as [p|] eqn:Hk; [|done].
    match goal with |- context [render now ?x] =>
      destruct (render_keeps now x) as (_ & _ & _ & -> & _) end.
    destruct (_ =? _)%nat; simpl; [done|]. by apply (preset_length k).
  - unfold fire.
    destruct (timers (rt s) !! id) as [[d [|vb tid]|p cl]|]; cbn [run_callback]; try done.
    + match goal with |- context [render now ?x] =>
        destruct (render_keeps now x) as (_ & _ & _ & -> & _) end. done.
    + match goal with |- context [render now ?x] =>
        destruct (render_keeps now x) as (_ & _ & _ & -> & _) end. done.
    + by destruct (scheduler_frame cl now s) as [-> _ _ _ _ _ _ _ _].
Qed.

(** X8.  Along any run the rendered page can produce (toggles come
    from the buttons of existing steps), the pattern always has exactly
    16 steps, whichever presets are chosen and steps toggled; so every
    cursor from 0 to 15 reads a step that exists. *)
Theorem pattern_keeps_sixteen_steps (evs : list (Q * Event)) :
  ui_run evs mounted ->
  let s := run evs mounted in
  length (pat_items (clickPattern (hooks s))) = 16%nat
  /\ forall c, 0 <= c <= 15 ->
       pat_items (clickPattern (hooks s)) !! Z.to_nat c
       = Some (pattern_at (pat_items (clickPattern (hooks s))) c).
Proof.
  intros Hui s.
  assert (length (pat_items (clickPattern (hooks s))) = 16%nat) as Hlen.
  { unfold s. clear s.
    assert (length (pat_items (clickPattern (hooks mounted))) = 16%nat) as H0 by done.
    revert Hui H0. generalize mounted as s.
    induction evs as [|[now e] evs IH]; intros s Hui H0; simpl in *; [done|].
    destruct Hui as [Hu1 Hu2]. apply IH; [done|]. by apply step_pattern_length. }
  split; [done|]. intros c Hc. unfold pattern_at.
  destruct (lookup_lt_is_Some_2 (pat_items (clickPattern (hooks s))) (Z.to_nat c))
    as [b ->]; [lia|done].
Qed.

Lemma pattern_keeps_sixteen_steps_witness :
  let s := run [(0, PresetChange "gallop"); (1, PatternToggle 15); (2, PlayStop);
                (3, PatternToggle 0); (4, TimerFires 3%nat)]%Q mounted in
  length (pat_items (clickPattern (hooks s))) = 16%nat
  /\ forall c, 0 <= c <= 15 ->
       pat_items (clickPattern (hooks s)) !! Z.to_nat c
       = Some (pattern_at (pat_items (clickPattern (hooks s))) c).
Proof.
  apply (pattern_keeps_sixteen_steps
           [(0, PresetChange "gallop"); (1, PatternToggle 15); (2, PlayStop);
            (3, PatternToggle 0); (4, TimerFires 3%nat)]%Q).
  vm_compute. repeat split; lia.
Defined.

(** ** The preset shown *)

Lemma render_label now s :
  currentPreset (hooks (render now s)) = currentPreset (hooks s)
  /\ nextAddr (rt (render now s)) = nextAddr (rt s).
Proof.
  destruct (deps_changed (effectDeps (rt s)) (deps_of (hooks s))) eqn:E.
  - rewrite render_changed by done. cbv zeta.
    destruct (isPlaying (hooks s)) eqn:Hp.
    + rewrite scheduler_effect_play
        by (destruct (effectCleanup (rt s)); [rewrite effect_cleanup_eq|]; done).
      cbv zeta. rewrite clearSchedulerInterval_eq.
      destruct (effectCleanup (rt s)); [rewrite effect_cleanup_eq|]; done.
    + rewrite scheduler_effect_stop
        by (destruct (effectCleanup (rt s)); [rewrite effect_cleanup_eq|]; done).
      rewrite effect_cleanup_eq.
      destruct (effectCleanup (rt s)); [rewrite effect_cleanup_eq|]; done.
  - unfold render. simpl. rewrite E. done.
Qed.

Lemma preset_by_addr k1 k2 p1 p2 :
  PRESET_PATTERNS k1 = Some p1 -> PRESET_PATTERNS k2 = Some p2 ->
  pat_addr p1 = pat_addr p2 -> p1 = p2.
Proof.
  unfold PRESET_PATTERNS.
  repeat (destruct (String.eqb k1 _); [intros [= <-]|]); try discriminate;
    repeat (destruct (String.eqb k2 _); [intros [= <-]|]); try discriminate;
    intros H; try reflexivity; vm_compute in H; discriminate.
Qed.

Lemma label_step now e s :
  label_inv s -> label_inv (step now e s).
Proof.
  intros (Hheap & Hold & Hlab).
  destruct e as [|v|v|i|k|id]; cbn [step].
  - unfold handlePlayStop.
    match goal with |- context [render now ?x] =>
      destruct (render_keeps now x) as (_ & _ & _ & Hcp & _);
      destruct (render_label now x) as (Hl & Ha) end.
    unfold label_inv. rewrite Hcp, Hl, Ha. done.
  - unfold handleTempoChange. destruct (Qeq_bool _ _); [done|].
    match goal with |- context [render now ?x] =>
      destruct (render_keeps now x) as (_ & _ & _ & Hcp & _);
      destruct (render_label now x) as (Hl & Ha) end.
    unfold label_inv. rewrite Hcp, Hl, Ha. done.
  - unfold handleVolumeChange. destruct (Qeq_bool _ _); [done|].
    match goal with |- context [render now ?x] =>
      destruct (render_keeps now x) as (_ & _ & _ & Hcp & _);
      destruct (render_label now x) as (Hl & Ha) end.
    unfold label_inv. rewrite Hcp, Hl, Ha. done.
  - unfold handlePatternToggle. cbv zeta.
    match goal with |- context [render now ?x] =>
      destruct (render_keeps now x) as (_ & _ & _ & Hcp & _);
      destruct (render_label now x) as (Hl & Ha) end.
    unfold label_inv. rewrite Hcp, Hl, Ha. simpl.
    split; [lia|]. split; [|by left]. intros H. lia.
  - unfold handlePresetChange. destruct (PRESET_PATTERNS k) as [p|] eqn:Hk; [|done].
    match goal with |- context [render now ?x] =>
      destruct (render_keeps now x) as (_ & _ & _ & Hcp & _);
      destruct (render_label now x) as (Hl & Ha) end.
    unfold label_inv. rewrite Hcp, Hl, Ha.
    destruct (_ =? _)%nat eqn:E; simpl.
    + apply Nat.eqb_eq in E. split; [done|]. split; [done|]. right.
      pose proof (preset_addr k p Hk) as Hlt. rewrite E in Hlt.
      destruct (Hold Hlt) as (k' & Hk'). rewrite Hk. f_equal.
      by apply (preset_by_addr k k').
    + split; [done|]. split; [by exists k|by right].
  - unfold fire.
    destruct (timers (rt s) !! id) as [[d [|vb tid]|p cl]|]; cbn [run_callback]; try done.
    + match goal with |- context [render now ?x] =>
        destruct (render_keeps now x) as (_ & _ & _ & Hcp & _);
        destruct (render_label now x) as (Hl & Ha) end.
      unfold label_inv. rewrite Hcp, Hl, Ha. done.
    + match goal with |- context [render now ?x] =>
        destruct (render_keeps now x) as (_ & _ & _ & Hcp & _);
        destruct (render_label now x) as (Hl & Ha) end.
      unfold label_inv. rewrite Hcp, Hl, Ha. done.
    + destruct (scheduler_frame cl now s) as [Hh _ _ _ _ _ _ Ha _].
      unfold label_inv. rewrite Hh, Ha. done.
Qed.

Lemma mounted_label : label_inv mounted.
Proof.
  split; [vm_compute; lia|]. split.
  - intros _. exists "standard"%string. reflexivity.
  - right. reflexivity.
Qed.

(** X19.  The preset menu never misnames the pattern.  After any
    events, [currentPreset] is either [custom] or the key of the preset
    whose array [clickPattern] is; a toggle always leaves [custom],
    and choosing a preset again after toggling restores that preset's
    steps. *)
Theorem preset_names_the_pattern (evs : list (Q * Event)) :
  let s := run evs mounted in
  (currentPreset (hooks s) = "custom"%string
   \/ PRESET_PATTERNS (currentPreset (hooks s)) = Some (clickPattern (hooks s)))
  /\ (forall now i, currentPreset (hooks (step now (PatternToggle i) s)) = "custom"%string)
  /\ (forall now key p, PRESET_PATTERNS key = Some p ->
        clickPattern (hooks (step now (PresetChange key) s)) = p
        /\ currentPreset (hooks (step now (PresetChange key) s)) = key).
Proof.
  intros s.
  assert (label_inv s) as Hs.
  { unfold s. generalize mounted_label. generalize mounted as s0.
    induction evs as [|[now e] evs IH]; intros s0 H0; simpl; [done|].
    by apply IH, label_step. }
  split; [by destruct Hs as (_ & _ & ?)|]. split.
  - intros now i. cbn [step]. unfold handlePatternToggle. cbv zeta.
    match goal with |- context [render now ?x] =>
      destruct (render_label now x) as (-> & _) end. done.
  - intros now key p Hk.
    pose proof (label_step now (PresetChange key) s Hs) as Hs'.
    cbn [step] in *. unfold handlePresetChange in *. rewrite Hk in *.
    match goal with |- context [render now ?x] =>
      destruct (render_keeps now x) as (_ & _ & _ & Hcp & _);
      destruct (render_label now x) as (Hl & Ha) end.
    rewrite Hl. split; [|done].
    destruct Hs' as (_ & _ & [Hc|Hc]).
    + rewrite Hl in Hc. simpl in Hc. subst key. vm_compute in Hk. discriminate.
    + rewrite Hl in Hc. simpl in Hc. rewrite Hk in Hc. by injection Hc.
Qed.

(** ** Sound and light *)







(** * The recorder *)

Lemma find_first_supported (f : string -> bool) l ty :
  List.find f l = Some ty -> first_supported f l ty.
Proof.
  induction l as [|x l IH]; simpl; [done|].
  destruct (f x) eqn:E.
  - intros [= <-]. exists [], l. done.
  - intros H. destruct (IH H) as (b & a & -> & Hf & Hb).
    exists (x :: b), a. split; [done|]. split; [done|]. by constructor.
Qed.

Lemma find_supported_elem (f : string -> bool) l ty :
  List.find f l = Some ty -> ty ∈ l.
Proof.
  intros H. destruct (find_first_supported f l ty H) as (b & a & -> & _).
  set_solver.
Qed.

Lemma lookup_open_stream (m : gmap nat bool) ids id :
  foldr (fun id m => <[id := true]> m) m ids !! id
  = if decide (id ∈ ids) then Some true else m !! id.
Proof.
  induction ids as [|x ids IH]; simpl.
  - destruct (decide (id ∈ [])) as [H|]; [by apply elem_of_nil in H|done].
  - destruct (decide (x = id)) as [->|Hne].
    + rewrite lookup_insert_eq.
      destruct (decide (id ∈ id :: ids)) as [|Hn]; [done|].
      exfalso. apply Hn. by left.
    + rewrite lookup_insert_ne by done. rewrite IH.
      destruct (decide (id ∈ ids)) as [Hin|Hnin];
        destruct (decide (id ∈ x :: ids)) as [Hin'|Hnin']; try done.
      * exfalso. apply Hnin'. by right.
      * apply elem_of_cons in Hin' as [->|]; done.
Qed.


(** ** One press of the record button, case by case *)

Lemma stopRecording_off r a ra err ac mr ch tr nt c nu :
  (forall mime, mr <> Some (Recorder.mkMediaRecorder mime Recorder.Recording)) ->
  Recorder.stopRecording (Recorder.mkState r a ra err ac None mr ch tr nt c nu)
  = Recorder.mkState r false ra err ac None mr ch tr nt c nu.
Proof.
  intros Hm. rewrite stopRecording_idle; [reflexivity|reflexivity|exact Hm].
Qed.

Lemma startRecording_ok env n ty r a ra err ac st mr ch tr nt c nu :
  Recorder.getUserMedia env = Some n ->
  Recorder.supportedType env = Some ty ->
  Recorder.startRecording env (Recorder.mkState r a ra err ac st mr ch tr nt c nu)
  = Recorder.mkState r true ra err true (Some (seq nt n))
      (Some (Recorder.mkMediaRecorder ty Recorder.Recording)) []
      (foldr (fun id m => <[id := true]> m) tr (seq nt n)) (nt + n) (S c) nu.
Proof.
  intros Hg Hty. unfold Recorder.startRecording, Recorder.open_stream.
  rewrite Hg, Hty. reflexivity.
Qed.

Lemma startRecording_denied env r a ra err ac st mr ch tr nt c nu :
  Recorder.getUserMedia env = None ->
  Recorder.startRecording env (Recorder.mkState r a ra err ac st mr ch tr nt c nu)
  = Recorder.mkState false a ra (Some Recorder.ErrMicrophoneDenied) ac st mr ch tr nt c nu.
Proof.
  intros Hg. unfold Recorder.startRecording. rewrite Hg. reflexivity.
Qed.

Lemma startRecording_nofmt env n r a ra err ac st mr ch tr nt c nu :
  Recorder.getUserMedia env = Some n ->
  Recorder.supportedType env = None ->
  Recorder.startRecording env (Recorder.mkState r a ra err ac st mr ch tr nt c nu)
  = Recorder.mkState false false ra (Some Recorder.ErrUnsupportedFormat) true
      (Some (seq nt n)) mr ch
      (foldr (fun id m => <[id := false]> m)
         (foldr (fun id m => <[id := true]> m) tr (seq nt n)) (seq nt n))
      (nt + n) c nu.
Proof.
  intros Hg Hty. rewrite (startRecording_unsupported env _ n Hg Hty). reflexivity.
Qed.

Lemma stopRecording_stream r a ra err ac stream mr ch tr nt c nu :
  (forall mime, mr <> Some (Recorder.mkMediaRecorder mime Recorder.Recording)) ->
  Recorder.stopRecording (Recorder.mkState r a ra err ac (Some stream) mr ch tr nt c nu)
  = Recorder.mkState r false ra err ac None mr ch
      (foldr (fun id m => <[id := false]> m) tr stream) nt c nu.
Proof.
  intros Hm. rewrite stopRecording_not_recording by exact Hm.
  cbn [Recorder.streamRef]. rewrite stop_tracks_eq. reflexivity.
Qed.

Lemma stopRecording_recording r a ra err ac stream mime ch tr nt c nu :
  Recorder.stopRecording
    (Recorder.mkState r a ra err ac (Some stream)
       (Some (Recorder.mkMediaRecorder mime Recorder.Recording)) ch tr nt c nu)
  = Recorder.mkState r false
      (match ch with [] => ra | _ :: _ => Some (nu, mime) end)
      (match ch with [] => err | _ :: _ => None end)
      ac None (Some (Recorder.mkMediaRecorder mime Recorder.Inactive)) []
      (foldr (fun id m => <[id := false]> m) tr stream) nt c
      (match ch with [] => nu | _ :: _ => S nu end).
Proof.
  unfold Recorder.stopRecording. cbn [Recorder.mediaRecorderRef].
  unfold Recorder.onstop.
  destruct ch; cbn -[foldr]; rewrite stop_tracks_eq; reflexivity.
Qed.

Ltac fields :=
  cbv beta iota delta
    [Recorder.set_recordingError Recorder.set_recordedAudio Recorder.set_isRecording
     Recorder.set_analyserNode Recorder.set_streamRef Recorder.set_tracks
     Recorder.set_nextTrack Recorder.set_audioContext Recorder.set_recordedChunksRef
     Recorder.isRecording Recorder.analyserNode Recorder.recordedAudio
     Recorder.recordingError Recorder.audioContext Recorder.streamRef
     Recorder.mediaRecorderRef Recorder.recordedChunksRef Recorder.tracks
     Recorder.nextTrack Recorder.constructed Recorder.nextUrl negb andb].

Ltac destruct_fields :=
  cbv beta iota delta
    [Recorder.isRecording Recorder.analyserNode Recorder.recordedAudio
     Recorder.recordingError Recorder.audioContext Recorder.streamRef
     Recorder.mediaRecorderRef Recorder.recordedChunksRef Recorder.tracks
     Recorder.nextTrack Recorder.constructed Recorder.nextUrl] in *;
  subst.

Ltac toggle_open := unfold Recorder.handleRecordToggle; cbv zeta; fields.

Ltac rerun_open := unfold Recorder.effect_rerun; cbv zeta.

Lemma toggle_start env s n ty :
  Recorder.isRecording s = false ->
  recorder_off s ->
  Recorder.getUserMedia env = Some n ->
  Recorder.supportedType env = Some ty ->
  Recorder.handleRecordToggle env s
  = Recorder.mkState true true None None true
      (Some (seq (Recorder.nextTrack s) n))
      (Some (Recorder.mkMediaRecorder ty Recorder.Recording)) []
      (foldr (fun id m => <[id := true]> m) (Recorder.tracks s)
         (seq (Recorder.nextTrack s) n))
      (Recorder.nextTrack s + n) (S (Recorder.constructed s)) (Recorder.nextUrl s).
Proof.
  intros Hrec (Hs & Hm & Ha & Hc & _) Hg Hty.
  destruct s as [r a ra err ac st mr ch tr nt c nu]. destruct_fields.
  assert (forall ra',
    Recorder.effect_rerun env (Recorder.mkState true false ra' None ac None mr [] tr nt c nu)
    = Recorder.mkState true true ra' None true (Some (seq nt n))
      (Some (Recorder.mkMediaRecorder ty Recorder.Recording)) []
      (foldr (fun id m => <[id := true]> m) tr (seq nt n)) (nt + n) (S c) nu) as Hre.
  { intros ra'. rerun_open. rewrite stopRecording_off by exact Hm.
    fields. by apply startRecording_ok. }
  toggle_open.
  destruct ra as [[u t]|].
  - rewrite bool_decide_eq_true_2 by (eexists; reflexivity).
    fields. rewrite !Hre. reflexivity.
  - rewrite bool_decide_eq_false_2 by (intros [? ?]; discriminate).
    fields. rewrite !Hre. reflexivity.
Qed.

Lemma toggle_denied env s :
  Recorder.isRecording s = false ->
  recorder_off s ->
  Recorder.getUserMedia env = None ->
  Recorder.handleRecordToggle env s
  = Recorder.set_recordingError (Some Recorder.ErrMicrophoneDenied)
      (Recorder.set_recordedAudio None s).
Proof.
  intros Hrec (Hs & Hm & Ha & Hc & _) Hg.
  destruct s as [r a ra err ac st mr ch tr nt c nu]. destruct_fields.
  assert (forall ra',
    Recorder.effect_rerun env (Recorder.mkState true false ra' None ac None mr [] tr nt c nu)
    = Recorder.mkState false false ra' (Some Recorder.ErrMicrophoneDenied)
        ac None mr [] tr nt c nu) as Hre.
  { intros ra'. rerun_open. rewrite stopRecording_off by exact Hm.
    fields. by apply startRecording_denied. }
  assert (forall ra' e,
    Recorder.effect_rerun env (Recorder.mkState false false ra' e ac None mr [] tr nt c nu)
    = Recorder.mkState false false ra' e ac None mr [] tr nt c nu) as Hre'.
  { intros ra' e. rerun_open. rewrite stopRecording_off by exact Hm.
    fields. by rewrite stopRecording_off by exact Hm. }
  toggle_open.
  destruct ra as [[u t]|].
  - rewrite bool_decide_eq_true_2 by (eexists; reflexivity).
    fields. rewrite !Hre. fields. rewrite Hre'. reflexivity.
  - rewrite bool_decide_eq_false_2 by (intros [? ?]; discriminate).
    fields. rewrite !Hre. fields. rewrite Hre'. reflexivity.
Qed.

Lemma toggle_unsupported env s n :
  Recorder.isRecording s = false ->
  recorder_off s ->
  Recorder.getUserMedia env = Some n ->
  Recorder.supportedType env = None ->
  Recorder.handleRecordToggle env s
  = Recorder.set_tracks
      (foldr (fun id m => <[id := false]> m)
         (foldr (fun id m => <[id := false]> m)
            (foldr (fun id m => <[id := true]> m) (Recorder.tracks s)
               (seq (Recorder.nextTrack s) n))
            (seq (Recorder.nextTrack s) n))
         (seq (Recorder.nextTrack s) n))
      (Recorder.set_nextTrack (Recorder.nextTrack s + n)
         (Recorder.set_audioContext true
            (Recorder.set_recordingError (Some Recorder.ErrUnsupportedFormat)
               (Recorder.set_recordedAudio None s)))).
Proof.
  intros Hrec (Hs & Hm & Ha & Hc & _) Hg Hty.
  destruct s as [r a ra err ac st mr ch tr nt c nu]. destruct_fields.
  assert (forall ra',
    Recorder.effect_rerun env (Recorder.mkState true false ra' None ac None mr [] tr nt c nu)
    = Recorder.mkState false false ra' (Some Recorder.ErrUnsupportedFormat) true
        (Some (seq nt n)) mr []
        (foldr (fun id m => <[id := false]> m)
           (foldr (fun id m => <[id := true]> m) tr (seq nt n)) (seq nt n))
        (nt + n) c nu) as Hre.
  { intros ra'. rerun_open. rewrite stopRecording_off by exact Hm.
    fields. by apply startRecording_nofmt. }
  assert (forall ra' e tr' nt',
    Recorder.effect_rerun env
      (Recorder.mkState false false ra' e true (Some (seq nt n)) mr [] tr' nt' c nu)
    = Recorder.mkState false false ra' e true None mr []
        (foldr (fun id m => <[id := false]> m) tr' (seq nt n)) nt' c nu) as Hre'.
  { intros ra' e tr' nt'. rerun_open. rewrite stopRecording_stream by exact Hm.
    fields. by rewrite stopRecording_off by exact Hm. }
  toggle_open.
  destruct ra as [[u t]|].
  - rewrite bool_decide_eq_true_2 by (eexists; reflexivity).
    fields. rewrite !Hre. fields. rewrite Hre'. reflexivity.
  - rewrite bool_decide_eq_false_2 by (intros [? ?]; discriminate).
    fields. rewrite !Hre. fields. rewrite Hre'. reflexivity.
Qed.

Lemma toggle_stop env s stream mime :
  Recorder.isRecording s = true ->
  Recorder.streamRef s = Some stream ->
  Recorder.mediaRecorderRef s = Some (Recorder.mkMediaRecorder mime Recorder.Recording) ->
  Recorder.handleRecordToggle env s
  = Recorder.mkState false false
      (match Recorder.recordedChunksRef s with
       | [] => Recorder.recordedAudio s
       | _ :: _ => Some (Recorder.nextUrl s, mime)
       end)
      None (Recorder.audioContext s) None
      (Some (Recorder.mkMediaRecorder mime Recorder.Inactive)) []
      (foldr (fun id m => <[id := false]> m) (Recorder.tracks s) stream)
      (Recorder.nextTrack s) (Recorder.constructed s)
      (match Recorder.recordedChunksRef s with
       | [] => Recorder.nextUrl s
       | _ :: _ => S (Recorder.nextUrl s)
       end).
Proof.
  intros Hrec Hs Hm.
  destruct s as [r a ra err ac st mr ch tr nt c nu]. destruct_fields.
  toggle_open. rerun_open. rewrite stopRecording_recording. fields.
  rewrite stopRecording_off by (intros m; discriminate).
  destruct ch; reflexivity.
Qed.

(** ** The recorder's invariant *)

Lemma fresh_inv : recorder_inv Recorder.fresh.
Proof.
  split; simpl; done.
Qed.

Lemma toggle_inv env s : recorder_inv s -> recorder_inv (Recorder.handleRecordToggle env s).
Proof.
  intros [Ht Hc Hm]. destruct (Recorder.isRecording s) eqn:Hrec.
  - destruct Hm as (stream & mime & Hs & Hmr & Hin & Ha & Hra & Herr & Hlive).
    rewrite (toggle_stop env s stream mime Hrec Hs Hmr). split; simpl.
    + intros id b H. rewrite lookup_stop_all in H.
      destruct (decide (id ∈ stream)) as [Hi|Hi]; [|by eapply Ht].
      apply Hlive in Hi. by eapply Ht.
    + intros url ty H. destruct (Recorder.recordedChunksRef s).
      * by rewrite Hra in H.
      * injection H as <- <-. split; [lia|done].
    + repeat split; try done. intros id. unfold live. simpl.
      rewrite lookup_stop_all. destruct (decide (id ∈ stream)) as [Hi|Hi]; [done|].
      intros H. by apply Hlive in H.
  - pose proof Hm as (Hs & Hmr & Ha & Hch & Hlive).
    destruct (Recorder.getUserMedia env) as [n|] eqn:Hg.
    + destruct (Recorder.supportedType env) as [ty|] eqn:Hty.
      * rewrite (toggle_start env s n ty Hrec Hm Hg Hty). split; simpl.
        -- intros id b H. rewrite lookup_open_stream in H.
           destruct (decide (id ∈ seq (Recorder.nextTrack s) n)) as [Hi|Hi].
           ++ apply elem_of_seq in Hi. lia.
           ++ apply Ht in H. lia.
        -- done.
        -- exists (seq (Recorder.nextTrack s) n), ty.
           repeat split; try done.
           ++ by apply (find_supported_elem (Recorder.isTypeSupported env)).
           ++ unfold live. simpl. rewrite lookup_open_stream.
              destruct (decide (id ∈ seq (Recorder.nextTrack s) n)); [done|].
              intros H. by destruct (Hlive id).
           ++ intros Hi. unfold live. simpl. rewrite lookup_open_stream.
              by destruct (decide (id ∈ seq (Recorder.nextTrack s) n)).
      * rewrite (toggle_unsupported env s n Hrec Hm Hg Hty). split; simpl.
        -- intros id b H. rewrite !lookup_stop_all, lookup_open_stream in H.
           destruct (decide (id ∈ seq (Recorder.nextTrack s) n)) as [Hi|Hi].
           ++ apply elem_of_seq in Hi. lia.
           ++ apply Ht in H. lia.
        -- done.
        -- rewrite Hrec. repeat split; try done. intros id. unfold live. simpl.
           rewrite !lookup_stop_all, lookup_open_stream.
           destruct (decide (id ∈ seq (Recorder.nextTrack s) n)); [done|].
           apply Hlive.
    + rewrite (toggle_denied env s Hrec Hm Hg). split; simpl; try done.
      rewrite Hrec. done.
Qed.

Lemma recorder_step_inv e s : recorder_inv s -> recorder_inv (recorder_step e s).
Proof.
  intros Hi. destruct e as [env|size]; simpl; [by apply toggle_inv|].
  destruct (Recorder.mediaRecorderRef s) as [[mime []]|] eqn:Hmr; try done.
  unfold ondataavailable. destruct (0 <? size)%nat; [|done].
  destruct Hi as [Ht Hc Hm]. split; simpl; try done.
  destruct (Recorder.isRecording s).
  - destruct Hm as (stream & mime' & H). by exists stream, mime'.
  - destruct Hm as (_ & Hn & _). by destruct (Hn mime).
Qed.

Lemma recorder_run_inv evs s : recorder_inv s -> recorder_inv (recorder_run evs s).
Proof.
  revert s. induction evs as [|e evs IH]; intros s Hs; simpl; [done|].
  by apply IH, recorder_step_inv.
Qed.



(** X11.  Pressing record while idle, in a browser that grants the
    microphone and supports at least one of the preferred formats,
    starts a recording: [isRecording] stays true, one more
    [MediaRecorder] is constructed, with the first format of the
    preference list the browser supports (all entries before it were
    refused), and is recording with no chunk yet; the stream's tracks
    are live, the waveform gets its analyser, and the earlier clip and
    error are gone. *)
Theorem recording_starts_in_preferred_format
    (evs : list RecorderEvent) (env : Recorder.Env) (n : nat) (t : string) :
  let s := recorder_run evs Recorder.fresh in
  Recorder.isRecording s = false ->
  Recorder.getUserMedia env = Some n ->
  t ∈ Recorder.supportedMimeTypes ->
  Recorder.isTypeSupported env t = true ->
  let s' := Recorder.handleRecordToggle env s in
  exists ty,
    first_supported (Recorder.isTypeSupported env) Recorder.supportedMimeTypes ty
    /\ Recorder.mediaRecorderRef s'
       = Some (Recorder.mkMediaRecorder ty Recorder.Recording)
    /\ Recorder.isRecording s' = true
    /\ Recorder.constructed s' = S (Recorder.constructed s)
    /\ Recorder.recordedChunksRef s' = []
    /\ Recorder.streamRef s' = Some (seq (Recorder.nextTrack s) n)
    /\ (forall id, id ∈ seq (Recorder.nextTrack s) n ->
          Recorder.tracks s' !! id = Some true)
    /\ Recorder.analyserNode s' = true
    /\ Recorder.recordedAudio s' = None
    /\ Recorder.recordingError s' = None.
Proof.
  intros s Hrec Hg Hin Hsup s'.
  destruct (recorder_run_inv evs _ fresh_inv) as [_ _ Hm].
  fold s in Hm. rewrite Hrec in Hm.
  destruct (Recorder.supportedType env) as [ty|] eqn:Hty.
  2:{ unfold Recorder.supportedType in Hty.
      apply list_elem_of_In in Hin.
      pose proof (find_none _ _ Hty t Hin). congruence. }
  exists ty. split; [by apply find_first_supported|].
  unfold s'. rewrite (toggle_start env s n ty Hrec Hm Hg Hty). simpl.
  repeat split; try done.
  intros id Hid. rewrite lookup_open_stream. by destruct (decide _).
Qed.

Lemma recording_starts_in_preferred_format_witness :
  let s := recorder_run [] Recorder.fresh in
  let s' := Recorder.handleRecordToggle webm_only s in
  exists ty,
    first_supported (Recorder.isTypeSupported webm_only) Recorder.supportedMimeTypes ty
    /\ Recorder.mediaRecorderRef s'
       = Some (Recorder.mkMediaRecorder ty Recorder.Recording)
    /\ Recorder.isRecording s' = true
    /\ Recorder.constructed s' = S (Recorder.constructed s)
    /\ Recorder.recordedChunksRef s' = []
    /\ Recorder.streamRef s' = Some (seq (Recorder.nextTrack s) 1)
    /\ (forall id, id ∈ seq (Recorder.nextTrack s) 1 ->
          Recorder.tracks s' !! id = Some true)
    /\ Recorder.analyserNode s' = true
    /\ Recorder.recordedAudio s' = None
    /\ Recorder.recordingError s' = None.
Proof.
  apply (recording_starts_in_preferred_format [] webm_only 1 "audio/webm").
  - reflexivity.
  - reflexivity.
  - unfold Recorder.supportedMimeTypes. set_solver.
  - reflexivity.
Defined.




(** X13.  Pressing record while idle when the microphone is refused:
    the microphone error is shown and [isRecording] is false again
    after the renders the press causes; no stream was captured, no
    track and no [MediaRecorder] created; the clip of the recording
    before, if there was one, has been discarded all the same. *)
Theorem microphone_refused (evs : list RecorderEvent) (env : Recorder.Env) :
  let s := recorder_run evs Recorder.fresh in
  Recorder.isRecording s = false ->
  Recorder.getUserMedia env = None ->
  let s' := Recorder.handleRecordToggle env s in
  Recorder.recordingError s' = Some Recorder.ErrMicrophoneDenied
  /\ Recorder.isRecording s' = false
  /\ Recorder.recordedAudio s' = None
  /\ Recorder.streamRef s' = None
  /\ Recorder.analyserNode s' = false
  /\ Recorder.tracks s' = Recorder.tracks s
  /\ Recorder.nextTrack s' = Recorder.nextTrack s
  /\ Recorder.constructed s' = Recorder.constructed s
  /\ Recorder.mediaRecorderRef s' = Recorder.mediaRecorderRef s.
Proof.
  intros s Hrec Hg s'.
  pose proof (recorder_run_inv evs _ fresh_inv) as Hinv. fold s in Hinv.
  pose proof (ri_mode s Hinv) as Hm. rewrite Hrec in Hm.
  unfold s'. rewrite (toggle_denied env s Hrec Hm Hg). simpl.
  destruct Hm as (? & _ & ? & _). done.
Qed.

Lemma microphone_refused_witness :
  let s := recorder_run [RecordToggle webm_only; DataAvailable 64;
                         RecordToggle webm_only] Recorder.fresh in
  let s' := Recorder.handleRecordToggle no_microphone s in
  Recorder.recordingError s' = Some Recorder.ErrMicrophoneDenied
  /\ Recorder.isRecording s' = false
  /\ Recorder.recordedAudio s' = None
  /\ Recorder.streamRef s' = None
  /\ Recorder.analyserNode s' = false
  /\ Recorder.tracks s' = Recorder.tracks s
  /\ Recorder.nextTrack s' = Recorder.nextTrack s
  /\ Recorder.constructed s' = Recorder.constructed s
  /\ Recorder.mediaRecorderRef s' = Recorder.mediaRecorderRef s.
Proof.
  apply (microphone_refused [RecordToggle webm_only; DataAvailable 64;
                             RecordToggle webm_only] no_microphone).
  - reflexivity.
  - reflexivity.
Defined.

(** * Saving *)

Local Open Scope string_scope.

Lemma portable_digit k : portable (digit k) = true.
Proof.
  destruct (digit_cases k) as [->|[->|[->|[->|[->|[->|[->|[->|[->| ->]]]]]]]]];
    reflexivity.
Qed.

Lemma digit_not_dot k : Ascii.eqb (digit k) "." = false.
Proof.
  destruct (digit_cases k) as [->|[->|[->|[->|[->|[->|[->|[->|[->| ->]]]]]]]]];
    reflexivity.
Qed.

(** X14.  The name under which a recording is saved is one every file
    system takes: for a date whose UTC year is at most 9999 it consists
    of lower-case letters, digits, [-], [_] and [.] only (no colon, no
    slash, no blank), has exactly one dot, the one before the
    extension, and is 43 characters long for [mp4] and 44 for [webm]. *)
Theorem saved_name_is_portable (d : Date) (type : string) :
  (utcFullYear d <= 9999)%N ->
  string_forall portable (filename d type) = true
  /\ occurrences "." (filename d type) = 1%nat
  /\ String.length (filename d type)
     = (if includes "mp4" type then 43 else 44)%nat.
Proof.
  intros _. unfold filename, extension. rewrite timestamp_shape.
  destruct (includes "mp4" type);
    cbv [pad4 pad3 pad2 String.append];
    cbn [string_forall occurrences String.length];
    rewrite !portable_digit, !digit_not_dot; repeat split; reflexivity.
Qed.

Lemma saved_name_is_portable_witness :
  string_forall portable (filename sample_date "audio/webm;codecs=opus") = true
  /\ occurrences "." (filename sample_date "audio/webm;codecs=opus") = 1%nat
  /\ String.length (filename sample_date "audio/webm;codecs=opus")
     = (if includes "mp4" "audio/webm;codecs=opus" then 43 else 44)%nat.
Proof.
  apply (saved_name_is_portable sample_date "audio/webm;codecs=opus").
  vm_compute. discriminate.
Defined.

Lemma supported_cases ty :
  ty ∈ Recorder.supportedMimeTypes ->
  ty = "audio/mp4" \/ ty = "audio/webm;codecs=opus" \/ ty = "audio/webm".
Proof. unfold Recorder.supportedMimeTypes. set_solver. Qed.

(** X15.  Saving hands over the clip in the format it was recorded in.
    For the clip of any run of the recorder: the name ends in [mp4] and
    the file is typed [audio/mp4] when the recorder's format was
    [audio/mp4], and [webm] and [audio/webm] for the two WebM formats,
    so the declared type is the recorded type without its codecs
    parameter; whatever the browser answers, the file goes out under
    that name, the clip and the recorder are left as they were (so it
    can be saved again), and the save-failed error is shown exactly
    when an error other than an [AbortError] was thrown: a dismissed
    share sheet shows none. *)
Theorem saved_file_matches_recording
    (evs : list RecorderEvent) (env : SaveEnv) (d : Date) (url : nat) (ty : string) :
  let s := recorder_run evs Recorder.fresh in
  Recorder.recordedAudio s = Some (url, ty) ->
  let '(s', out) := handleSaveRecording env d s in
  starts_with (mimeType ty) ty = true
  /\ mimeType ty = "audio/" +:+ extension ty
  /\ (extension ty = "mp4" <-> ty = "audio/mp4")
  /\ Recorder.recordedAudio s' = Some (url, ty)
  /\ Recorder.isRecording s' = Recorder.isRecording s
  /\ Recorder.tracks s' = Recorder.tracks s
  /\ Recorder.mediaRecorderRef s' = Recorder.mediaRecorderRef s
  /\ match out with
     | Some (Shared name mime) =>
         name = filename d ty /\ mime = mimeType ty
         /\ Recorder.recordingError s' = Recorder.recordingError s
     | Some (Downloaded name) =>
         name = filename d ty /\ Recorder.recordingError s' = Recorder.recordingError s
     | None =>
         exists e, save_attempt env (filename d ty) (mimeType ty) = inl e
           /\ Recorder.recordingError s'
              = (if String.eqb e "AbortError" then Recorder.recordingError s
                 else Some Recorder.ErrSaveFailed)
     end.
Proof.
  intros s Hclip.
  pose proof (recorder_run_inv evs _ fresh_inv) as Hinv. fold s in Hinv.
  destruct (ri_clip s Hinv url ty Hclip) as [_ Hty].
  unfold handleSaveRecording. rewrite Hclip.
  assert (starts_with (mimeType ty) ty = true
          /\ mimeType ty = "audio/" +:+ extension ty
          /\ (extension ty = "mp4" <-> ty = "audio/mp4")) as (H1 & H2 & H3).
  { destruct (supported_cases ty Hty) as [->|[->| ->]]; vm_compute; repeat split; done. }
  unfold save_attempt.
  destruct (fetchFails env) as [e|].
  { destruct (String.eqb e "AbortError") eqn:E; do 7 (split; [done|]);
      exists e; rewrite E; done. }
  destruct (shareDefined env); [destruct (canShare env) as [[]|]|].
  - destruct (shareFails env) as [e|]; [|done].
    destruct (String.eqb e "AbortError") eqn:E; do 7 (split; [done|]);
      exists e; rewrite E; done.
  - done.
  - do 7 (split; [done|]). exists "TypeError". done.
  - done.
Qed.

Lemma saved_file_matches_recording_witness :
  let s := recorder_run [RecordToggle webm_only; DataAvailable 64;
                         RecordToggle webm_only] Recorder.fresh in
  let '(s', out) := handleSaveRecording share_cancelled sample_date s in
  starts_with (mimeType "audio/webm") "audio/webm" = true
  /\ mimeType "audio/webm" = "audio/" +:+ extension "audio/webm"
  /\ (extension "audio/webm" = "mp4" <-> "audio/webm" = "audio/mp4")
  /\ Recorder.recordedAudio s' = Some (0%nat, "audio/webm")
  /\ Recorder.isRecording s' = Recorder.isRecording s
  /\ Recorder.tracks s' = Recorder.tracks s
  /\ Recorder.mediaRecorderRef s' = Recorder.mediaRecorderRef s
  /\ match out with
     | Some (Shared name mime) =>
         name = filename sample_date "audio/webm" /\ mime = mimeType "audio/webm"
         /\ Recorder.recordingError s' = Recorder.recordingError s
     | Some (Downloaded name) =>
         name = filename sample_date "audio/webm"
         /\ Recorder.recordingError s' = Recorder.recordingError s
     | None =>
         exists e, save_attempt share_cancelled (filename sample_date "audio/webm")
                     (mimeType "audio/webm") = inl e
           /\ Recorder.recordingError s'
              = (if String.eqb e "AbortError" then Recorder.recordingError s
                 else Some Recorder.ErrSaveFailed)
     end.
Proof.
  apply (saved_file_matches_recording
           [RecordToggle webm_only; DataAvailable 64; RecordToggle webm_only]
           share_cancelled sample_date 0 "audio/webm").
  reflexivity.
Defined.

Local Close Scope string_scope.

(** * The waveform *)

Lemma draw_samples_length i x sw h data :
  length (draw_samples i x sw h data) = length data.
Proof.
  revert i x. induction data as [|d data IH]; intros i x; simpl; [done|].
  by rewrite IH.
Qed.

Lemma draw_samples_lookup data : forall i x sw h k d,
  data !! k = Some d ->
  exists c,
    draw_samples i x sw h data !! k = Some c
    /\ (cmd_x c == x + inject_Z (Z.of_nat k) * sw)%Q
    /\ (cmd_y c == inject_Z d * h / 256)%Q
    /\ is_move c = (i + k =? 0)%nat.
Proof.
  induction data as [|d0 data IH]; intros i x sw h k d Hk; [done|].
  destruct k as [|k]; simpl in Hk.
  - injection Hk as ->. cbn [draw_samples]. eexists. split; [reflexivity|].
    rewrite Nat.add_0_r.
    destruct (i =? 0)%nat; simpl; (split; [|split; [|done]]);
      try (change (inject_Z 0) with 0%Q; ring); field.
  - destruct (IH (S i) (x + sw)%Q sw h k d Hk) as (c & Hc & Hx & Hy & Hm).
    exists c. cbn [draw_samples]. split; [exact Hc|]. split; [|split; [done|]].
    + rewrite Hx. rewrite Nat2Z.inj_succ. unfold Z.succ. rewrite inject_Z_plus.
      change (inject_Z 1) with 1%Q. ring.
    + rewrite Hm. by replace (i + S k)%nat with (S i + k)%nat by lia.
Qed.

Lemma bytes_lookup (data : list Z) (k : nat) (d : Z) :
  bytes data = true -> data !! k = Some d -> 0 <= d <= 255.
Proof.
  unfold bytes. intros H Hk. rewrite forallb_forall in H.
  apply list_elem_of_lookup_2, list_elem_of_In in Hk. apply H in Hk. lia.
Qed.

(** X16.  The trace stays on the canvas and reads the samples left to
    right.  For a canvas of [width] by [height] pixels and [n > 0]
    bytes from the analyser, the path has [n + 1] commands: sample [k]
    is at abscissa [k * width / n] and ordinate [d * height / 256],
    hence a sample of 128 (silence) lies on the centre line; only the
    first command is a [moveTo]; the last is a [lineTo] to the middle
    of the right edge; and every point lies within the canvas. *)
Theorem waveform_stays_on_canvas (width height : Z) (dataArray : list Z) :
  0 <= width -> 0 <= height -> bytes dataArray = true -> dataArray <> [] ->
  let n := length dataArray in
  let path := draw_path width height dataArray in
  length path = S n
  /\ (forall k d, dataArray !! k = Some d ->
        exists c, path !! k = Some c
          /\ (cmd_x c == inject_Z (Z.of_nat k) * inject_Z width / inject_Z (Z.of_nat n))%Q
          /\ (cmd_y c == inject_Z d * inject_Z height / 256)%Q
          /\ (d = 128 -> (cmd_y c == inject_Z height / 2)%Q)
          /\ is_move c = (k =? 0)%nat)
  /\ path !! n = Some (LineTo (inject_Z width) (inject_Z height / 2))
  /\ (forall k c, path !! k = Some c ->
        (0 <= cmd_x c <= inject_Z width)%Q /\ (0 <= cmd_y c <= inject_Z height)%Q).
Proof.
  intros Hw Hh Hb Hne n path.
  assert (0 < n)%nat as Hn by (unfold n; destruct dataArray; [done|simpl; lia]).
  assert (0 < inject_Z (Z.of_nat n))%Q as Hnq.
  { change 0%Q with (inject_Z 0). rewrite <- Zlt_Qlt. lia. }
  assert (0 <= inject_Z width)%Q as Hwq.
  { change 0%Q with (inject_Z 0). by rewrite <- Zle_Qle. }
  assert (0 <= inject_Z height)%Q as Hhq.
  { change 0%Q with (inject_Z 0). by rewrite <- Zle_Qle. }
  assert (forall k d, dataArray !! k = Some d ->
        exists c, path !! k = Some c
          /\ (cmd_x c == inject_Z (Z.of_nat k) * inject_Z width / inject_Z (Z.of_nat n))%Q
          /\ (cmd_y c == inject_Z d * inject_Z height / 256)%Q
          /\ is_move c = (k =? 0)%nat) as Hpts.
  { intros k d Hk. unfold path, draw_path.
    destruct (draw_samples_lookup dataArray 0 0
                (inject_Z width * 1 / inject_Z (Z.of_nat (length dataArray)))
                (inject_Z height) k d Hk) as (c & Hc & Hx & Hy & Hm).
    exists c. split; [by apply lookup_app_l_Some|].
    split; [|split; [done|done]].
    rewrite Hx. fold n. field. lra. }
  split; [|split; [|split]].
  - unfold path, draw_path. rewrite length_app, draw_samples_length. simpl. lia.
  - intros k d Hk. destruct (Hpts k d Hk) as (c & Hc & Hx & Hy & Hm).
    exists c. split; [done|]. split; [done|]. split; [done|]. split; [|done].
    intros ->. rewrite Hy. change (inject_Z 128) with 128%Q. field.
  - unfold path, draw_path.
    rewrite lookup_app_r by (rewrite draw_samples_length; fold n; lia).
    rewrite draw_samples_length. fold n. by rewrite Nat.sub_diag.
  - intros k c Hc. destruct (decide (k < n)%nat) as [Hlt|Hge].
    + destruct (lookup_lt_is_Some_2 dataArray k Hlt) as [d Hd].
      destruct (Hpts k d Hd) as (c' & Hc' & Hx & Hy & _).
      rewrite Hc in Hc'. injection Hc' as <-.
      pose proof (bytes_lookup _ _ _ Hb Hd) as Hd255.
      assert (0 <= inject_Z d <= 255)%Q as [Hd0 Hd1].
      { change 0%Q with (inject_Z 0). change 255%Q with (inject_Z 255).
        rewrite <- !Zle_Qle. lia. }
      assert (0 <= inject_Z (Z.of_nat k) <= inject_Z (Z.of_nat n))%Q as [Hk0 Hk1].
      { change 0%Q with (inject_Z 0). rewrite <- !Zle_Qle. lia. }
      rewrite Hx, Hy. split; split.
      * apply Qle_shift_div_l; [done|]. rewrite Qmult_0_l.
        by apply Qmult_le_0_compat.
      * apply Qle_shift_div_r; [done|]. rewrite (Qmult_comm (inject_Z width)).
        by apply Qmult_le_compat_r.
      * apply Qle_shift_div_l; [reflexivity|]. rewrite Qmult_0_l.
        by apply Qmult_le_0_compat.
      * apply Qle_shift_div_r; [reflexivity|]. rewrite (Qmult_comm (inject_Z height)).
        apply Qmult_le_compat_r; [lra|done].
    + assert (k = n) as ->.
      { apply lookup_lt_Some in Hc. unfold path, draw_path in Hc.
        rewrite length_app, draw_samples_length in Hc. simpl in Hc. fold n in Hc. lia. }
      unfold path, draw_path in Hc.
      rewrite lookup_app_r in Hc by (rewrite draw_samples_length; fold n; lia).
      rewrite draw_samples_length in Hc. fold n in Hc. rewrite Nat.sub_diag in Hc.
      injection Hc as <-. cbn [cmd_x cmd_y].
      split; split; try lra; try apply Qle_refl.
      * apply Qle_shift_div_l; [reflexivity|]. lra.
      * apply Qle_shift_div_r; [reflexivity|]. lra.
Qed.

Lemma waveform_stays_on_canvas_witness :
  let dataArray := [128; 0; 255; 64] in
  let n := length dataArray in
  let path := draw_path 300 120 dataArray in
  length path = S n
  /\ (forall k d, dataArray !! k = Some d ->
        exists c, path !! k = Some c
          /\ (cmd_x c == inject_Z (Z.of_nat k) * inject_Z 300 / inject_Z (Z.of_nat n))%Q
          /\ (cmd_y c == inject_Z d * inject_Z 120 / 256)%Q
          /\ (d = 128 -> (cmd_y c == inject_Z 120 / 2)%Q)
          /\ is_move c = (k =? 0)%nat)
  /\ path !! n = Some (LineTo (inject_Z 300) (inject_Z 120 / 2))
  /\ (forall k c, path !! k = Some c ->
        (0 <= cmd_x c <= inject_Z 300)%Q /\ (0 <= cmd_y c <= inject_Z 120)%Q).
Proof.
  apply (waveform_stays_on_canvas 300 120 [128; 0; 255; 64]).
  - lia.
  - lia.
  - reflexivity.
  - discriminate.
Defined.

(** ** The draw loop and the resize listeners *)

Lemma waveform_mounted_inv : waveform_inv waveform_mounted.
Proof.
  split; simpl; try done.
  - lia.
  - intros l Hl. apply elem_of_union in Hl as [Hl|Hl]; [|set_solver].
    apply elem_of_singleton in Hl. lia.
Qed.

Lemma waveform_step_inv e w : waveform_inv w -> waveform_inv (waveform_step e w).
Proof.
  intros Hw. pose proof Hw as [Hf Hc Hid Hp Hl].
  destruct w as [a fid fr ls cl nx]. simpl in *.
  destruct e as [a'|id]; simpl.
  - destruct (decide (a' = a)) as [->|Hne]; [done|].
    destruct a as [a|].
    + destruct Hc as (l & -> & Hin). subst fr. unfold waveform_cleanup. simpl.
      assert (fid <> 0)%nat as Hnz by (apply Hp; eauto).
      destruct a' as [a'|]; unfold waveform_effect; simpl.
      * split; simpl.
        -- set_solver.
        -- exists nx. split; [done|set_solver].
        -- lia.
        -- intros _. lia.
        -- intros l' Hl'. apply elem_of_union in Hl' as [Hl'|Hl'].
           ++ apply elem_of_singleton in Hl'. lia.
           ++ apply elem_of_difference in Hl' as [Hl' _]. apply Hl in Hl'. lia.
      * destruct (fid =? 0)%nat eqn:E; [apply Nat.eqb_eq in E; done|].
        split; simpl.
        -- set_solver.
        -- done.
        -- lia.
        -- by intros [? ?].
        -- intros l' Hl'. apply elem_of_union in Hl' as [Hl'|Hl'].
           ++ apply elem_of_singleton in Hl'. lia.
           ++ apply elem_of_difference in Hl' as [Hl' _]. apply Hl in Hl'. lia.
    + subst fr cl. unfold waveform_cleanup. simpl.
      destruct a' as [a'|]; [|done]. unfold waveform_effect. simpl.
      split; simpl.
      * set_solver.
      * exists nx. split; [done|set_solver].
      * lia.
      * intros _. lia.
      * intros l' Hl'. apply elem_of_union in Hl' as [Hl'|Hl'].
        -- apply elem_of_singleton in Hl'. lia.
        -- apply Hl in Hl'. lia.
  - destruct (decide (id ∈ fr)) as [Hin|Hnin]; [|done].
    destruct a as [a|]; [|subst fr; set_solver].
    subst fr. apply elem_of_singleton in Hin as ->.
    split; simpl.
    + set_solver.
    + done.
    + lia.
    + intros _. lia.
    + intros l' Hl'. apply Hl in Hl'. lia.
Qed.

Lemma waveform_run_inv evs w : waveform_inv w -> waveform_inv (waveform_run evs w).
Proof.
  revert w. induction evs as [|e evs IH]; intros w Hw; simpl; [done|].
  by apply IH, waveform_step_inv.
Qed.

(** X17.  One draw loop at most.  After any sequence of renders with
    changing analysers and of animation frames run: while an analyser
    is attached exactly one animation frame is pending, the one
    [animationFrameId] names; without an analyser none is pending, so
    no [draw] runs again after the analyser is taken away. *)
Theorem one_draw_loop (evs : list WaveformEvent) :
  let w := waveform_run evs waveform_mounted in
  (forall a, wf_analyser w = Some a -> wf_frames w = {[animationFrameId w]})
  /\ (wf_analyser w = None ->
      wf_frames w = ∅ /\ forall id, waveform_step (Frame id) w = w).
Proof.
  intros w. destruct (waveform_run_inv evs _ waveform_mounted_inv) as [Hf _ _ _ _].
  fold w in Hf. split.
  - intros a Ha. by rewrite Ha in Hf.
  - intros Ha. rewrite Ha in Hf. split; [done|].
    intros id. simpl. rewrite Hf. destruct (decide (id ∈ ∅)) as [H|]; [|done].
    set_solver.
Qed.

Lemma frames_keep_listeners ids w :
  wf_listeners (waveform_run (Frame <$> ids) w) = wf_listeners w
  /\ wf_analyser (waveform_run (Frame <$> ids) w) = wf_analyser w
  /\ wf_cleanup (waveform_run (Frame <$> ids) w) = wf_cleanup w.
Proof.
  revert w. induction ids as [|id ids IH]; intros w; [done|].
  cbn [fmap list_fmap waveform_run foldl].
  fold (waveform_run (Frame <$> ids) (waveform_step (Frame id) w)).
  destruct (IH (waveform_step (Frame id) w)) as (-> & -> & ->).
  simpl. destruct (decide (id ∈ wf_frames w)); done.
Qed.

(** X18.  Each recording leaves a resize listener behind.  The effect
    registers its [resize] listener before it looks at the analyser,
    and returns a cleanup only when there is one.  So from a waveform
    without analyser, attaching an analyser, running any frames and
    detaching it again ends with every listener that was registered
    still registered, and one more. *)
Theorem resize_listeners_accumulate
    (evs : list WaveformEvent) (a : nat) (ids : list nat) :
  let w := waveform_run evs waveform_mounted in
  wf_analyser w = None ->
  let w' := waveform_run (SetAnalyser (Some a) :: (Frame <$> ids) ++ [SetAnalyser None]) w in
  wf_listeners w ⊆ wf_listeners w'
  /\ size (wf_listeners w') = S (size (wf_listeners w))
  /\ wf_frames w' = ∅
  /\ wf_cleanup w' = None.
Proof.
  intros w Ha w'.
  pose proof (waveform_run_inv evs _ waveform_mounted_inv) as Hinv. fold w in Hinv.
  pose proof (wi_cleanup _ Hinv) as Hc. rewrite Ha in Hc.
  pose proof (wi_fresh _ Hinv) as Hfresh.
  set (w1 := waveform_step (SetAnalyser (Some a)) w).
  assert (wf_listeners w1 = {[wf_next w]} ∪ wf_listeners w
          /\ wf_analyser w1 = Some a /\ wf_cleanup w1 = Some (wf_next w))
    as (Hl1 & Ha1 & Hc1).
  { unfold w1. cbn [waveform_step]. rewrite Ha.
    destruct (decide (Some a = None)); [done|].
    unfold waveform_cleanup. rewrite Hc. done. }
  set (w2 := waveform_run (Frame <$> ids) w1).
  destruct (frames_keep_listeners ids w1) as (Hl2 & Ha2 & Hc2). fold w2 in Hl2, Ha2, Hc2.
  assert (waveform_inv w2) as Hinv2.
  { unfold w2. apply waveform_run_inv. unfold w1. by apply waveform_step_inv. }
  pose proof (wi_fresh _ Hinv2) as Hfresh2.
  pose proof (wi_playing _ Hinv2) as Hp2.
  pose proof (wi_frames _ Hinv2) as Hf2.
  rewrite Ha2, Ha1 in Hp2, Hf2. rewrite Hl2, Hl1 in Hfresh2.
  assert (w' = waveform_step (SetAnalyser None) w2) as ->.
  { unfold w', w2, w1, waveform_run. cbn [foldl]. rewrite foldl_app. done. }
  cbn [waveform_step]. rewrite Ha2, Ha1.
  destruct (decide (None = Some a)); [done|].
  unfold waveform_cleanup. rewrite Hc2, Hc1. unfold waveform_effect.
  cbn [wf_next animationFrameId wf_frames wf_listeners wf_cleanup wf_analyser].
  destruct (animationFrameId w2 =? 0)%nat eqn:E.
  { apply Nat.eqb_eq in E. destruct Hp2; [by eexists|done]. }
  cbn [wf_next animationFrameId wf_frames wf_listeners wf_cleanup wf_analyser].
  rewrite Hl2, Hl1, Hf2.
  assert (wf_next w ∉ wf_listeners w) as Hn1.
  { intros H. apply Hfresh in H. lia. }
  assert (wf_next w2 ∉ wf_listeners w) as Hn2.
  { intros H. assert (wf_next w2 ∈ ({[wf_next w]} ∪ wf_listeners w : gset nat)) as H'
      by set_solver.
    apply Hfresh2 in H'. lia. }
  assert ({[wf_next w2]} ∪ ({[wf_next w]} ∪ wf_listeners w) ∖ {[wf_next w]}
          = ({[wf_next w2]} ∪ wf_listeners w : gset nat)) as ->.
  { apply set_eq. intros x. set_solver. }
  split; [set_solver|]. split; [|split; [set_solver|done]].
  rewrite size_union by set_solver. by rewrite size_singleton.
Qed.

Lemma resize_listeners_accumulate_witness :
  let w := waveform_run [] waveform_mounted in
  let w' := waveform_run
              (SetAnalyser (Some 7%nat) :: (Frame <$> [3; 4; 9]%nat) ++ [SetAnalyser None]) w in
  wf_listeners w ⊆ wf_listeners w'
  /\ size (wf_listeners w') = S (size (wf_listeners w))
  /\ wf_frames w' = ∅
  /\ wf_cleanup w' = None.
Proof.
  apply (resize_listeners_accumulate [] 7 [3; 4; 9]%nat). reflexivity.
Defined.
